(** * Label remapping over a class hierarchy: utils/nmn_datasets.py

    A shallow embedding of [Node], [PathSanityDataset], [IncludeLabelsDataset]
    and [ExcludeLabelsDataset], and the properties of the label-remapping core.

    Python values are modelled as follows: flat labels, list indices and counts
    are [nat]; an index or a sample cap that Python accepts negative is [Z]; the
    dict [Node.mapping] is a [gmap nat nat]; a label set is a [gset nat]; a
    raised exception is the [Err] branch of [result]; a Python float and a
    [float32] tensor entry are the rationals they denote, in [Q]: the quotient
    of two Python ints is the exact quotient rounded to binary64, and an entry
    of [torch.Tensor] is its argument rounded to binary32, both to nearest
    with ties to even. *)

From Stdlib Require Import Ascii QArith Qminmax Qround Qabs Qpower Lqa.
From stdpp Require Import gmap strings list fin_maps sorting.

#[local] Set Warnings "-register-all".

(** ** Binary floating point: the values of Python's [float] and of a
    [float32] tensor *)

Module PyFloat.

(** [2 ^ e] for any integer [e]. *)
Definition pow2 (e : Z) : Q := (2 ^ e)%Q.

(** For [q > 0], the integer [e] with [2 ^ e <= q < 2 ^ (e + 1)]. *)
Definition ilog2 (q : Q) : Z :=
  let e0 := (Z.log2 (Qnum q) - Z.log2 (Z.pos (Qden q)))%Z in
  if Qle_bool (pow2 e0) q then e0 else (e0 - 1)%Z.

(** The integer nearest to [q]; of two equally near, the even one. *)
Definition rne (q : Q) : Z :=
  let f := Qfloor q in
  match (q - inject_Z f ?= 1 # 2)%Q with
  | Lt => f
  | Gt => (f + 1)%Z
  | Eq => if Z.even f then f else (f + 1)%Z
  end.

(** The exponent of the last place of [q] in a format of [prec] significant
    bits whose least positive value is [2 ^ emin]: below [2 ^ (emin + prec - 1)]
    the values are subnormal and the spacing stays [2 ^ emin]. *)
Definition exponent (prec emin : Z) (q : Q) : Z :=
  Z.max (ilog2 (Qabs q) - (prec - 1)) emin.

(** [q] rounded to the nearest value of the format, ties to even, the
    exponent being unbounded above. The result is in lowest terms. *)
Definition round (prec emin : Z) (q : Q) : Q :=
  if Qeq_bool q 0 then 0%Q
  else let e := exponent prec emin q in
       Qred (inject_Z (rne (q / pow2 e)) * pow2 e).

(** IEEE 754 binary64, the format of a Python [float]: 53 significant bits,
    least positive value [2 ^ -1074]; the finite values are those of
    magnitude below [2 ^ 1024]. *)
Definition binary64 : Q → Q := round 53 (-1074).

(** IEEE 754 binary32, the format of a [float32] tensor entry: 24 significant
    bits, least positive value [2 ^ -149]. *)
Definition binary32 : Q → Q := round 24 (-149).

End PyFloat.

(** ** Python: exceptions, sequences, strings *)

Module Py.

Inductive PyError : Type :=
| AssertionError (msg : string)
| ValueError
| IndexError
| KeyError
| TypeError
| NameError (name : string)
| ZeroDivisionError
| OverflowError.

Inductive result (A : Type) : Type :=
| Ok (a : A)
| Err (e : PyError).
Global Arguments Ok {A} a.
Global Arguments Err {A} e.

Global Instance result_ret : MRet result := λ A a, Ok a.
Global Instance result_bind : MBind result :=
  λ A B f r, match r with Ok a => f a | Err e => Err e end.

Definition is_Ok {A} (r : result A) : Prop := ∃ a, r = Ok a.

(** [assert cond, msg] *)
Definition assert (cond : bool) (msg : string) : result unit :=
  if cond then Ok tt else Err (AssertionError msg).

(** [xs.index(x)] counted from [i]: the first position holding [x]. *)
Fixpoint index_from (x : string) (xs : list string) (i : nat) : result nat :=
  match xs with
  | [] => Err ValueError
  | y :: ys => if bool_decide (y = x) then Ok i else index_from x ys (S i)
  end.

(** [xs.index(x)]; [x] is [None] when it is Python's [None], which no list of
    strings holds. *)
Definition list_index (xs : list string) (x : option string) : result nat :=
  match x with
  | None => Err ValueError
  | Some s => index_from s xs 0
  end.

(** [xs[i]] for a non-negative [i]. *)
Definition getitem {A} (xs : list A) (i : nat) : result A :=
  match xs !! i with
  | Some x => Ok x
  | None => Err IndexError
  end.

(** [xs[i]] for any int [i]: a negative index counts from the end. *)
Definition getitem_int {A} (xs : list A) (i : Z) : result A :=
  if (0 <=? i)%Z then getitem xs (Z.to_nat i)
  else if (0 <=? Z.of_nat (length xs) + i)%Z
       then getitem xs (Z.to_nat (Z.of_nat (length xs) + i))
       else Err IndexError.

(** [xs[:n]]: the first [n] items, or all but the last [-n] when [n < 0]. *)
Definition slice_to {A} (xs : list A) (n : Z) : list A :=
  if (0 <=? n)%Z then take (Z.to_nat n) xs
  else take (length xs - Z.to_nat (- n)) xs.

(** [sep.join(parts)] *)
Fixpoint join (sep : string) (parts : list string) : string :=
  match parts with
  | [] => ""
  | [p] => p
  | p :: ps => p +:+ sep +:+ join sep ps
  end.

(** [c in s] for a one-character [c]. *)
Fixpoint contains (c : Ascii.ascii) (s : string) : bool :=
  match s with
  | EmptyString => false
  | String a s' => if bool_decide (a = c) then true else contains c s'
  end.

(** [bool(s)] of a string. *)
Definition truthy (s : string) : bool :=
  match s with EmptyString => false | _ => true end.

(** [min(xs)] of a list of non-negative ints. *)
Definition min_list (xs : list nat) : result nat :=
  match xs with
  | [] => Err ValueError
  | x :: xs' => Ok (foldl Nat.min x xs')
  end.

(** [a / b] on non-negative ints: true division. CPython returns the float
    nearest to the exact quotient (ties to even), and raises [OverflowError]
    when that value is no finite float. *)
Definition truediv (a b : nat) : result Q :=
  match b with
  | O => Err ZeroDivisionError
  | S _ =>
      let q := PyFloat.binary64 (Z.of_nat a # Pos.of_nat b) in
      if Qle_bool (PyFloat.pow2 1024) q then Err OverflowError else Ok q
  end.

(** [min(1, x)]: Python keeps the first argument unless a later one is
    strictly smaller. *)
Definition min_one (x : Q) : Q :=
  if Qlt_le_dec x 1 then x else 1%Q.

(** [a <= b] on strings: the order [sorted] uses. *)
Definition str_le (a b : string) : Prop := String.leb a b = true.
Global Instance str_le_dec a b : Decision (str_le a b) :=
  decide (String.leb a b = true).

(** [sum(xs)] *)
Definition sum (xs : list nat) : nat := foldr Nat.add 0 xs.

(** [[f(x) for x in xs]] when [f] may raise: evaluation stops at the first
    exception. *)
Fixpoint comprehension {A B} (f : A → result B) (xs : list A) : result (list B) :=
  match xs with
  | [] => Ok []
  | x :: xs' => y ← f x; ys ← comprehension f xs'; Ok (y :: ys)
  end.

End Py.

Import Py.

(** ** xml.etree.ElementTree: the part of an element the module reads *)

Module ET.

(** An element: its tag, its [wnid] attribute (what [get('wnid')] returns,
    [None] when the attribute is absent) and its children in document
    order. *)
Inductive Element : Type :=
| Elem (tag : string) (wnid : option string) (children : list Element).

Definition tag (e : Element) : string :=
  match e with Elem t _ _ => t end.

(** [e.get('wnid')] *)
Definition get_wnid (e : Element) : option string :=
  match e with Elem _ w _ => w end.

(** [e.getchildren()] *)
Definition getchildren (e : Element) : list Element :=
  match e with Elem _ _ cs => cs end.

(** [e.iter()]: the element, then its descendants, in document order. *)
Fixpoint iter (e : Element) : list Element :=
  match e with
  | Elem _ _ cs => e :: flat_map iter cs
  end.

(** The double quote, the character that ends the value of the predicate of
    line 42. *)
Definition double_quote : Ascii.ascii := Ascii.ascii_of_nat 34.

(** [tree.find('.//synset[@wnid="w"]')]: the first proper descendant of the
    root, in document order, tagged [synset] whose [wnid] attribute is [w].
    This is what the path selects when [w] holds no double quote: line 42
    pastes [w] between two double quotes, and ElementPath reads the text up
    to the next double quote as the value to compare. A [w] that holds one
    ends the value early; what the rest of the predicate then does (in
    general a [SyntaxError]) is outside this model. *)
Definition is_synset (w : string) (e : Element) : bool :=
  bool_decide (tag e = "synset") && bool_decide (get_wnid e = Some w).

Definition find_synset (root : Element) (w : string) : option Element :=
  head (List.filter (is_synset w) (flat_map iter (getchildren root))).

End ET.

Import ET.

(** ** utils/xmlutils.py *)

Module xmlutils.

(** Modelled from the spec: [get_leaves] is imported from utils/xmlutils.py,
    which is not among the sources. The specification says that, for a child,
    the construction recursively enumerates all leaf descendants of that
    child, a vertex being a leaf iff it has zero children, and that document
    order is the traversal order: the leaves of the subtree rooted at the
    element (the element itself when it has no child), in document order. *)
Definition get_leaves (e : Element) : list Element :=
  List.filter (λ v, bool_decide (getchildren v = [])) (iter e).

End xmlutils.

(** ** torch *)

Module torch.

(** [torch.Tensor(xs)] of a list of Python numbers: a [float32] tensor, each
    entry the number rounded to binary32. The entries built here are at most
    1 in magnitude, far from the values that overflow to an infinity, which
    [Q] has not. *)
Definition Tensor (xs : list Q) : list Q := PyFloat.binary32 <$> xs.

End torch.

(** ** class Node *)

Module Node.

Record t : Type := mk {
  wnid : string;
  original_classes : list string;
  num_original_classes : nat;
  mapping : gmap nat nat;
  num_children : nat;
  num_classes : nat;
  new_to_old : list (list nat);
  classes : list string;
  _probabilities : option (list Q);
  _class_weights : option (list Q);
  children_wnids : list (option string)
}.

Section Init.

(** [get_leaves] of utils/xmlutils.py, which is not among the sources: the
    constructor is embedded over any such function. *)
Variable get_leaves : Element → list Element.

(** The inner loop of lines 51-54, for one child:
    [old_index = wnids.index(leaf.get('wnid')); mapping[old_index] = new_index]. *)
Fixpoint assign_leaves (wnids : list string) (new_index : nat)
    (leaves : list Element) (mapping : gmap nat nat) : result (gmap nat nat) :=
  match leaves with
  | [] => Ok mapping
  | leaf :: rest =>
      old_index ← list_index wnids (get_wnid leaf);
      assign_leaves wnids new_index rest (<[old_index := new_index]> mapping)
  end.

(** The loop of line 50 over [enumerate(children)], from position
    [new_index] on. *)
Fixpoint assign_children (wnids : list string) (new_index : nat)
    (children : list Element) (mapping : gmap nat nat) : result (gmap nat nat) :=
  match children with
  | [] => Ok mapping
  | child :: rest =>
      mapping' ← assign_leaves wnids new_index (get_leaves child) mapping;
      assign_children wnids (S new_index) rest mapping'
  end.

(** Lines 58-60: every [old_index] of [range(...)] that is not yet a key is
    sent to [n]. *)
Definition assign_other (n : nat) (old_indices : list nat)
    (mapping : gmap nat nat) : gmap nat nat :=
  foldl (λ m old_index,
           match m !! old_index with
           | Some _ => m
           | None => <[old_index := n]> m
           end) mapping old_indices.

(** Line 65: [new_to_old[new_index].append(old_index)]. The buckets were
    created by a comprehension, so they are distinct lists. *)
Definition bucket_append (new_to_old : list (list nat)) (new_index old_index : nat)
    : result (list (list nat)) :=
  bucket ← getitem new_to_old new_index;
  Ok (<[new_index := bucket ++ [old_index]]> new_to_old).

(** Lines 63-65. *)
Fixpoint group_by_new (mapping : gmap nat nat) (old_indices : list nat)
    (new_to_old : list (list nat)) : result (list (list nat)) :=
  match old_indices with
  | [] => Ok new_to_old
  | old_index :: rest =>
      new_index ← from_option Ok (Err KeyError) (mapping !! old_index);
      new_to_old' ← bucket_append new_to_old new_index old_index;
      group_by_new mapping rest new_to_old'
  end.

(** Lines 69-70: the name of one new class. *)
Definition class_name (original_classes : list string) (old_indices : list nat)
    : result string :=
  members ← comprehension (getitem original_classes) old_indices;
  Ok (join "," members).

(** [Node.__init__(wnid, path_tree, path_wnids, classes)]: [tree] is the
    root of the parsed hierarchy file and [wnids] the stripped lines of the
    file of flat class identifiers. *)
Definition init (wnid0 : string) (tree : Element) (wnids : list string)
    (classes0 : list string) : result t :=
  let num_original_classes0 := length wnids in
  match find_synset tree wnid0 with
  | None => Err (AssertionError ("Failed to find node with wnid " +:+ wnid0))
  | Some node =>
      let children := getchildren node in
      let n := length children in
      _ ← assert (bool_decide (0 < n)) "Cannot build dataset for leaf node.";
      mapping1 ← assign_children wnids 0 children ∅;
      let num_classes0 :=
        if bool_decide (size mapping1 < num_original_classes0) then n + 1 else n in
      let mapping2 := assign_other n (seq 0 num_original_classes0) mapping1 in
      new_to_old0 ← group_by_new mapping2 (seq 0 num_original_classes0)
                      (replicate num_classes0 []);
      classes1 ←
        match classes0 with
        | [] => Ok []
        | _ :: _ => comprehension (class_name classes0) new_to_old0
        end;
      Ok {| wnid := wnid0;
            original_classes := classes0;
            num_original_classes := num_original_classes0;
            mapping := mapping2;
            num_children := n;
            num_classes := num_classes0;
            new_to_old := new_to_old0;
            classes := classes1;
            _probabilities := None;
            _class_weights := None;
            children_wnids := get_wnid <$> children |}
  end.

(** Lines 117-122: the loop of [get_wnid_to_node] over [tree.iter()]. A
    vertex without identifier or without child is skipped; a later vertex
    with the identifier of an earlier one replaces its entry. *)
Fixpoint collect_nodes (vertices : list Element) (tree : Element)
    (wnids classes0 : list string) (wnid_to_node : gmap string t)
    : result (gmap string t) :=
  match vertices with
  | [] => Ok wnid_to_node
  | node :: rest =>
      match get_wnid node with
      | None => collect_nodes rest tree wnids classes0 wnid_to_node
      | Some w =>
          if bool_decide (length (getchildren node) = 0)
          then collect_nodes rest tree wnids classes0 wnid_to_node
          else
            nd ← init w tree wnids classes0;
            collect_nodes rest tree wnids classes0 (<[w := nd]> wnid_to_node)
      end
  end.

(** [Node.get_wnid_to_node(path_tree, path_wnids, classes)] *)
Definition get_wnid_to_node (tree : Element) (wnids classes0 : list string)
    : result (gmap string t) :=
  collect_nodes (iter tree) tree wnids classes0 ∅.

(** [Node.get_nodes(path_tree, path_wnids, classes)]: the nodes by
    increasing identifier. *)
Definition get_nodes (tree : Element) (wnids classes0 : list string)
    : result (list t) :=
  wnid_to_node ← get_wnid_to_node tree wnids classes0;
  let sorted_wnids := merge_sort str_le (map_to_list wnid_to_node).*1 in
  comprehension (λ w, from_option Ok (Err KeyError) (wnid_to_node !! w))
                sorted_wnids.

End Init.

(** [class_counts]: the number of old classes in each new class. *)
Definition class_counts (self : t) : list nat :=
  length <$> new_to_old self.

(** The value computed at lines 92-96 when the cache is empty: the list of
    the comprehension, then the tensor made of it. *)
Definition compute_probabilities (self : t) : result (list Q) :=
  reference ← min_list (class_counts self);
  ps ← comprehension
         (λ old_indices,
            q ← truediv reference (length old_indices); Ok (min_one q))
         (new_to_old self);
  Ok (torch.Tensor ps).

(** The [probabilities] setter (line 101); line 93 makes the same
    assignment to [self._probabilities]. *)
Definition set_probabilities (self : t) (ps : list Q) : t :=
  {| wnid := wnid self;
     original_classes := original_classes self;
     num_original_classes := num_original_classes self;
     mapping := mapping self;
     num_children := num_children self;
     num_classes := num_classes self;
     new_to_old := new_to_old self;
     classes := classes self;
     _probabilities := Some ps;
     _class_weights := _class_weights self;
     children_wnids := children_wnids self |}.

(** The [class_weights] setter (line 111). *)
Definition set_class_weights (self : t) (ws : list Q) : t :=
  {| wnid := wnid self;
     original_classes := original_classes self;
     num_original_classes := num_original_classes self;
     mapping := mapping self;
     num_children := num_children self;
     num_classes := num_classes self;
     new_to_old := new_to_old self;
     classes := classes self;
     _probabilities := _probabilities self;
     _class_weights := Some ws;
     children_wnids := children_wnids self |}.

(** The [probabilities] getter: the value read, and the node with its cache
    filled. *)
Definition probabilities (self : t) : result (list Q * t) :=
  match _probabilities self with
  | None =>
      ps ← compute_probabilities self;
      Ok (ps, set_probabilities self ps)
  | Some ps => Ok (ps, self)
  end.

(** The [class_weights] getter. *)
Definition class_weights (self : t) : result (list Q * t) :=
  match _class_weights self with
  | None =>
      '(ps, self') ← probabilities self;
      Ok (ps, set_class_weights self' ps)
  | Some ws => Ok (ws, self)
  end.

(** [Node.get_root_node_wnid(path_tree)]: the identifier of the first vertex
    of [tree.iter()] that has one. *)
Definition get_root_node_wnid (tree : Element) : option string :=
  head (omap get_wnid (iter tree)).

(** [Node.dim(nodes)] *)
Definition dim (nodes : list t) : nat :=
  sum (num_classes <$> nodes).

End Node.

(** ** The underlying sample source *)

Module Dataset.

(** What the views read of the wrapped dataset: its class names and, by
    position, its [(sample, label)] pairs. *)
Record t (Sample : Type) : Type := mk {
  classes : list string;
  items : list (Sample * nat)
}.
Global Arguments mk {Sample} _ _.
Global Arguments classes {Sample} _.
Global Arguments items {Sample} _.

(** [dataset[i]] *)
Definition getitem {Sample} (self : t Sample) (i : nat) : result (Sample * nat) :=
  Py.getitem (items self) i.

(** [len(dataset)] *)
Definition len {Sample} (self : t Sample) : nat := length (items self).

End Dataset.

(** ** class PathSanityDataset *)

Module PathSanityDataset.

Record t (Sample : Type) : Type := mk {
  path_tree : Element;
  path_wnids : list string;
  nodes : list Node.t;
  dataset : Dataset.t Sample;
  classes : list string
}.
Global Arguments mk {Sample} _ _ _ _ _.
Global Arguments path_tree {Sample} _.
Global Arguments path_wnids {Sample} _.
Global Arguments nodes {Sample} _.
Global Arguments dataset {Sample} _.
Global Arguments classes {Sample} _.

(** [PathSanityDataset.__init__(path_tree, path_wnids, dataset)] *)
Definition init {Sample} (get_leaves : Element → list Element)
    (tree : Element) (wnids : list string) (ds : Dataset.t Sample)
    : result (t Sample) :=
  nodes0 ← Node.get_nodes get_leaves tree wnids (Dataset.classes ds);
  Ok {| path_tree := tree; path_wnids := wnids; nodes := nodes0;
        dataset := ds; classes := Dataset.classes ds |}.

(** [get_sample(node, old_label)]: the one-hot vector of the node. *)
Definition get_sample (node : Node.t) (old_label : nat) : result (list Z) :=
  new_label ← from_option Ok (Err KeyError) (Node.mapping node !! old_label);
  let sample := replicate (Node.num_classes node) 0%Z in
  _ ← getitem sample new_label;
  Ok (<[new_label := 1%Z]> sample).

(** [np.zeros((n, k))]: [n] rows of [k] zeros. *)
Definition zeros (n k : nat) : list (list Z) :=
  replicate n (replicate k 0%Z).

(** [A[i, j] = v] *)
Definition matrix_set (A : list (list Z)) (i j : nat) (v : Z)
    : result (list (list Z)) :=
  row ← getitem A i;
  _ ← getitem row j;
  Ok (<[i := <[j := v]> row]> A).

(** Lines 267-270: the loop over [enumerate(node.classes)], from position
    [new_index] on. *)
Fixpoint fill_weights (original_classes : list string) (new_index : nat)
    (names : list string) (A : list (list Z)) : result (list (list Z)) :=
  match names with
  | [] => Ok A
  | cls :: rest =>
      if negb (contains ","%char cls) && truthy cls then
        old_index ← list_index original_classes (Some cls);
        A' ← matrix_set A new_index old_index 1%Z;
        fill_weights original_classes (S new_index) rest A'
      else fill_weights original_classes (S new_index) rest A
  end.

(** [_get_node_weights(node)]: a matrix of [node.num_classes] rows and
    [len(self.dataset.classes)] columns. *)
Definition _get_node_weights {Sample} (self : t Sample) (node : Node.t)
    : result (list (list Z)) :=
  let n := Node.num_classes node in
  let k := length (Dataset.classes (dataset self)) in
  fill_weights (Node.original_classes node) 0 (Node.classes node) (zeros n k).

(** [np.concatenate(ms, axis=0)] of matrices with the same number of
    columns; it refuses an empty list. *)
Definition concatenate (ms : list (list (list Z))) : result (list (list Z)) :=
  match ms with
  | [] => Err ValueError
  | _ :: _ => Ok (concat ms)
  end.

(** [M.T] of a matrix with [k] columns: row [j] of the result is column [j]
    of [M]. *)
Definition transpose (k : nat) (M : list (list Z)) : list (list Z) :=
  (λ j, (λ row : list Z, default 0%Z (row !! j)) <$> M) <$> seq 0 k.

(** [get_weights()] *)
Definition get_weights {Sample} (self : t Sample) : result (list (list Z)) :=
  weights ← comprehension (_get_node_weights self) (nodes self);
  stacked ← concatenate weights;
  Ok (transpose (length (Dataset.classes (dataset self))) stacked).

(** [get_input_dim()] *)
Definition get_input_dim {Sample} (self : t Sample) : nat :=
  Node.dim (nodes self).

(** [__getitem__(i)] *)
Definition getitem {Sample} (self : t Sample) (i : nat) : result (list Z * nat) :=
  '(_, old_label) ← Dataset.getitem (dataset self) i;
  samples ← comprehension (λ node, get_sample node old_label) (nodes self);
  Ok (concat samples, old_label).

(** [__len__()] *)
Definition len {Sample} (self : t Sample) : nat := Dataset.len (dataset self).

End PathSanityDataset.

(** ** Name resolution inside the module *)

Module Globals.

(** What a name bound at module level holds, as far as an index expression
    can use it: a list of sample indices, or an object of another kind (a
    module, a class, a function, a constant), which is not followed further. *)
Inductive pyobj : Type :=
| PyIndexList (l : list nat)
| PyObject.

(** The names bound at module level of nmn_datasets.py: the imports (lines
    1-13), [__all__] and [names] (line 16) and the classes. *)
Definition module_names : list string :=
  [ "datasets"; "ET"; "get_leaves"; "remove"; "torch"; "np"; "Dataset";
    "defaultdict"; "DEFAULT_CIFAR10_TREE"; "DEFAULT_CIFAR10_WNIDS";
    "DEFAULT_CIFAR100_TREE"; "DEFAULT_CIFAR100_WNIDS";
    "DEFAULT_TINYIMAGENET200_TREE"; "DEFAULT_TINYIMAGENET200_WNIDS";
    "custom_datasets"; "__all__"; "names"; "Node"; "NodeDataset";
    "CIFAR10Node"; "CIFAR100Node"; "JointNodesDataset"; "CIFAR10JointNodes";
    "CIFAR100JointNodes"; "TinyImagenet200JointNodes"; "PathSanityDataset";
    "CIFAR10PathSanity"; "CIFAR100PathSanity"; "TinyImagenet200PathSanity";
    "IncludeLabelsDataset"; "IncludeClassesDataset"; "CIFAR10IncludeLabels";
    "CIFAR100IncludeLabels"; "TinyImagenet200IncludeLabels";
    "ExcludeLabelsDataset"; "CIFAR10ExcludeLabels"; "CIFAR100ExcludeLabels";
    "TinyImagenet200ExcludeLabels" ].

Definition module_globals : gmap string pyobj :=
  list_to_map ((λ name, (name, PyObject)) <$> module_names).

End Globals.

(** ** class IncludeLabelsDataset *)

Module IncludeLabelsDataset.

(** [include_labels] is only tested for emptiness and membership: whatever
    container the caller passes, it is modelled by the set of its items. *)
Record t (Sample : Type) : Type := mk {
  dataset : Dataset.t Sample;
  include_labels : gset nat;
  num_samples : Z;
  new_to_old : list nat
}.
Global Arguments mk {Sample} _ _ _ _.
Global Arguments dataset {Sample} _.
Global Arguments include_labels {Sample} _.
Global Arguments num_samples {Sample} _.
Global Arguments new_to_old {Sample} _.

(** Lines 361-363: the loop over [enumerate(self.dataset)], from position
    [old] on. *)
Fixpoint scan {Sample} (include_labels0 : gset nat) (old : nat)
    (items : list (Sample * nat)) (new_to_old0 : list nat) : list nat :=
  match items with
  | [] => new_to_old0
  | (_, label) :: rest =>
      if bool_decide (label ∈ include_labels0)
      then scan include_labels0 (S old) rest (new_to_old0 ++ [old])
      else scan include_labels0 (S old) rest new_to_old0
  end.

(** [build_index_mapping()] *)
Definition build_index_mapping {Sample} (ds : Dataset.t Sample)
    (include_labels0 : gset nat) (num_samples0 : Z) : list nat :=
  let new_to_old0 := scan include_labels0 0 (Dataset.items ds) [] in
  if bool_decide (num_samples0 ≠ 0%Z) then slice_to new_to_old0 num_samples0
  else new_to_old0.

(** [IncludeLabelsDataset.__init__(dataset, include_labels, num_samples)] *)
Definition init {Sample} (ds : Dataset.t Sample) (include_labels0 : gset nat)
    (num_samples0 : Z) : result (t Sample) :=
  _ ← assert (bool_decide (include_labels0 ≠ ∅))
             "No labels are included in `include_labels`";
  Ok {| dataset := ds; include_labels := include_labels0;
        num_samples := num_samples0;
        new_to_old := build_index_mapping ds include_labels0 num_samples0 |}.

(** [__getitem__(new_)], lines 368-370, under the global names [globals]. The
    body reads the bare name [new_to_old]: the method has no local of that
    name and the attribute [self.new_to_old] is not consulted, so the name is
    looked up among the globals. *)
Definition getitem_in {Sample} (globals : gmap string Globals.pyobj)
    (self : t Sample) (new_ : Z) : result (Sample * nat) :=
  match globals !! "new_to_old" with
  | None => Err (NameError "new_to_old")
  | Some (Globals.PyIndexList l) =>
      old ← getitem_int l new_;
      Dataset.getitem (dataset self) old
  | Some Globals.PyObject => Err TypeError
  end.

(** [__getitem__(new_)] as the module runs it. *)
Definition getitem {Sample} (self : t Sample) (new_ : Z) : result (Sample * nat) :=
  getitem_in Globals.module_globals self new_.

(** [__len__()] *)
Definition len {Sample} (self : t Sample) : nat := length (new_to_old self).

End IncludeLabelsDataset.

(** ** class ExcludeLabelsDataset *)

Module ExcludeLabelsDataset.

(** [ExcludeLabelsDataset.__init__(dataset, exclude_labels, num_samples)]:
    the object is an [IncludeLabelsDataset]. *)
Definition init {Sample} (ds : Dataset.t Sample) (exclude_labels : gset nat)
    (num_samples0 : Z) : result (IncludeLabelsDataset.t Sample) :=
  let k := length (Dataset.classes ds) in
  let include_labels0 : gset nat := list_to_set (seq 0 k) ∖ exclude_labels in
  IncludeLabelsDataset.init ds include_labels0 num_samples0.

End ExcludeLabelsDataset.

(** ** class IncludeClassesDataset *)

Module IncludeClassesDataset.

(** [IncludeClassesDataset.__init__(dataset, include_classes, num_samples)]:
    the names are resolved by [dataset.classes.index], in order, and the list
    of the indices found is the [include_labels] of an
    [IncludeLabelsDataset]. The view only tests this list for emptiness
    (line 347) and for membership (line 361), so it is kept as the set of its
    members. *)
Definition init {Sample} (ds : Dataset.t Sample) (include_classes : list string)
    (num_samples0 : Z) : result (IncludeLabelsDataset.t Sample) :=
  include_labels0 ←
    comprehension (λ cls, list_index (Dataset.classes ds) (Some cls))
                  include_classes;
  IncludeLabelsDataset.init ds (list_to_set include_labels0) num_samples0.

End IncludeClassesDataset.

(** ** class NodeDataset *)

Module NodeDataset.

Record t (Sample : Type) : Type := mk {
  dataset : Dataset.t Sample;
  node : Node.t;
  original_classes : list string;
  classes : list string
}.
Global Arguments mk {Sample} _ _ _ _.
Global Arguments dataset {Sample} _.
Global Arguments node {Sample} _.
Global Arguments original_classes {Sample} _.
Global Arguments classes {Sample} _.

(** [NodeDataset.__init__(wnid, path_tree, path_wnids, dataset)] *)
Definition init {Sample} (get_leaves : Element → list Element) (wnid0 : string)
    (tree : Element) (wnids : list string) (ds : Dataset.t Sample)
    : result (t Sample) :=
  node0 ← Node.init get_leaves wnid0 tree wnids (Dataset.classes ds);
  Ok {| dataset := ds; node := node0;
        original_classes := Dataset.classes ds;
        classes := Node.classes node0 |}.

(** [__getitem__(i)] *)
Definition getitem {Sample} (self : t Sample) (i : nat) : result (Sample * nat) :=
  '(sample, old_label) ← Dataset.getitem (dataset self) i;
  new_label ← from_option Ok (Err KeyError) (Node.mapping (node self) !! old_label);
  Ok (sample, new_label).

(** [__len__()] *)
Definition len {Sample} (self : t Sample) : nat := Dataset.len (dataset self).

End NodeDataset.

(** ** class JointNodesDataset *)

Module JointNodesDataset.

Record t (Sample : Type) : Type := mk {
  nodes : list Node.t;
  dataset : Dataset.t Sample;
  original_classes : list string;
  classes : list string
}.
Global Arguments mk {Sample} _ _ _ _.
Global Arguments nodes {Sample} _.
Global Arguments dataset {Sample} _.
Global Arguments original_classes {Sample} _.
Global Arguments classes {Sample} _.

(** [JointNodesDataset.__init__(path_tree, path_wnids, dataset)]; line 195
    reads [self.nodes[0]]. *)
Definition init {Sample} (get_leaves : Element → list Element)
    (tree : Element) (wnids : list string) (ds : Dataset.t Sample)
    : result (t Sample) :=
  nodes0 ← Node.get_nodes get_leaves tree wnids (Dataset.classes ds);
  first ← Py.getitem nodes0 0;
  Ok {| nodes := nodes0; dataset := ds;
        original_classes := Dataset.classes ds;
        classes := Node.classes first |}.

(** [__getitem__(i)]: the new labels are small ints, which the tensor and its
    conversion to [long] keep as they are. *)
Definition getitem {Sample} (self : t Sample) (i : nat)
    : result (Sample * list nat) :=
  '(sample, old_label) ← Dataset.getitem (dataset self) i;
  new_label ←
    comprehension
      (λ node, from_option Ok (Err KeyError) (Node.mapping node !! old_label))
      (nodes self);
  Ok (sample, new_label).

(** [__len__()] *)
Definition len {Sample} (self : t Sample) : nat := Dataset.len (dataset self).

End JointNodesDataset.

(** ** Sample inputs *)

Module Examples.

Definition leaf (w : string) : Element := Elem "synset" (Some w) [].

(** A hierarchy over three flat classes: the root vertex has the leaf [a] and
    the inner vertex [b], which has the leaves [b1] and [b2]. *)
Definition tree : Element :=
  Elem "tree" None
    [ Elem "synset" (Some "root")
        [ leaf "a"; Elem "synset" (Some "b") [ leaf "b1"; leaf "b2" ] ] ].

Definition wnids : list string := [ "a"; "b1"; "b2" ].

Definition classes : list string := [ "cat"; "dog"; "bird" ].

(** A hierarchy in which the leaf [a] occurs under both children of the
    root. *)
Definition shared_tree : Element :=
  Elem "tree" None
    [ Elem "synset" (Some "root")
        [ leaf "a"; Elem "synset" (Some "b") [ leaf "a"; leaf "b2" ] ] ].

Definition shared_wnids : list string := [ "a"; "b2" ].

(** Class names of which one holds a comma. *)
Definition comma_classes : list string := [ "cat, wild"; "dog"; "bird" ].

(** A source of four samples with the labels 0, 1, 0, 2. *)
Definition source : Dataset.t unit :=
  Dataset.mk classes [ (tt, 0); (tt, 1); (tt, 0); (tt, 2) ].

Definition comma_source : Dataset.t unit :=
  Dataset.mk comma_classes [ (tt, 0); (tt, 1); (tt, 0); (tt, 2) ].

(** The node of the vertex [b]: its children own [dog] and [bird], and [cat]
    falls in the catch-all class 2. *)
Definition node_b : Node.t :=
  Node.mk "b" classes 3 (list_to_map [ (0, 2); (1, 0); (2, 1) ]) 2 3
    [ [1]; [2]; [0] ] [ "dog"; "bird"; "cat" ] None None
    [ Some "b1"; Some "b2" ].

(** The node of the vertex [root]: [cat] under the first child, [dog] and
    [bird] merged under the second. *)
Definition node_root : Node.t :=
  Node.mk "root" classes 3 (list_to_map [ (0, 0); (1, 1); (2, 1) ]) 2 2
    [ [0]; [1; 2] ] [ "cat"; "dog,bird" ] None None
    [ Some "a"; Some "b" ].

(** The path-sanity view of [source]: its nodes by increasing identifier. *)
Definition view : PathSanityDataset.t unit :=
  PathSanityDataset.mk tree wnids [ node_b; node_root ] source classes.

(** A hierarchy over four flat classes: the root vertex has the leaf [a] and
    the inner vertex [b], which has three leaves. *)
Definition wide_tree : Element :=
  Elem "tree" None
    [ Elem "synset" (Some "root")
        [ leaf "a";
          Elem "synset" (Some "b") [ leaf "b1"; leaf "b2"; leaf "b3" ] ] ].

Definition wide_wnids : list string := [ "a"; "b1"; "b2"; "b3" ].

(** The node of the vertex [root] of [wide_tree], built without class names:
    one flat class under the first child, three under the second. *)
Definition wide_node : Node.t :=
  Node.mk "root" [] 4 (list_to_map [ (0, 0); (1, 1); (2, 1); (3, 1) ]) 2 2
    [ [0]; [1; 2; 3] ] [] None None
    [ Some "a"; Some "b" ].

(** What [get_weights] returns on [view]: three rows of five entries. *)
Definition weights : list (list Z) :=
  [ [ 0; 0; 1; 1; 0 ];
    [ 1; 0; 0; 0; 0 ];
    [ 0; 1; 0; 0; 0 ] ]%Z.

(** The node of [b] when the class names are [comma_classes]. *)
Definition comma_node_b : Node.t :=
  Node.mk "b" comma_classes 3 (list_to_map [ (0, 2); (1, 0); (2, 1) ]) 2 3
    [ [1]; [2]; [0] ] [ "dog"; "bird"; "cat, wild" ] None None
    [ Some "b1"; Some "b2" ].

Definition comma_node_root : Node.t :=
  Node.mk "root" comma_classes 3 (list_to_map [ (0, 0); (1, 1); (2, 1) ]) 2 2
    [ [0]; [1; 2] ] [ "cat, wild"; "dog,bird" ] None None
    [ Some "a"; Some "b" ].

Definition comma_view : PathSanityDataset.t unit :=
  PathSanityDataset.mk tree wnids [ comma_node_b; comma_node_root ]
    comma_source comma_classes.

(** The node of the root of [shared_tree], built without class names: the
    second child takes the shared leaf, the bucket of the first is empty. *)
Definition shared_node : Node.t :=
  Node.mk "root" [] 2 (list_to_map [ (0, 1); (1, 1) ]) 2 2
    [ []; [0; 1] ] [] None None [ Some "a"; Some "b" ].

End Examples.

(** ** The vocabulary of the properties *)

Global Instance PyError_eq_dec : EqDecision PyError.
Proof. solve_decision. Defined.

Global Instance result_eq_dec {A} `{EqDecision A} : EqDecision (result A).
Proof. solve_decision. Defined.

Section Coverage.

Variable get_leaves : Element → list Element.
Variable wnids : list string.

(** The flat label of a leaf: the position of its identifier in [wnids]. *)
Definition resolves (leaf : Element) (old_index : nat) : Prop :=
  list_index wnids (get_wnid leaf) = Ok old_index.

(** [old_index] is the flat label of one of [leaves]. *)
Definition among (leaves : list Element) (old_index : nat) : Prop :=
  Exists (λ leaf, resolves leaf old_index) leaves.

(** [old_index] belongs to the leaf set of [child]. *)
Definition covers (child : Element) (old_index : nat) : Prop :=
  among (get_leaves child) old_index.

(** [old_index] belongs to the leaf set of one of [children]. *)
Definition covered (children : list Element) (old_index : nat) : Prop :=
  Exists (λ child, covers child old_index) children.

(** Every leaf under [children] has its identifier in [wnids]. *)
Definition leaves_known (children : list Element) : Prop :=
  Forall (λ child,
            Forall (λ leaf, ∃ w, get_wnid leaf = Some w ∧ w ∈ wnids)
                   (get_leaves child)) children.

(** Child number [j] is the last of [children] whose leaf set holds
    [old_index]. *)
Definition last_owner (children : list Element) (old_index j : nat) : Prop :=
  ∃ child, children !! j = Some child ∧ covers child old_index ∧
           ∀ j' child', j < j' → children !! j' = Some child' →
                        ¬ covers child' old_index.

Global Instance resolves_dec leaf o : Decision (resolves leaf o).
Proof. unfold resolves. apply _. Defined.
Global Instance among_dec leaves o : Decision (among leaves o).
Proof. unfold among. apply _. Defined.
Global Instance covers_dec child o : Decision (covers child o).
Proof. unfold covers. apply _. Defined.
Global Instance covered_dec children o : Decision (covered children o).
Proof. unfold covered. apply _. Defined.

End Coverage.

(** The bucket of [new_index] once the flat labels [old_indices] have been
    distributed: those that [mapping] sends to [new_index], in order. *)
Definition bucket_of (mapping : gmap nat nat) (old_indices : list nat)
    (new_index : nat) : list nat :=
  filter (λ old_index, mapping !! old_index = Some new_index) old_indices.

(** [mapping] sends [old_index] to a new class below [bound]. *)
Definition below (mapping : gmap nat nat) (bound old_index : nat) : Prop :=
  match mapping !! old_index with
  | Some j => j < bound
  | None => False
  end.

Global Instance below_dec mapping bound o : Decision (below mapping bound o).
Proof. unfold below. destruct (mapping !! o); apply _. Defined.

(** What the constructor establishes: [mapping] is defined exactly on the flat
    labels, its values are new classes, the buckets are its fibres, and the
    class names are the joined names of the members. *)
Record well_formed (node : Node.t) : Prop := {
  wf_total : ∀ o, o < Node.num_original_classes node →
                  is_Some (Node.mapping node !! o);
  wf_range : ∀ o j, Node.mapping node !! o = Some j →
                    o < Node.num_original_classes node ∧ j < Node.num_classes node;
  wf_buckets : Node.new_to_old node =
               bucket_of (Node.mapping node) (seq 0 (Node.num_original_classes node))
                 <$> seq 0 (Node.num_classes node);
  wf_children : 0 < Node.num_children node;
  wf_num_classes : Node.num_children node ≤ Node.num_classes node ≤
                   Node.num_children node + 1;
  wf_names : match Node.original_classes node with
             | [] => Node.classes node = []
             | _ :: _ => comprehension (Node.class_name (Node.original_classes node))
                           (Node.new_to_old node) = Ok (Node.classes node)
             end
}.

(** The test of line 268: the class name is non-empty and holds no comma. *)
Definition single_name (cls : string) : bool :=
  negb (contains ","%char cls) && truthy cls.

(** The row that the loop of [_get_node_weights] leaves for a new class named
    [cls]: zeros, with a 1 in the column of the first original class of that
    name when the name passes the test. *)
Definition weight_row (original_classes : list string) (k : nat) (cls : string)
    : list Z :=
  if single_name cls then
    match list_index original_classes (Some cls) with
    | Ok old_index => <[old_index := 1%Z]> (replicate k 0%Z)
    | Err _ => replicate k 0%Z
    end
  else replicate k 0%Z.

(** The entry of a matrix at row [r] and column [c] (0 outside the matrix). *)
Definition entry (M : list (list Z)) (r c : nat) : Z :=
  default 0%Z (M !! r ≫= (.!! c)).

(** The position, in the concatenated label vector, at which the segment of
    node number [i] starts. *)
Definition offset (nodes : list Node.t) (i : nat) : nat :=
  Node.dim (take i nodes).

(** [a < b] on strings. *)
Definition str_lt (a b : string) : Prop := str_le a b ∧ a ≠ b.

(** The inner product of two vectors, and the product of a matrix, given by
    its rows, with a vector: what a linear layer with these weights
    computes. *)
Definition dot (u v : list Z) : Z := foldr Z.add 0%Z (zip_with Z.mul u v).

Definition matvec (W : list (list Z)) (x : list Z) : list Z :=
  (λ row, dot row x) <$> W.

(** The vote of a node for the flat class [r] on a sample of the flat class
    [old_label]: 1 when [r] is the only member of the new class to which the
    node sends [old_label], and 0 otherwise. *)
Definition vote (node : Node.t) (old_label r : nat) : Z :=
  match Node.mapping node !! old_label with
  | Some j => if decide (Node.new_to_old node !! j = Some [r]) then 1%Z else 0%Z
  | None => 0%Z
  end.

(** * Properties *)

(** ** The exception monad *)

Lemma bind_Ok {A B} (f : A → result B) (r : result A) (b : B) :
  r ≫= f = Ok b ↔ ∃ a, r = Ok a ∧ f a = Ok b.
Proof.
  destruct r as [a|e]; simpl; split.
  - eauto.
  - by intros (a' & [= <-] & ?).
  - done.
  - by intros (a' & ? & ?).
Qed.

Lemma assert_Ok (cond : bool) (msg : string) (u : unit) :
  assert cond msg = Ok u ↔ cond = true.
Proof. destruct cond, u; simpl; split; congruence. Qed.

(** Splits a hypothesis [x ← r; k = Ok b] into [r = Ok a] and [k a = Ok b]. *)
Ltac inv_bind H :=
  let a := fresh "a" in
  let Ha := fresh "H" a in
  apply bind_Ok in H as (a & Ha & H).

Lemma getitem_Ok {A} (xs : list A) (i : nat) (x : A) :
  getitem xs i = Ok x ↔ xs !! i = Some x.
Proof. unfold getitem. destruct (xs !! i); split; congruence. Qed.

Lemma getitem_is_Ok {A} (xs : list A) (i : nat) :
  i < length xs → is_Ok (getitem xs i).
Proof.
  intros Hi. destruct (lookup_lt_is_Some_2 xs i Hi) as [x Hx].
  exists x. by apply getitem_Ok.
Qed.

Lemma comprehension_Ok {A B} (f : A → result B) (xs : list A) (ys : list B) :
  comprehension f xs = Ok ys ↔ Forall2 (λ x y, f x = Ok y) xs ys.
Proof.
  revert ys. induction xs as [|x xs IH]; intros ys; simpl.
  - split.
    + intros [= <-]. constructor.
    + intros Hys. by inversion Hys.
  - rewrite bind_Ok. split.
    + intros (y & Hy & Hrest). apply bind_Ok in Hrest as (ys' & Hys' & [= <-]).
      constructor; [done|]. by apply IH.
    + intros Hall. inversion Hall as [|? y ? ys' Hy Hys']; subst.
      exists y. split; [done|]. apply bind_Ok. exists ys'. split; [|done].
      by apply IH.
Qed.

Lemma comprehension_length {A B} (f : A → result B) (xs : list A) (ys : list B) :
  comprehension f xs = Ok ys → length ys = length xs.
Proof. rewrite comprehension_Ok. intros H. symmetry. by eapply Forall2_length. Qed.

Lemma comprehension_lookup {A B} (f : A → result B) (xs : list A) (ys : list B)
    (i : nat) (x : A) :
  comprehension f xs = Ok ys → xs !! i = Some x → ∃ y, ys !! i = Some y ∧ f x = Ok y.
Proof.
  rewrite comprehension_Ok. intros Hall Hx.
  destruct (Forall2_lookup_l _ _ _ _ _ Hall Hx) as (y & Hy & Hf). eauto.
Qed.

Lemma comprehension_is_Ok {A B} (f : A → result B) (xs : list A) :
  Forall (λ x, is_Ok (f x)) xs → is_Ok (comprehension f xs).
Proof.
  induction 1 as [|x xs [y Hy] _ [ys Hys]]; simpl.
  - by eexists.
  - exists (y :: ys). by rewrite Hy, Hys.
Qed.

Lemma comprehension_Err {A B} (f : A → result B) (xs : list A) (e : PyError) :
  Forall (λ x, is_Ok (f x) ∨ f x = Err e) xs →
  Exists (λ x, f x = Err e) xs →
  comprehension f xs = Err e.
Proof.
  induction 1 as [|x xs Hx Hxs IH]; intros Hex.
  - by inversion Hex.
  - simpl. destruct Hx as [[y Hy]|Hx].
    + rewrite Hy. simpl. inversion Hex as [? ? Hbad|? ? Hlater]; subst.
      * congruence.
      * by rewrite (IH Hlater).
    + by rewrite Hx.
Qed.

(** ** [list.index] *)

Lemma index_from_Ok (x : string) (xs : list string) (i j : nat) :
  index_from x xs i = Ok j →
  i ≤ j ∧ xs !! (j - i) = Some x ∧ ∀ k, k < j - i → xs !! k ≠ Some x.
Proof.
  revert i. induction xs as [|y ys IH]; intros i; simpl; [done|].
  case_bool_decide as Hy.
  - intros [= <-]. subst y. rewrite Nat.sub_diag. split; [lia|]. split; [done|].
    intros k Hk. lia.
  - intros Hj. destruct (IH _ Hj) as (Hle & Hlook & Hfirst).
    split; [lia|]. replace (j - i) with (S (j - S i)) by lia. split; [done|].
    intros [|k] Hk; simpl; [congruence|]. apply Hfirst. lia.
Qed.

Lemma index_from_is_Ok (x : string) (xs : list string) (i : nat) :
  x ∈ xs → is_Ok (index_from x xs i).
Proof.
  revert i. induction xs as [|y ys IH]; intros i Hin; simpl.
  - by apply elem_of_nil in Hin.
  - case_bool_decide as Hy; [by eexists|].
    apply elem_of_cons in Hin as [->|Hin]; [done|]. by apply IH.
Qed.

Lemma list_index_lt (xs : list string) (x : option string) (j : nat) :
  list_index xs x = Ok j → j < length xs.
Proof.
  destruct x as [s|]; simpl; [|done]. intros Hj.
  destruct (index_from_Ok _ _ _ _ Hj) as (_ & Hlook & _).
  apply lookup_lt_Some in Hlook. lia.
Qed.

Lemma list_index_lookup (xs : list string) (s : string) (j : nat) :
  list_index xs (Some s) = Ok j → xs !! j = Some s.
Proof.
  simpl. intros Hj. destruct (index_from_Ok _ _ _ _ Hj) as (_ & Hlook & _).
  by rewrite Nat.sub_0_r in Hlook.
Qed.

Lemma list_index_NoDup (xs : list string) (s : string) (j : nat) :
  NoDup xs → xs !! j = Some s → list_index xs (Some s) = Ok j.
Proof.
  intros Hnd Hj. destruct (index_from_is_Ok s xs 0) as [k Hk].
  { by eapply list_elem_of_lookup_2. }
  simpl. rewrite Hk. f_equal.
  apply list_index_lookup in Hk.
  by eapply NoDup_lookup.
Qed.

(** ** Construction of a node: the mapping *)

Section NodeMapping.

Variable get_leaves : Element → list Element.
Variable wnids : list string.

Lemma resolves_lt leaf o : resolves wnids leaf o → o < length wnids.
Proof. apply list_index_lt. Qed.

Lemma covered_lt children o : covered get_leaves wnids children o → o < length wnids.
Proof.
  unfold covered, covers, among. rewrite Exists_exists.
  intros (child & _ & Hc). apply Exists_exists in Hc as (leaf & _ & Hr).
  by eapply resolves_lt.
Qed.

Lemma assign_leaves_lookup new_index leaves m m' o :
  Node.assign_leaves wnids new_index leaves m = Ok m' →
  m' !! o = if decide (among wnids leaves o) then Some new_index else m !! o.
Proof.
  revert m. induction leaves as [|leaf rest IH]; intros m;
    cbn [Node.assign_leaves].
  - intros [= <-]. case_decide as Hc; [|done]. by inversion Hc.
  - intros H. inv_bind H. rewrite (IH _ H).
    unfold among in *.
    destruct (decide (Exists _ rest)) as [Hrest|Hrest].
    + rewrite decide_True; [done|]. by right.
    + destruct (decide (a = o)) as [->|Hne].
      * rewrite lookup_insert_eq. rewrite decide_True; [done|]. by left.
      * rewrite lookup_insert_ne by done.
        rewrite decide_False; [done|].
        intros Hex. inversion Hex as [? ? Hhere|? ? Hlater]; subst.
        -- unfold resolves in Hhere. congruence.
        -- done.
Qed.

Lemma assign_leaves_is_Ok new_index leaves m :
  Forall (λ leaf, ∃ w, get_wnid leaf = Some w ∧ w ∈ wnids) leaves →
  is_Ok (Node.assign_leaves wnids new_index leaves m).
Proof.
  intros Hall. revert m. induction Hall as [|leaf rest (w & Hw & Hin) _ IH];
    intros m; simpl.
  - by eexists.
  - rewrite Hw. simpl. destruct (index_from_is_Ok w wnids 0 Hin) as [o Ho].
    rewrite Ho. simpl. apply IH.
Qed.

(** After the loop over the children, a flat label is a key exactly when some
    child covers get_leaves wnids it, and its value is the position of the last child that
    does. *)
Lemma assign_children_lookup new_index children m m' o j :
  Node.assign_children get_leaves wnids new_index children m = Ok m' →
  m' !! o = Some j ↔
    (∃ k child, j = new_index + k ∧ children !! k = Some child ∧
                covers get_leaves wnids child o ∧
                ∀ k' child', k < k' → children !! k' = Some child' →
                             ¬ covers get_leaves wnids child' o)
    ∨ (m !! o = Some j ∧ ¬ covered get_leaves wnids children o).
Proof.
  revert new_index m. induction children as [|child rest IH];
    intros new_index m; simpl.
  - intros [= <-]. split.
    + intros Hj. right. split; [done|]. intros Hc. by inversion Hc.
    + intros [(k & c & _ & Hk & _)|[Hj _]]; [done..].
  - intros H. inv_bind H. rewrite (IH _ _ H).
    pose proof (assign_leaves_lookup _ _ _ _ o Ha) as Hleaf.
    fold (covers get_leaves wnids child o) in Hleaf.
    split.
    + intros [(k & c & -> & Hk & Hc & Hlast)|[Hj Hnone]].
      * left. exists (S k), c. split; [lia|]. split; [done|]. split; [done|].
        intros [|k'] c' Hlt Hk'; [lia|]. simpl in Hk'.
        apply (Hlast k'); [lia|done].
      * rewrite Hleaf in Hj. case_decide as Hc.
        -- left. exists 0, child. injection Hj as <-.
           split; [lia|]. split; [done|]. split; [done|].
           intros [|k'] c' Hlt Hk'; [lia|]. simpl in Hk'.
           intros Hc'. apply Hnone. unfold covered. apply Exists_exists.
           exists c'. split; [|done]. by eapply list_elem_of_lookup_2.
        -- right. split; [done|]. intros Hex.
           inversion Hex as [? ? Hhere|? ? Hlater]; subst; done.
    + intros [(k & c & -> & Hk & Hc & Hlast)|[Hj Hnone]].
      * destruct k as [|k]; simpl in Hk.
        -- injection Hk as <-. right. split.
           ++ rewrite Hleaf, decide_True by done. f_equal. lia.
           ++ unfold covered. rewrite Exists_exists.
              intros (c' & Hin & Hc'). apply list_elem_of_lookup_1 in Hin as [k' Hk'].
              by apply (Hlast (S k') c'); [lia|..].
        -- left. exists k, c. split; [lia|]. split; [done|]. split; [done|].
           intros k' c' Hlt Hk'. apply (Hlast (S k') c'); [lia|done].
      * right. split.
        -- rewrite Hleaf, decide_False; [done|].
           intros Hc. apply Hnone. by left.
        -- intros Hc. apply Hnone. by right.
Qed.

Lemma assign_children_is_Ok new_index children m :
  leaves_known get_leaves wnids children →
  is_Ok (Node.assign_children get_leaves wnids new_index children m).
Proof.
  intros Hall. revert new_index m.
  induction Hall as [|child rest Hchild _ IH]; intros new_index m; simpl.
  - by eexists.
  - destruct (assign_leaves_is_Ok new_index _ m Hchild) as [m1 Hm1].
    rewrite Hm1. simpl. apply IH.
Qed.

Lemma assign_leaves_known new_index leaves m m' :
  Node.assign_leaves wnids new_index leaves m = Ok m' →
  Forall (λ leaf, ∃ w, get_wnid leaf = Some w ∧ w ∈ wnids) leaves.
Proof.
  revert m. induction leaves as [|leaf rest IH]; intros m; simpl; [done|].
  intros H. inv_bind H. constructor; [|by eapply IH].
  destruct (get_wnid leaf) as [w|]; [|done]. exists w. split; [done|].
  apply list_index_lookup in Ha. by eapply list_elem_of_lookup_2.
Qed.

Lemma assign_children_known new_index children m m' :
  Node.assign_children get_leaves wnids new_index children m = Ok m' →
  leaves_known get_leaves wnids children.
Proof.
  revert new_index m. induction children as [|child rest IH];
    intros new_index m; simpl; [by constructor|].
  intros H. inv_bind H. constructor; [|by eapply IH].
  by eapply assign_leaves_known.
Qed.

(** Lines 58-60. *)
Lemma assign_other_lookup n old_indices m o :
  Node.assign_other n old_indices m !! o =
    match m !! o with
    | Some j => Some j
    | None => if decide (o ∈ old_indices) then Some n else None
    end.
Proof.
  unfold Node.assign_other. revert m.
  induction old_indices as [|x xs IH]; intros m; cbn [foldl].
  - destruct (m !! o); [done|]. rewrite decide_False; [done|]. apply not_elem_of_nil.
  - rewrite IH. destruct (m !! x) as [jx|] eqn:Hx.
    + destruct (m !! o) as [jo|] eqn:Ho; [done|].
      assert (x ≠ o) by congruence.
      destruct (decide (o ∈ xs)).
      * rewrite decide_True; [done|]. by right.
      * rewrite decide_False; [done|]. rewrite elem_of_cons. intros [?|?]; [congruence|done].
    + destruct (decide (x = o)) as [->|Hne].
      * rewrite lookup_insert_eq, Hx. rewrite decide_True; [done|]. by left.
      * rewrite lookup_insert_ne by done. destruct (m !! o); [done|].
        destruct (decide (o ∈ xs)).
        -- rewrite decide_True; [done|]. by right.
        -- rewrite decide_False; [done|]. rewrite elem_of_cons. intros [?|?]; [congruence|done].
Qed.

End NodeMapping.

(** ** Construction of a node: the size test and the buckets *)

Lemma size_lt_missing (m : gmap nat nat) (K : nat) :
  (∀ o, is_Some (m !! o) → o < K) →
  size m < K → ∃ o, o < K ∧ m !! o = None.
Proof.
  intros Hdom Hsize.
  assert (dom m ⊆ (set_seq 0 K : gset nat)) as Hsub.
  { intros o Ho. apply elem_of_set_seq. split; [lia|].
    apply Hdom. by apply elem_of_dom. }
  destruct (size_pos_elem_of ((set_seq 0 K : gset nat) ∖ dom m)) as [o Ho].
  { rewrite size_difference by done. rewrite size_set_seq, size_dom. lia. }
  apply elem_of_difference in Ho as [Hin Hout].
  exists o. split.
  - apply elem_of_set_seq in Hin. lia.
  - by apply not_elem_of_dom.
Qed.

Lemma size_ge_total (m : gmap nat nat) (K : nat) :
  (∀ o, is_Some (m !! o) → o < K) →
  ¬ size m < K → ∀ o, o < K → is_Some (m !! o).
Proof.
  intros Hdom Hsize o Ho.
  assert (dom m ⊆ (set_seq 0 K : gset nat)) as Hsub.
  { intros o' Ho'. apply elem_of_set_seq. split; [lia|].
    apply Hdom. by apply elem_of_dom. }
  assert (dom m = set_seq 0 K) as Heq.
  { apply set_subseteq_size_eq; [done|]. rewrite size_set_seq, size_dom. lia. }
  apply elem_of_dom. rewrite Heq. apply elem_of_set_seq. lia.
Qed.

Lemma size_lt_iff_missing (m : gmap nat nat) (K : nat) :
  (∀ o, is_Some (m !! o) → o < K) →
  size m < K ↔ ∃ o, o < K ∧ m !! o = None.
Proof.
  intros Hdom. split; [by apply size_lt_missing|].
  intros (o & Ho & Hnone). destruct (decide (size m < K)) as [|Hge]; [done|].
  destruct (size_ge_total m K Hdom Hge o Ho) as [j Hj]. congruence.
Qed.

Lemma group_by_new_lookup mapping old_indices new_to_old new_to_old' :
  Node.group_by_new mapping old_indices new_to_old = Ok new_to_old' →
  length new_to_old' = length new_to_old ∧
  ∀ j b, new_to_old !! j = Some b →
         new_to_old' !! j = Some (b ++ bucket_of mapping old_indices j).
Proof.
  revert new_to_old. induction old_indices as [|o rest IH]; intros nto; simpl.
  - intros [= <-]. split; [done|]. intros j b Hb.
    unfold bucket_of. by rewrite filter_nil, app_nil_r.
  - intros H. inv_bind H. rename a into ni.
    destruct (mapping !! o) as [ni'|] eqn:Ho; simpl in Ha; [|done].
    injection Ha as ->.
    unfold Node.bucket_append in H. inv_bind H. inv_bind Ha.
    injection Ha as <-. apply getitem_Ok in Ha0.
    destruct (IH _ H) as [Hlen Hlook]. split.
    { by rewrite Hlen, length_insert. }
    intros j b Hb. unfold bucket_of.
    destruct (decide (j = ni)) as [->|Hne].
    + rewrite (Hlook ni (a0 ++ [o])).
      * rewrite filter_cons_True by done. rewrite <- app_assoc. simpl.
        by replace b with a0 by congruence.
      * apply list_lookup_insert_eq. by eapply lookup_lt_Some.
    + rewrite (Hlook j b).
      * rewrite filter_cons_False; [done|]. congruence.
      * by rewrite list_lookup_insert_ne.
Qed.

Lemma group_by_new_is_Ok mapping old_indices new_to_old :
  Forall (λ o, ∃ j, mapping !! o = Some j ∧ j < length new_to_old) old_indices →
  is_Ok (Node.group_by_new mapping old_indices new_to_old).
Proof.
  intros Hall. revert new_to_old Hall.
  induction old_indices as [|o rest IH]; intros nto Hall; simpl.
  - by eexists.
  - inversion Hall as [|? ? (j & Hj & Hlt) Hrest]; subst.
    rewrite Hj. simpl. unfold Node.bucket_append.
    destruct (getitem_is_Ok nto j Hlt) as [b Hb]. rewrite Hb. simpl.
    apply IH. eapply Forall_impl; [exact Hrest|].
    intros o' (j' & Hj' & Hlt'). exists j'. by rewrite length_insert.
Qed.

Lemma group_by_new_buckets mapping old_indices n new_to_old :
  Node.group_by_new mapping old_indices (replicate n []) = Ok new_to_old →
  new_to_old = bucket_of mapping old_indices <$> seq 0 n.
Proof.
  intros H. destruct (group_by_new_lookup _ _ _ _ H) as [Hlen Hlook].
  rewrite length_replicate in Hlen.
  apply list_eq. intros j. rewrite list_lookup_fmap.
  destruct (decide (j < n)) as [Hj|Hj].
  - rewrite (Hlook j []) by (by apply lookup_replicate_2).
    by rewrite lookup_seq_lt.
  - rewrite lookup_ge_None_2 by lia.
    by rewrite lookup_seq_ge by lia.
Qed.

(** ** What a successful construction did *)

Section NodeInit.

Variable get_leaves : Element → list Element.

Lemma covered_last_owner wnids children o :
  covered get_leaves wnids children o → ∃ j, last_owner get_leaves wnids children o j.
Proof.
  induction children as [|c rest IH]; intros Hc; [by inversion Hc|].
  destruct (decide (covered get_leaves wnids rest o)) as [Hrest|Hrest].
  - destruct (IH Hrest) as (j & child & Hj & Hcov & Hlast).
    exists (S j), child. split; [done|]. split; [done|].
    intros [|j'] c' Hlt Hj'; [lia|]. apply (Hlast j'); [lia|done].
  - exists 0, c. split; [done|]. split.
    + inversion Hc; subst; done.
    + intros [|j'] c' Hlt Hj'; [lia|]. simpl in Hj'. intros Hcov.
      apply Hrest. apply Exists_exists. exists c'. split; [|done].
      by eapply list_elem_of_lookup_2.
Qed.

Lemma last_owner_covered wnids children o j :
  last_owner get_leaves wnids children o j →
  covered get_leaves wnids children o ∧ j < length children.
Proof.
  intros (child & Hj & Hcov & _). split.
  - apply Exists_exists. exists child. split; [|done].
    by eapply list_elem_of_lookup_2.
  - by eapply lookup_lt_Some.
Qed.

Lemma last_owner_unique wnids children o j1 j2 :
  last_owner get_leaves wnids children o j1 →
  last_owner get_leaves wnids children o j2 → j1 = j2.
Proof.
  intros (c1 & Hj1 & Hc1 & Hlast1) (c2 & Hj2 & Hc2 & Hlast2).
  destruct (Nat.lt_trichotomy j1 j2) as [Hlt|[Heq|Hgt]]; [|done|].
  - by destruct (Hlast1 j2 c2).
  - by destruct (Hlast2 j1 c1).
Qed.

(** The first loop, started on the empty dict. *)
Lemma assign_children_empty wnids children mapping1 o j :
  Node.assign_children get_leaves wnids 0 children ∅ = Ok mapping1 →
  mapping1 !! o = Some j ↔ last_owner get_leaves wnids children o j.
Proof.
  intros H. rewrite (assign_children_lookup _ _ _ _ _ _ o j H).
  unfold last_owner. split.
  - intros [(k & child & -> & Hrest)|[Hj _]]; [|by rewrite lookup_empty in Hj].
    by exists child.
  - intros (child & Hrest). left. by exists j, child.
Qed.

Lemma assign_children_covered wnids children mapping1 o :
  Node.assign_children get_leaves wnids 0 children ∅ = Ok mapping1 →
  is_Some (mapping1 !! o) ↔ covered get_leaves wnids children o.
Proof.
  intros H. split.
  - intros [j Hj]. apply (assign_children_empty _ _ _ _ _ H) in Hj.
    by apply last_owner_covered in Hj as [? _].
  - intros Hc. destruct (covered_last_owner _ _ _ Hc) as [j Hj].
    exists j. by apply (assign_children_empty _ _ _ _ _ H).
Qed.

Lemma init_inv wnid0 tree wnids classes0 node :
  Node.init get_leaves wnid0 tree wnids classes0 = Ok node →
  ∃ v mapping1,
    find_synset tree wnid0 = Some v ∧
    0 < length (getchildren v) ∧
    Node.assign_children get_leaves wnids 0 (getchildren v) ∅ = Ok mapping1 ∧
    Node.num_original_classes node = length wnids ∧
    Node.num_children node = length (getchildren v) ∧
    Node.num_classes node =
      (if bool_decide (size mapping1 < length wnids)
       then length (getchildren v) + 1 else length (getchildren v)) ∧
    Node.mapping node =
      Node.assign_other (length (getchildren v)) (seq 0 (length wnids)) mapping1 ∧
    Node.group_by_new (Node.mapping node) (seq 0 (length wnids))
      (replicate (Node.num_classes node) []) = Ok (Node.new_to_old node) ∧
    Node.original_classes node = classes0 ∧
    match classes0 with
    | [] => Node.classes node = []
    | _ :: _ => comprehension (Node.class_name classes0) (Node.new_to_old node)
                = Ok (Node.classes node)
    end ∧
    Node._probabilities node = None ∧
    Node.wnid node = wnid0 ∧
    Node.children_wnids node = get_wnid <$> getchildren v.
Proof.
  unfold Node.init. intros H.
  destruct (find_synset tree wnid0) as [v|] eqn:Hfind; [|done].
  inv_bind H. apply assert_Ok, bool_decide_eq_true in Ha.
  inv_bind H. rename a0 into mapping1.
  inv_bind H. rename a0 into nto.
  inv_bind H. rename a0 into names.
  injection H as <-. simpl.
  exists v, mapping1. repeat split; try done.
  destruct classes0; [by injection Ha2 as <-|done].
Qed.

(** The final mapping: a covered flat label goes to its last owner, any other
    flat label to [num_children]. *)
Lemma init_mapping wnid0 tree wnids classes0 node v o j :
  Node.init get_leaves wnid0 tree wnids classes0 = Ok node →
  find_synset tree wnid0 = Some v →
  Node.mapping node !! o = Some j ↔
    last_owner get_leaves wnids (getchildren v) o j ∨
    (o < length wnids ∧ ¬ covered get_leaves wnids (getchildren v) o ∧
     j = length (getchildren v)).
Proof.
  intros Hinit Hfind.
  destruct (init_inv _ _ _ _ _ Hinit)
    as (v' & mapping1 & Hfind' & Hpos & Hassign & _ & _ & _ & Hmap & _).
  assert (v' = v) as -> by congruence.
  rewrite Hmap, assign_other_lookup.
  pose proof (assign_children_empty _ _ _ o j Hassign) as Hown.
  pose proof (assign_children_covered _ _ _ o Hassign) as Hcov.
  destruct (mapping1 !! o) as [j1|] eqn:Ho.
  - split.
    + intros Hj. left. by apply Hown.
    + intros [Hj|(_ & Hnc & _)]; [by apply Hown|].
      destruct Hnc. apply Hcov. by eexists.
  - assert (¬ covered get_leaves wnids (getchildren v) o) as Hnc.
    { intros Hc. apply Hcov in Hc as [? ?]. done. }
    case_decide as Hin.
    + apply elem_of_seq in Hin. split.
      * intros [= <-]. right. split; [lia|]. done.
      * intros [Hj|(_ & _ & ->)]; [|done]. by apply Hown in Hj.
    + rewrite elem_of_seq in Hin. split; [done|].
      intros [Hj|(Hlt & _ & _)]; [by apply Hown in Hj|lia].
Qed.

(** The size test of line 55 succeeds exactly when a flat label is left
    uncovered. *)
Lemma init_num_classes wnid0 tree wnids classes0 node v :
  Node.init get_leaves wnid0 tree wnids classes0 = Ok node →
  find_synset tree wnid0 = Some v →
  (Node.num_classes node = Node.num_children node ∧
   ∀ o, o < length wnids → covered get_leaves wnids (getchildren v) o)
  ∨ (Node.num_classes node = Node.num_children node + 1 ∧
     ∃ o, o < length wnids ∧ ¬ covered get_leaves wnids (getchildren v) o).
Proof.
  intros Hinit Hfind.
  destruct (init_inv _ _ _ _ _ Hinit)
    as (v' & mapping1 & Hfind' & Hpos & Hassign & _ & Hn & Hnc & _).
  assert (v' = v) as -> by congruence.
  assert (∀ o, is_Some (mapping1 !! o) → o < length wnids) as Hdom.
  { intros o Ho. apply (assign_children_covered _ _ _ o Hassign) in Ho.
    by eapply covered_lt. }
  rewrite Hnc, Hn. case_bool_decide as Hsize.
  - right. split; [done|].
    destruct (size_lt_missing _ _ Hdom Hsize) as (o & Ho & Hnone).
    exists o. split; [done|]. intros Hc.
    apply (assign_children_covered _ _ _ o Hassign) in Hc as [? ?]. congruence.
  - left. split; [done|]. intros o Ho.
    apply (assign_children_covered _ _ _ o Hassign).
    by apply size_ge_total with (K := length wnids).
Qed.

Lemma init_well_formed wnid0 tree wnids classes0 node :
  Node.init get_leaves wnid0 tree wnids classes0 = Ok node →
  well_formed node.
Proof.
  intros Hinit.
  destruct (init_inv _ _ _ _ _ Hinit)
    as (v & mapping1 & Hfind & Hpos & Hassign & HK & Hn & Hnc & Hmap & Hgroup
        & Horig & Hnames & _).
  pose proof (init_num_classes _ _ _ _ _ _ Hinit Hfind) as Hcases.
  assert (∀ o j, Node.mapping node !! o = Some j →
                 o < length wnids ∧ j < Node.num_classes node) as Hrange.
  { intros o j Hj. apply (init_mapping _ _ _ _ _ _ o j Hinit Hfind) in Hj.
    destruct Hj as [Hown|(Ho & Hncov & ->)].
    - apply last_owner_covered in Hown as [Hc Hj]. split.
      + by eapply covered_lt.
      + destruct Hcases as [[-> _]|[-> _]]; lia.
    - split; [done|]. destruct Hcases as [[_ Hall]|[-> _]]; [|lia].
      destruct Hncov. by apply Hall. }
  split.
  - intros o Ho. rewrite HK in Ho.
    destruct (decide (covered get_leaves wnids (getchildren v) o)) as [Hc|Hc].
    + destruct (covered_last_owner _ _ _ Hc) as [j Hj]. exists j.
      apply (init_mapping _ _ _ _ _ _ o j Hinit Hfind). by left.
    + exists (length (getchildren v)).
      apply (init_mapping _ _ _ _ _ _ o _ Hinit Hfind). by right.
  - rewrite HK. exact Hrange.
  - rewrite HK. by apply group_by_new_buckets.
  - lia.
  - destruct Hcases as [[-> _]|[-> _]]; lia.
  - by rewrite Horig.
Qed.

End NodeInit.

(** ** The buckets partition the flat labels *)

Lemma sum_lengths_concat {A} (ls : list (list A)) :
  Py.sum (length <$> ls) = length (concat ls).
Proof.
  induction ls as [|l ls IH]; [done|].
  simpl. rewrite length_app. unfold Py.sum in IH. by rewrite <- IH.
Qed.

Lemma bucket_of_split mapping old_indices bound :
  filter (below mapping bound) old_indices ++ bucket_of mapping old_indices bound
  ≡ₚ filter (below mapping (S bound)) old_indices.
Proof.
  unfold bucket_of.
  induction old_indices as [|o rest IH]; [done|].
  rewrite !filter_cons.
  destruct (decide (below mapping bound o)) as [H1|H1],
           (decide (mapping !! o = Some bound)) as [H2|H2],
           (decide (below mapping (S bound) o)) as [H3|H3]; simpl;
    try (exfalso; unfold below in *;
         destruct (mapping !! o) as [j|]; simplify_eq;
         first [lia | tauto | (apply H2; f_equal; lia)]).
  - by rewrite IH.
  - rewrite <- Permutation_middle. by rewrite IH.
  - exact IH.
Qed.

Lemma buckets_permutation mapping old_indices bound :
  concat (bucket_of mapping old_indices <$> seq 0 bound)
  ≡ₚ filter (below mapping bound) old_indices.
Proof.
  induction bound as [|bound IH].
  - simpl. induction old_indices as [|o rest IHr]; [done|].
    rewrite filter_cons_False; [done|].
    unfold below. destruct (mapping !! o); [lia|tauto].
  - rewrite seq_S, fmap_app, concat_app. simpl. rewrite app_nil_r.
    rewrite IH. apply bucket_of_split.
Qed.

Lemma filter_all {A} (P : A → Prop) `{∀ x, Decision (P x)} (l : list A) :
  Forall P l → filter P l = l.
Proof.
  induction 1 as [|x l Hx _ IH]; [done|].
  by rewrite filter_cons_True, IH.
Qed.

Lemma well_formed_partition node :
  well_formed node →
  concat (Node.new_to_old node) ≡ₚ seq 0 (Node.num_original_classes node).
Proof.
  intros Hwf. rewrite (wf_buckets _ Hwf), buckets_permutation.
  rewrite filter_all; [done|].
  apply Forall_forall. intros o Ho. apply elem_of_seq in Ho.
  destruct (wf_total _ Hwf o) as [j Hj]; [lia|].
  unfold below. rewrite Hj. by apply (wf_range _ Hwf o j).
Qed.

Lemma well_formed_bucket_lookup node j bucket :
  well_formed node →
  Node.new_to_old node !! j = Some bucket →
  j < Node.num_classes node ∧
  bucket = bucket_of (Node.mapping node) (seq 0 (Node.num_original_classes node)) j.
Proof.
  intros Hwf. rewrite (wf_buckets _ Hwf), list_lookup_fmap.
  destruct (seq 0 (Node.num_classes node) !! j) as [j'|] eqn:Hj; [|done].
  apply lookup_seq in Hj as [-> Hlt]. simpl. intros [= <-]. done.
Qed.

Lemma well_formed_length node :
  well_formed node → length (Node.new_to_old node) = Node.num_classes node.
Proof.
  intros Hwf. by rewrite (wf_buckets _ Hwf), length_fmap, length_seq.
Qed.

Lemma well_formed_elem_of_bucket node j bucket o :
  well_formed node →
  Node.new_to_old node !! j = Some bucket →
  o ∈ bucket ↔ Node.mapping node !! o = Some j.
Proof.
  intros Hwf Hb. destruct (well_formed_bucket_lookup _ _ _ Hwf Hb) as [Hj ->].
  unfold bucket_of. rewrite list_elem_of_filter, elem_of_seq. split.
  - by intros [? _].
  - intros Ho. split; [done|]. apply (wf_range _ Hwf) in Ho. lia.
Qed.

(** ** The constructor returns *)

Lemma init_is_Ok get_leaves wnid0 tree wnids classes0 v :
  find_synset tree wnid0 = Some v →
  0 < length (getchildren v) →
  leaves_known get_leaves wnids (getchildren v) →
  classes0 = [] ∨ length wnids ≤ length classes0 →
  is_Ok (Node.init get_leaves wnid0 tree wnids classes0).
Proof.
  intros Hfind Hpos Hknown Hnames. unfold Node.init. rewrite Hfind.
  rewrite bool_decide_eq_true_2 by done. simpl.
  destruct (assign_children_is_Ok get_leaves wnids 0 _ ∅ Hknown) as [mapping1 Hm1].
  rewrite Hm1. simpl.
  set (n := length (getchildren v)).
  set (K := length wnids).
  set (nc := if bool_decide (size mapping1 < K) then n + 1 else n).
  set (mapping2 := Node.assign_other n (seq 0 K) mapping1).
  assert (∀ o, is_Some (mapping1 !! o) → o < K) as Hdom.
  { intros o Ho. apply (assign_children_covered _ _ _ _ o Hm1) in Ho.
    by eapply covered_lt. }
  assert (∀ o, o < K → ∃ j, mapping2 !! o = Some j ∧ j < nc) as Htotal.
  { intros o Ho. unfold mapping2. rewrite assign_other_lookup.
    destruct (mapping1 !! o) as [j|] eqn:Hj.
    - exists j. split; [done|].
      apply (assign_children_empty _ _ _ _ o j Hm1) in Hj.
      apply last_owner_covered in Hj as [_ Hj]. unfold nc.
      case_bool_decide; fold n in Hj; lia.
    - rewrite decide_True by (apply elem_of_seq; lia).
      exists n. split; [done|]. unfold nc.
      rewrite bool_decide_eq_true_2; [lia|].
      apply size_lt_iff_missing; [done|]. by exists o. }
  destruct (group_by_new_is_Ok mapping2 (seq 0 K) (replicate nc [])) as [nto Hnto].
  { apply Forall_forall. intros o Ho. apply elem_of_seq in Ho.
    rewrite length_replicate. apply Htotal. lia. }
  rewrite Hnto. simpl.
  destruct classes0 as [|c0 cs]; [by eexists|].
  destruct Hnames as [|Hlen]; [done|].
  destruct (comprehension_is_Ok (Node.class_name (c0 :: cs)) nto) as [names Hn].
  { apply group_by_new_buckets in Hnto. subst nto.
    apply Forall_forall. intros bucket Hb.
    apply list_elem_of_fmap in Hb as (j & -> & _).
    unfold Node.class_name.
    destruct (comprehension_is_Ok (getitem (c0 :: cs)) (bucket_of mapping2 (seq 0 K) j))
      as [members Hmem].
    - apply Forall_forall. intros o Ho. unfold bucket_of in Ho.
      apply list_elem_of_filter in Ho as [_ Ho]. apply elem_of_seq in Ho.
      apply getitem_is_Ok. fold K in Hlen. lia.
    - rewrite Hmem. by eexists. }
  rewrite Hn. by eexists.
Qed.

(** ** The claims about [Node.__init__] *)

(** C2. For a node the constructor returned, [mapping] is a total function on
    the flat labels [0, K), [K] being the number of lines of the flat class
    list, it has no other key, and every value lies in [0, num_classes). A
    node is returned only for a vertex with at least one child whose leaves
    all occur in the flat class list ([init_inv], [assign_children_known]),
    and it is returned for every such vertex ([init_is_Ok]). *)
Theorem Node_mapping_total get_leaves wnid0 tree wnids classes0 node :
  Node.init get_leaves wnid0 tree wnids classes0 = Ok node →
  Node.num_original_classes node = length wnids ∧
  (∀ old_index, old_index < length wnids →
     ∃ new_index, Node.mapping node !! old_index = Some new_index ∧
                  new_index < Node.num_classes node) ∧
  (∀ old_index new_index, Node.mapping node !! old_index = Some new_index →
     old_index < length wnids ∧ new_index < Node.num_classes node).
Proof.
  intros Hinit. pose proof (init_well_formed _ _ _ _ _ _ Hinit) as Hwf.
  destruct (init_inv _ _ _ _ _ _ Hinit) as (_ & _ & _ & _ & _ & HK & _).
  split; [done|]. rewrite <- HK. split.
  - intros o Ho. destruct (wf_total _ Hwf o Ho) as [j Hj].
    exists j. split; [done|]. by apply (wf_range _ Hwf o j).
  - apply (wf_range _ Hwf).
Qed.

Lemma Node_mapping_total_witness :
  Node.init xmlutils.get_leaves "b" Examples.tree Examples.wnids Examples.classes
    = Ok Examples.node_b ∧
  Node.num_original_classes Examples.node_b = 3 ∧
  (∀ old_index, old_index < 3 →
     ∃ new_index, Node.mapping Examples.node_b !! old_index = Some new_index ∧
                  new_index < Node.num_classes Examples.node_b) ∧
  (∀ old_index new_index,
     Node.mapping Examples.node_b !! old_index = Some new_index →
     old_index < 3 ∧ new_index < Node.num_classes Examples.node_b).
Proof.
  split; [vm_compute; reflexivity|].
  apply (Node_mapping_total xmlutils.get_leaves "b" Examples.tree Examples.wnids
           Examples.classes).
  vm_compute. reflexivity.
Defined.

(** C3. For a node the constructor returned: if every flat label of [0, K)
    lies in the leaf set of some child, [num_classes] is [num_children];
    otherwise [num_classes] is [num_children + 1] and some flat label is
    mapped to [num_children]. The bucket [num_children] is inhabited exactly
    when it exists. *)
Theorem Node_num_classes_other get_leaves wnid0 tree wnids classes0 node v :
  Node.init get_leaves wnid0 tree wnids classes0 = Ok node →
  find_synset tree wnid0 = Some v →
  Node.num_children node = length (getchildren v) ∧
  ((∀ old_index, old_index < length wnids →
      covered get_leaves wnids (getchildren v) old_index) →
   Node.num_classes node = Node.num_children node) ∧
  (¬ (∀ old_index, old_index < length wnids →
        covered get_leaves wnids (getchildren v) old_index) →
   Node.num_classes node = Node.num_children node + 1 ∧
   ∃ old_index, old_index < length wnids ∧
                Node.mapping node !! old_index = Some (Node.num_children node)) ∧
  (Node.num_classes node = Node.num_children node + 1 ↔
   ∃ old_index, Node.mapping node !! old_index = Some (Node.num_children node)).
Proof.
  intros Hinit Hfind.
  destruct (init_inv _ _ _ _ _ _ Hinit)
    as (v' & _ & Hfind' & _ & _ & _ & Hn & _).
  assert (v' = v) as -> by congruence.
  pose proof (init_num_classes _ _ _ _ _ _ _ Hinit Hfind) as Hcases.
  assert (∀ o, o < length wnids →
               ¬ covered get_leaves wnids (getchildren v) o →
               Node.mapping node !! o = Some (Node.num_children node)) as Hother.
  { intros o Ho Hnc. rewrite Hn.
    apply (init_mapping _ _ _ _ _ _ _ o _ Hinit Hfind). by right. }
  split; [done|]. split; [|split].
  - intros Hall. destruct Hcases as [[Hnc _]|[_ (o & Ho & Hnc)]]; [done|].
    destruct Hnc. by apply Hall.
  - intros Hnot. destruct Hcases as [[_ Hall]|[Hnc (o & Ho & Huncov)]]; [done|].
    split; [done|]. exists o. split; [done|]. by apply Hother.
  - split.
    + intros Hnc. destruct Hcases as [[Heq _]|[_ (o & Ho & Huncov)]]; [lia|].
      exists o. by apply Hother.
    + intros (o & Ho).
      apply (init_mapping _ _ _ _ _ _ _ o _ Hinit Hfind) in Ho.
      destruct Ho as [Hown|(Ho & Huncov & _)].
      * apply last_owner_covered in Hown as [_ Hlt]. lia.
      * destruct Hcases as [[_ Hall]|[Hnc _]]; [|done].
        destruct Huncov. by apply Hall.
Qed.

Lemma Node_num_classes_other_witness :
  let children := [ Examples.leaf "b1"; Examples.leaf "b2" ] in
  Node.init xmlutils.get_leaves "b" Examples.tree Examples.wnids Examples.classes
    = Ok Examples.node_b ∧
  find_synset Examples.tree "b" = Some (Elem "synset" (Some "b") children) ∧
  Node.num_children Examples.node_b = 2 ∧
  ((∀ old_index, old_index < 3 →
      covered xmlutils.get_leaves Examples.wnids children old_index) →
   Node.num_classes Examples.node_b = Node.num_children Examples.node_b) ∧
  (¬ (∀ old_index, old_index < 3 →
        covered xmlutils.get_leaves Examples.wnids children old_index) →
   Node.num_classes Examples.node_b = Node.num_children Examples.node_b + 1 ∧
   ∃ old_index,
     old_index < 3 ∧
     Node.mapping Examples.node_b !! old_index
     = Some (Node.num_children Examples.node_b)) ∧
  (Node.num_classes Examples.node_b = Node.num_children Examples.node_b + 1 ↔
   ∃ old_index,
     Node.mapping Examples.node_b !! old_index
     = Some (Node.num_children Examples.node_b)).
Proof.
  cbv zeta. split; [vm_compute; reflexivity|].
  split; [vm_compute; reflexivity|].
  apply (Node_num_classes_other xmlutils.get_leaves "b" Examples.tree
           Examples.wnids Examples.classes Examples.node_b
           (Elem "synset" (Some "b") [ Examples.leaf "b1"; Examples.leaf "b2" ])).
  - vm_compute. reflexivity.
  - vm_compute. reflexivity.
Defined.

(** C4. For a node the constructor returned, [new_to_old] is the inverse
    grouping of [mapping]: there is one bucket per new class; every member of
    the bucket of a new class is mapped to that class; every flat label of
    [0, K) is in one bucket and in no other, and occurs once among all the
    buckets; hence the class counts add up to [K]. *)
Theorem Node_new_to_old_inverse get_leaves wnid0 tree wnids classes0 node :
  Node.init get_leaves wnid0 tree wnids classes0 = Ok node →
  length (Node.new_to_old node) = Node.num_classes node ∧
  (∀ new_index bucket old_index,
     Node.new_to_old node !! new_index = Some bucket → old_index ∈ bucket →
     Node.mapping node !! old_index = Some new_index) ∧
  (∀ old_index, old_index < length wnids →
     ∃ new_index bucket,
       Node.new_to_old node !! new_index = Some bucket ∧ old_index ∈ bucket ∧
       ∀ new_index' bucket',
         Node.new_to_old node !! new_index' = Some bucket' →
         old_index ∈ bucket' → new_index' = new_index) ∧
  concat (Node.new_to_old node) ≡ₚ seq 0 (length wnids) ∧
  Py.sum (Node.class_counts node) = length wnids.
Proof.
  intros Hinit. pose proof (init_well_formed _ _ _ _ _ _ Hinit) as Hwf.
  destruct (init_inv _ _ _ _ _ _ Hinit) as (_ & _ & _ & _ & _ & HK & _).
  pose proof (well_formed_partition _ Hwf) as Hperm. rewrite HK in Hperm.
  split; [by apply well_formed_length|]. split; [|split; [|split]].
  - intros j bucket o Hb Ho. by apply (well_formed_elem_of_bucket _ _ _ _ Hwf Hb).
  - intros o Ho. rewrite <- HK in Ho.
    destruct (wf_total _ Hwf o Ho) as [j Hj].
    destruct (wf_range _ Hwf o j Hj) as [_ Hlt].
    rewrite <- (well_formed_length _ Hwf) in Hlt.
    destruct (lookup_lt_is_Some_2 _ _ Hlt) as [bucket Hb].
    exists j, bucket. split; [done|]. split.
    + by apply (well_formed_elem_of_bucket _ _ _ _ Hwf Hb).
    + intros j' bucket' Hb' Ho'.
      apply (well_formed_elem_of_bucket _ _ _ _ Hwf Hb') in Ho'. congruence.
  - done.
  - unfold Node.class_counts. rewrite sum_lengths_concat.
    by rewrite Hperm, length_seq.
Qed.

Lemma Node_new_to_old_inverse_witness :
  Node.init xmlutils.get_leaves "root" Examples.tree Examples.wnids
    Examples.classes = Ok Examples.node_root ∧
  length (Node.new_to_old Examples.node_root) = Node.num_classes Examples.node_root ∧
  (∀ new_index bucket old_index,
     Node.new_to_old Examples.node_root !! new_index = Some bucket →
     old_index ∈ bucket →
     Node.mapping Examples.node_root !! old_index = Some new_index) ∧
  (∀ old_index, old_index < 3 →
     ∃ new_index bucket,
       Node.new_to_old Examples.node_root !! new_index = Some bucket ∧
       old_index ∈ bucket ∧
       ∀ new_index' bucket',
         Node.new_to_old Examples.node_root !! new_index' = Some bucket' →
         old_index ∈ bucket' → new_index' = new_index) ∧
  concat (Node.new_to_old Examples.node_root) ≡ₚ seq 0 3 ∧
  Py.sum (Node.class_counts Examples.node_root) = 3.
Proof.
  split; [vm_compute; reflexivity|].
  apply (Node_new_to_old_inverse xmlutils.get_leaves "root" Examples.tree
           Examples.wnids Examples.classes).
  vm_compute. reflexivity.
Defined.

(** ** Binary floating point *)

Section FloatRounding.
Import PyFloat.
#[local] Open Scope Q_scope.

Lemma pow2_pos e : 0 < pow2 e.
Proof. unfold pow2. apply Qpower_0_lt. reflexivity. Qed.

Lemma pow2_plus a b : pow2 (a + b) == pow2 a * pow2 b.
Proof. unfold pow2. apply Qpower_plus. discriminate. Qed.

Lemma pow2_le a b : (a ≤ b)%Z → pow2 a <= pow2 b.
Proof. intros H. unfold pow2. apply Qpower_le_compat_l; [done|]. discriminate. Qed.

Lemma pow2_lt a b : (a < b)%Z → pow2 a < pow2 b.
Proof. intros H. unfold pow2. apply Qpower_lt_compat_l; [done|]. reflexivity. Qed.

Lemma pow2_lt_inv a b : pow2 a < pow2 b → (a < b)%Z.
Proof. intros H. unfold pow2 in H. eapply Qpower_lt_compat_l_inv; [exact H|]. reflexivity. Qed.

Lemma pow2_nonneg e : (0 ≤ e)%Z → pow2 e == inject_Z (2 ^ e).
Proof. intros H. unfold pow2. by rewrite Zpower_Qpower. Qed.

Lemma pow2_0 : pow2 0 == 1.
Proof. reflexivity. Qed.

Lemma pow2_split a b : (b ≤ a)%Z → pow2 a == inject_Z (2 ^ (a - b)) * pow2 b.
Proof.
  intros H. rewrite <- pow2_nonneg by lia. rewrite <- pow2_plus.
  by replace (a - b + b)%Z with a by lia.
Qed.

Lemma Qdiv_lt_cross (n d A B : Z) :
  (0 < d)%Z → (0 < B)%Z → (n * B < A * d)%Z →
  inject_Z n / inject_Z d < inject_Z A / inject_Z B.
Proof.
  intros Hd HB H.
  assert (0 < inject_Z d) as Hd' by (by rewrite <- (Zlt_Qlt 0)).
  assert (0 < inject_Z B) as HB' by (by rewrite <- (Zlt_Qlt 0)).
  apply Qlt_shift_div_l; [done|].
  assert (inject_Z n / inject_Z d * inject_Z B
          == inject_Z n * inject_Z B / inject_Z d) as ->.
  { field. intros H0. rewrite H0 in Hd'. by apply Qlt_irrefl in Hd'. }
  apply Qlt_shift_div_r; [done|].
  rewrite <- !inject_Z_mult. by rewrite <- Zlt_Qlt.
Qed.

Lemma ilog2_spec (q : Q) :
  0 < q → pow2 (ilog2 q) <= q ∧ q < pow2 (ilog2 q + 1).
Proof.
  intros Hq. destruct q as [n d]. unfold ilog2. cbn [Qnum Qden].
  assert (0 < n)%Z as Hn.
  { unfold Qlt in Hq. simpl in Hq. lia. }
  pose proof (Z.log2_spec n Hn) as [Hn1 Hn2].
  pose proof (Z.log2_spec (Z.pos d) (Pos2Z.is_pos d)) as [Hd1 Hd2].
  pose proof (Z.log2_nonneg n) as Ha.
  pose proof (Z.log2_nonneg (Z.pos d)) as Hb.
  set (a := Z.log2 n) in *. set (b := Z.log2 (Z.pos d)) in *.
  assert (0 < 2 ^ a)%Z as Hpa by (apply Z.pow_pos_nonneg; lia).
  assert (0 < 2 ^ b)%Z as Hpb by (apply Z.pow_pos_nonneg; lia).
  assert (n # d < pow2 (a - b + 1)) as Hupper.
  { replace (a - b + 1)%Z with (Z.succ a - b)%Z by lia.
    unfold pow2. rewrite Qpower_minus by discriminate.
    rewrite <- !(Zpower_Qpower 2) by lia.
    rewrite (Qmake_Qdiv n d).
    apply Qdiv_lt_cross; [lia|lia|]. nia. }
  assert (pow2 (a - b - 1) < n # d) as Hlower.
  { replace (a - b - 1)%Z with (a - Z.succ b)%Z by lia.
    unfold pow2. rewrite Qpower_minus by discriminate.
    rewrite <- !(Zpower_Qpower 2) by lia.
    rewrite (Qmake_Qdiv n d).
    apply Qdiv_lt_cross; [|lia|nia].
    apply Z.pow_pos_nonneg; lia. }
  destruct (Qle_bool (pow2 (a - b)) (n # d)) eqn:Hle.
  - apply Qle_bool_iff in Hle. done.
  - assert (n # d < pow2 (a - b)) as Hlt.
    { apply Qnot_le_lt. intros H. apply Qle_bool_iff in H. congruence. }
    split; [by apply Qlt_le_weak|].
    by replace (a - b - 1 + 1)%Z with (a - b)%Z by lia.
Qed.

Lemma ilog2_unique (q : Q) (e : Z) :
  pow2 e <= q → q < pow2 (e + 1) → ilog2 q = e.
Proof.
  intros H1 H2.
  assert (0 < q) as Hq by (eapply Qlt_le_trans; [apply (pow2_pos e)|done]).
  destruct (ilog2_spec q Hq) as [H3 H4].
  assert (pow2 e < pow2 (ilog2 q + 1)) as Ha by (eapply Qle_lt_trans; done).
  assert (pow2 (ilog2 q) < pow2 (e + 1)) as Hb by (eapply Qle_lt_trans; done).
  apply pow2_lt_inv in Ha, Hb. lia.
Qed.

Lemma ilog2_comp (x y : Q) : 0 < x → x == y → ilog2 x = ilog2 y.
Proof.
  intros Hx Hxy. destruct (ilog2_spec x Hx) as [H1 H2].
  symmetry. apply ilog2_unique; by rewrite <- Hxy.
Qed.

Lemma ilog2_mono (x y : Q) : 0 < x → x <= y → (ilog2 x ≤ ilog2 y)%Z.
Proof.
  intros Hx Hxy.
  assert (0 < y) as Hy by (by eapply Qlt_le_trans).
  destruct (ilog2_spec x Hx) as [H1 _]. destruct (ilog2_spec y Hy) as [_ H2].
  assert (pow2 (ilog2 x) < pow2 (ilog2 y + 1)) as H.
  { eapply Qle_lt_trans; [exact H1|]. by eapply Qle_lt_trans. }
  apply pow2_lt_inv in H. lia.
Qed.

Lemma ilog2_ge (q : Q) (e : Z) : pow2 e <= q → (e ≤ ilog2 q)%Z.
Proof.
  intros H.
  assert (0 < q) as Hq by (eapply Qlt_le_trans; [apply (pow2_pos e)|done]).
  destruct (ilog2_spec q Hq) as [_ H2].
  assert (pow2 e < pow2 (ilog2 q + 1)) as Ha by (by eapply Qle_lt_trans).
  apply pow2_lt_inv in Ha. lia.
Qed.

Lemma ilog2_lt (q : Q) (e : Z) : 0 < q → q < pow2 e → (ilog2 q < e)%Z.
Proof.
  intros Hq H. destruct (ilog2_spec q Hq) as [H1 _].
  apply pow2_lt_inv. by eapply Qle_lt_trans.
Qed.

(** Rounding to the nearest integer, ties to even. *)

Lemma rne_Z (k : Z) : rne (inject_Z k) = k.
Proof.
  unfold rne. rewrite Qfloor_Z.
  destruct (Qcompare_spec (inject_Z k - inject_Z k) (1 # 2)) as [H|H|H].
  - exfalso. lra.
  - done.
  - exfalso. lra.
Qed.

Lemma rne_comp (x y : Q) : x == y → rne x = rne y.
Proof.
  intros H. unfold rne. rewrite (Qfloor_comp x y H).
  assert ((x - inject_Z (Qfloor y) ?= 1 # 2) = (y - inject_Z (Qfloor y) ?= 1 # 2))
    as ->; [|done].
  apply Qcompare_comp; [by rewrite H|reflexivity].
Qed.

Lemma rne_floor (x : Q) : (Qfloor x ≤ rne x ≤ Qfloor x + 1)%Z.
Proof.
  unfold rne.
  destruct (Qcompare_spec (x - inject_Z (Qfloor x)) (1 # 2)) as [H|H|H];
    [destruct (Z.even (Qfloor x))|..]; lia.
Qed.

Lemma rne_error (x : Q) :
  x - (1 # 2) <= inject_Z (rne x) ∧ inject_Z (rne x) <= x + (1 # 2).
Proof.
  pose proof (Qfloor_le x) as H1. pose proof (Qlt_floor x) as H2.
  rewrite inject_Z_plus in H2. change (inject_Z 1) with 1 in H2. unfold rne.
  destruct (Qcompare_spec (x - inject_Z (Qfloor x)) (1 # 2)) as [H|H|H];
    [destruct (Z.even (Qfloor x))|..];
    rewrite ?inject_Z_plus; change (inject_Z 1) with 1; split; lra.
Qed.

Lemma rne_mono (x y : Q) : x <= y → (rne x ≤ rne y)%Z.
Proof.
  intros Hxy. pose proof (Qfloor_resp_le x y Hxy) as Hf.
  destruct (decide (Qfloor x = Qfloor y)) as [Heq|Hne].
  - unfold rne. rewrite Heq.
    destruct (Qcompare_spec (x - inject_Z (Qfloor y)) (1 # 2)) as [Hx|Hx|Hx];
      destruct (Qcompare_spec (y - inject_Z (Qfloor y)) (1 # 2)) as [Hy|Hy|Hy];
      try destruct (Z.even (Qfloor y)); try lia; exfalso; lra.
  - pose proof (rne_floor x). pose proof (rne_floor y). lia.
Qed.

Lemma rne_le_Z (x : Q) (k : Z) : x <= inject_Z k → (rne x ≤ k)%Z.
Proof. intros H. rewrite <- (rne_Z k). by apply rne_mono. Qed.

Lemma rne_ge_Z (x : Q) (k : Z) : inject_Z k <= x → (k ≤ rne x)%Z.
Proof. intros H. rewrite <- (rne_Z k). by apply rne_mono. Qed.

(** Rounding to a binary format. *)

Section Rounding.
Variables (prec emin : Z).
Hypothesis Hprec : (1 ≤ prec)%Z.

Lemma exponent_pos (q : Q) :
  0 < q → exponent prec emin q = Z.max (ilog2 q - (prec - 1)) emin.
Proof.
  intros Hq. unfold exponent. f_equal. f_equal.
  apply ilog2_comp.
  - rewrite Qabs_pos; [done|]. by apply Qlt_le_weak.
  - apply Qabs_pos. by apply Qlt_le_weak.
Qed.

Lemma exponent_le (q : Q) :
  0 < q → (exponent prec emin q ≤ Z.max (ilog2 q) emin)%Z.
Proof. intros Hq. rewrite exponent_pos by done. lia. Qed.

Lemma round_pos (q : Q) :
  0 < q →
  round prec emin q
  == inject_Z (rne (q / pow2 (exponent prec emin q))) * pow2 (exponent prec emin q).
Proof.
  intros Hq. unfold round.
  destruct (Qeq_bool q 0) eqn:H0.
  - apply Qeq_bool_eq in H0. rewrite H0 in Hq. by apply Qlt_irrefl in Hq.
  - cbv zeta. apply Qred_correct.
Qed.

Lemma round_comp (x y : Q) :
  0 < x → x == y → round prec emin x = round prec emin y.
Proof.
  intros Hx Hxy. assert (0 < y) as Hy by (by rewrite <- Hxy).
  unfold round. rewrite <- (Qeqb_comp x y Hxy 0 0 (Qeq_refl 0)).
  destruct (Qeq_bool x 0); [done|]. cbv zeta.
  rewrite (exponent_pos x Hx), (exponent_pos y Hy).
  rewrite (ilog2_comp x y Hx Hxy).
  apply Qred_complete.
  rewrite (rne_comp (x / pow2 (Z.max (ilog2 y - (prec - 1)) emin))
                    (y / pow2 (Z.max (ilog2 y - (prec - 1)) emin))); [done|].
  by rewrite Hxy.
Qed.

Lemma scaled_back (q : Q) (e : Z) : q / pow2 e * pow2 e == q.
Proof.
  field. intros H. pose proof (pow2_pos e) as Hp. rewrite H in Hp.
  by apply Qlt_irrefl in Hp.
Qed.

Lemma round_le_grid (q : Q) (k : Z) :
  0 < q →
  q <= inject_Z k * pow2 (exponent prec emin q) →
  round prec emin q <= inject_Z k * pow2 (exponent prec emin q).
Proof.
  intros Hq Hk. rewrite (round_pos q Hq).
  apply Qmult_le_compat_r; [|apply Qlt_le_weak, pow2_pos].
  rewrite <- Zle_Qle. apply rne_le_Z.
  apply Qle_shift_div_r; [apply pow2_pos|done].
Qed.

Lemma round_ge_grid (q : Q) (k : Z) :
  0 < q →
  inject_Z k * pow2 (exponent prec emin q) <= q →
  inject_Z k * pow2 (exponent prec emin q) <= round prec emin q.
Proof.
  intros Hq Hk. rewrite (round_pos q Hq).
  apply Qmult_le_compat_r; [|apply Qlt_le_weak, pow2_pos].
  rewrite <- Zle_Qle. apply rne_ge_Z.
  apply Qle_shift_div_l; [apply pow2_pos|done].
Qed.

Lemma round_error (q : Q) :
  0 < q →
  q - pow2 (exponent prec emin q) * (1 # 2) <= round prec emin q ∧
  round prec emin q <= q + pow2 (exponent prec emin q) * (1 # 2).
Proof.
  intros Hq. rewrite (round_pos q Hq).
  set (p := pow2 (exponent prec emin q)).
  pose proof (pow2_pos (exponent prec emin q)) as Hp. fold p in Hp.
  destruct (rne_error (q / p)) as [H1 H2].
  apply (Qmult_le_compat_r _ _ p) in H1; [|by apply Qlt_le_weak].
  apply (Qmult_le_compat_r _ _ p) in H2; [|by apply Qlt_le_weak].
  pose proof (scaled_back q (exponent prec emin q)) as Hback. fold p in Hback.
  assert ((q / p - (1 # 2)) * p == q - p * (1 # 2)) as E1.
  { rewrite <- Hback at 2. ring. }
  assert ((q / p + (1 # 2)) * p == q + p * (1 # 2)) as E2.
  { rewrite <- Hback at 2. ring. }
  rewrite E1 in H1. rewrite E2 in H2. done.
Qed.

(** A power of two at or above the exponent of [q] lies on the grid of
    [q]. *)
Lemma round_le_pow2 (q : Q) (e : Z) :
  0 < q → q <= pow2 e → (emin ≤ e)%Z → round prec emin q <= pow2 e.
Proof.
  intros Hq Hle He.
  assert (exponent prec emin q ≤ e)%Z as Hexp.
  { rewrite exponent_pos by done.
    destruct (Qlt_le_dec q (pow2 e)) as [Hlt|Hge].
    - pose proof (ilog2_lt q e Hq Hlt). lia.
    - assert (ilog2 q = e) as ->; [|lia].
      apply ilog2_unique; [done|].
      eapply Qle_lt_trans; [exact Hle|]. apply pow2_lt. lia. }
  rewrite (pow2_split e _ Hexp) in Hle |- *. by apply round_le_grid.
Qed.

Lemma round_ge_pow2 (q : Q) (e : Z) :
  0 < q → pow2 e <= q →
  (exponent prec emin q ≤ e)%Z →
  pow2 e <= round prec emin q.
Proof.
  intros Hq Hle Hexp.
  rewrite (pow2_split e _ Hexp) in Hle |- *. by apply round_ge_grid.
Qed.

Lemma round_mono (x y : Q) :
  0 < x → x <= y → round prec emin x <= round prec emin y.
Proof.
  intros Hx Hxy. assert (0 < y) as Hy by (by eapply Qlt_le_trans).
  pose proof (ilog2_mono x y Hx Hxy) as Hlog.
  destruct (decide (exponent prec emin x = exponent prec emin y)) as [Heq|Hne].
  - rewrite (round_pos x Hx), (round_pos y Hy), Heq.
    apply Qmult_le_compat_r; [|apply Qlt_le_weak, pow2_pos].
    rewrite <- Zle_Qle. apply rne_mono.
    apply Qmult_le_compat_r; [done|].
    apply Qlt_le_weak, Qinv_lt_0_compat, pow2_pos.
  - rewrite (exponent_pos x Hx), (exponent_pos y Hy) in Hne.
    assert (ilog2 x < ilog2 y)%Z as Hlt by lia.
    assert (emin < ilog2 y - (prec - 1))%Z as Hnormal by lia.
    destruct (ilog2_spec x Hx) as [_ Hx2]. destruct (ilog2_spec y Hy) as [Hy1 _].
    apply (Qle_trans _ (pow2 (ilog2 y))).
    + apply round_le_pow2; [done| |lia].
      apply Qlt_le_weak. eapply Qlt_le_trans; [exact Hx2|]. apply pow2_le. lia.
    + apply round_ge_pow2; [done|done|]. rewrite exponent_pos by done. lia.
Qed.

(** In the normal range the error is at most [2 ^ - prec] of the value. *)
Lemma round_relative (q : Q) :
  0 < q → (emin ≤ ilog2 q - (prec - 1))%Z →
  q - q * pow2 (- prec) <= round prec emin q ∧
  round prec emin q <= q + q * pow2 (- prec).
Proof.
  intros Hq Hnormal. destruct (round_error q Hq) as [H1 H2].
  destruct (ilog2_spec q Hq) as [Hlow _].
  assert (pow2 (exponent prec emin q) * (1 # 2) <= q * pow2 (- prec)) as Hulp.
  { rewrite exponent_pos by done. rewrite Z.max_l by lia.
    assert (pow2 (ilog2 q - (prec - 1)) * (1 # 2)
            == pow2 (ilog2 q) * pow2 (- prec)) as ->.
    { replace (ilog2 q - (prec - 1))%Z with (ilog2 q + (- prec) + 1)%Z by lia.
      rewrite !pow2_plus. change (pow2 1) with 2. ring. }
    apply Qmult_le_compat_r; [done|]. apply Qlt_le_weak, pow2_pos. }
  split; lra.
Qed.

Lemma round_pos_normal (q : Q) :
  0 < q → (emin ≤ ilog2 q - (prec - 1))%Z →
  pow2 (ilog2 q) <= round prec emin q.
Proof.
  intros Hq Hnormal. destruct (ilog2_spec q Hq) as [Hlow _].
  apply round_ge_pow2; [done|done|].
  rewrite exponent_pos by done. lia.
Qed.

Lemma round_one (q : Q) : (emin ≤ 0)%Z → q == 1 → round prec emin q = 1.
Proof.
  intros Hemin Hq.
  assert (0 < q) as Hpos by (rewrite Hq; reflexivity).
  assert (round prec emin q == 1) as H.
  { apply Qle_antisym.
    - change 1 with (pow2 0). apply round_le_pow2; [done| |done].
      rewrite Hq. apply Qle_refl.
    - change 1 with (pow2 0). apply round_ge_pow2; [done| |].
      + rewrite Hq. apply Qle_refl.
      + rewrite exponent_pos by done.
        assert (ilog2 q = 0%Z) as ->; [|lia].
        apply ilog2_unique; rewrite Hq; [apply Qle_refl|reflexivity]. }
  rewrite (round_pos q Hpos) in H. unfold round.
  destruct (Qeq_bool q 0) eqn:H0.
  - apply Qeq_bool_eq in H0. rewrite H0 in Hpos. by apply Qlt_irrefl in Hpos.
  - cbv zeta. exact (Qred_complete _ 1 H).
Qed.

Lemma round_zero (q : Q) : q == 0 → round prec emin q = 0.
Proof. intros H. unfold round. by rewrite (Qeq_eq_bool _ _ H). Qed.

Lemma round_nonneg (q : Q) : 0 <= q → 0 <= round prec emin q.
Proof.
  intros Hq. destruct (Qeq_dec q 0) as [H0|H0].
  - rewrite (round_zero _ H0). apply Qle_refl.
  - assert (0 < q) as Hpos.
    { apply Qle_lteq in Hq as [Hq|Hq]; [done|]. destruct H0. by symmetry. }
    rewrite (round_pos q Hpos).
    apply Qmult_le_0_compat; [|apply Qlt_le_weak, pow2_pos].
    change 0 with (inject_Z 0). rewrite <- Zle_Qle. apply rne_ge_Z.
    apply Qle_shift_div_l; [apply pow2_pos|]. by rewrite Qmult_0_l.
Qed.

Lemma round_le_one (q : Q) :
  (emin ≤ 0)%Z → 0 <= q → q <= 1 → round prec emin q <= 1.
Proof.
  intros Hemin Hq H1. destruct (Qeq_dec q 0) as [H0|H0].
  - rewrite (round_zero _ H0). lra.
  - assert (0 < q) as Hpos.
    { apply Qle_lteq in Hq as [Hq|Hq]; [done|]. destruct H0. by symmetry. }
    change 1 with (pow2 0).
    apply round_le_pow2; [exact Hpos|exact H1|exact Hemin].
Qed.

End Rounding.

Lemma min_one_id (x : Q) : x <= 1 → min_one x == x.
Proof.
  intros Hx. unfold min_one. destruct (Qlt_le_dec x 1) as [Hlt|Hle]; [done|].
  by apply Qle_antisym.
Qed.

(** The two constants of the formats, as numerals. *)
Lemma pow2_m53 : pow2 (- 53) == 1 # 9007199254740992.
Proof. reflexivity. Qed.

Lemma pow2_m24 : pow2 (- 24) == 1 # 16777216.
Proof. reflexivity. Qed.

(** A quotient of two list lengths, the least of them at the top: rounded to
    a float, cut at 1 and stored in a [float32] tensor. *)
Lemma stored_quotient (a b : nat) :
  (0 < a)%nat → (a ≤ b)%nat → (Z.of_nat b < 2 ^ 63)%Z →
  let q := Z.of_nat a # Pos.of_nat b in
  let p := binary32 (min_one (binary64 q)) in
  q - q * (1 # 8388608) <= p ∧ p <= q + q * (1 # 8388608) ∧
  0 < p ∧ p <= 1.
Proof.
  intros Ha Hab Hb q p.
  assert (Z.pos (Pos.of_nat b) = Z.of_nat b) as Hden.
  { destruct b as [|b]; [lia|]. lia. }
  assert (0 < q) as Hq0.
  { unfold q, Qlt. simpl. lia. }
  assert (q <= 1) as Hq1.
  { unfold q, Qle. simpl. rewrite Hden. lia. }
  assert (pow2 (- 63) <= q) as Hqlow.
  { change (pow2 (- 63)) with (/ pow2 63). unfold pow2.
    rewrite <- (Zpower_Qpower 2 63) by lia.
    unfold q, Qle. simpl. rewrite Hden. lia. }
  pose proof (ilog2_ge q (- 63) Hqlow) as Hlog.
  set (x := binary64 q) in *.
  destruct (round_relative 53 (- 1074) q Hq0) as [Hx1 Hx2]; [lia|].
  fold binary64 in Hx1, Hx2. fold x in Hx1, Hx2.
  assert (pow2 (- 63) <= x) as Hxlow.
  { eapply Qle_trans; [apply (pow2_le (- 63) (ilog2 q)); lia|].
    apply round_pos_normal; [lia|done|lia]. }
  assert (x <= 1) as Hxle.
  { apply round_le_one; [lia|lia|by apply Qlt_le_weak|done]. }
  pose proof (min_one_id x Hxle) as Hm.
  set (m := min_one x) in *.
  assert (0 < m) as Hm0.
  { rewrite Hm. eapply Qlt_le_trans; [apply (pow2_pos (- 63))|done]. }
  assert (pow2 (- 63) <= m) as Hmlow by (by rewrite Hm).
  pose proof (ilog2_ge m (- 63) Hmlow) as Hlogm.
  destruct (round_relative 24 (- 149) m Hm0) as [Hp1 Hp2]; [lia|].
  fold binary32 in Hp1, Hp2. fold p in Hp1, Hp2.
  assert (pow2 (- 63) <= p) as Hplow.
  { eapply Qle_trans; [apply (pow2_le (- 63) (ilog2 m)); lia|].
    apply round_pos_normal; [lia|done|lia]. }
  assert (p <= 1) as Hple.
  { apply round_le_one; [lia|lia|by apply Qlt_le_weak|]. by rewrite Hm. }
  pose proof (pow2_pos (- 63)) as Hpos63.
  rewrite pow2_m53 in Hx1, Hx2. rewrite pow2_m24 in Hp1, Hp2.
  rewrite Hm in Hp1, Hp2.
  split; [lra|]. split; [lra|]. split; [lra|done].
Qed.

Lemma stored_quotient_antitone (a b1 b2 : nat) :
  (0 < a)%nat → (0 < b1)%nat → (b1 ≤ b2)%nat →
  binary32 (min_one (binary64 (Z.of_nat a # Pos.of_nat b2)))
  <= binary32 (min_one (binary64 (Z.of_nat a # Pos.of_nat b1))).
Proof.
  intros Ha Hb1 Hb.
  assert (∀ b, (0 < b)%nat → Z.pos (Pos.of_nat b) = Z.of_nat b) as Hden.
  { intros [|b] ?; lia. }
  assert (∀ b, (0 < b)%nat → 0 < Z.of_nat a # Pos.of_nat b) as Hpos.
  { intros b ?. unfold Qlt. simpl. lia. }
  assert (Z.of_nat a # Pos.of_nat b2 <= Z.of_nat a # Pos.of_nat b1) as Hq.
  { unfold Qle. simpl. rewrite !Hden by lia. nia. }
  pose proof (round_mono 53 (- 1074) ltac:(lia) _ _ (Hpos b2 ltac:(lia)) Hq) as Hx.
  fold binary64 in Hx.
  set (x2 := binary64 (Z.of_nat a # Pos.of_nat b2)) in *.
  set (x1 := binary64 (Z.of_nat a # Pos.of_nat b1)) in *.
  assert (0 <= x2) as Hx0.
  { apply round_nonneg, Qlt_le_weak, Hpos. lia. }
  assert (min_one x2 <= min_one x1) as Hm.
  { unfold min_one.
    destruct (Qlt_le_dec x2 1), (Qlt_le_dec x1 1); lra. }
  assert (0 <= min_one x2) as Hm0.
  { unfold min_one. destruct (Qlt_le_dec x2 1); [done|lra]. }
  destruct (Qeq_dec (min_one x2) 0) as [H0|H0].
  - unfold binary32. rewrite (round_zero _ _ _ H0). apply round_nonneg. lra.
  - apply round_mono; [lia|lra|done].
Qed.

Lemma stored_quotient_one (a b : nat) :
  (0 < a)%nat → a = b →
  binary32 (min_one (binary64 (Z.of_nat a # Pos.of_nat b))) = 1.
Proof.
  intros Ha <-.
  assert (Z.of_nat a # Pos.of_nat a == 1) as Hq.
  { unfold Qeq. simpl. destruct a as [|a]; lia. }
  unfold binary64. rewrite (round_one 53 (- 1074) ltac:(lia) _ ltac:(lia) Hq).
  reflexivity.
Qed.

End FloatRounding.

(** ** Rationals: [min(1, a / b)] *)

Lemma min_one_Qmin (x : Q) : (min_one x == Qmin 1 x)%Q.
Proof.
  unfold min_one. destruct (Qlt_le_dec x 1) as [Hlt|Hle].
  - symmetry. apply Q.min_r. by apply Qlt_le_weak.
  - symmetry. by apply Q.min_l.
Qed.

Lemma Zpos_of_nat (b : nat) : 0 < b → Z.pos (Pos.of_nat b) = Z.of_nat b.
Proof. intros Hb. destruct b as [|b]; [lia|]. lia. Qed.

Lemma truediv_quotient (a b : nat) :
  0 < b →
  (Z.of_nat a # Pos.of_nat b == inject_Z (Z.of_nat a) / inject_Z (Z.of_nat b))%Q.
Proof. intros Hb. rewrite Qmake_Qdiv. by rewrite Zpos_of_nat. Qed.

Lemma quotient_bounds (a b : nat) :
  0 < b → a ≤ b →
  (0 <= Z.of_nat a # Pos.of_nat b)%Q ∧ (Z.of_nat a # Pos.of_nat b <= 1)%Q.
Proof.
  intros Hb Hab. unfold Qle. simpl.
  rewrite Zpos_of_nat by lia. lia.
Qed.

(** No quotient of a count by a larger one overflows. *)
Lemma truediv_Ok (a b : nat) :
  0 < b → a ≤ b →
  truediv a b = Ok (PyFloat.binary64 (Z.of_nat a # Pos.of_nat b)).
Proof.
  intros Hb Hab. unfold truediv. destruct b as [|b]; [lia|].
  destruct (quotient_bounds a (S b) Hb Hab) as [H0 H1].
  pose proof (round_le_one 53 (- 1074) ltac:(lia) _ ltac:(lia) H0 H1) as Hle.
  fold PyFloat.binary64 in Hle.
  destruct (Qle_bool _ _) eqn:Hbig; [|done].
  exfalso. apply Qle_bool_iff in Hbig.
  assert (1 < PyFloat.pow2 1024)%Q as Hone.
  { change 1%Q with (PyFloat.pow2 0). apply pow2_lt. lia. }
  lra.
Qed.

(** ** [min] of the class counts *)

Lemma foldl_min_spec (x : nat) (xs : list nat) :
  foldl Nat.min x xs ∈ x :: xs ∧ ∀ y, y ∈ x :: xs → foldl Nat.min x xs ≤ y.
Proof.
  revert x. induction xs as [|z xs IH]; intros x; simpl.
  - split; [by left|]. intros y Hy. apply list_elem_of_singleton in Hy. lia.
  - destruct (IH (x `min` z)) as [Hin Hle]. split.
    + apply elem_of_cons in Hin as [Heq|Hin].
      * rewrite Heq. destruct (Nat.min_dec x z) as [->| ->]; [by left|].
        right. by left.
      * right. by right.
    + intros y Hy. apply elem_of_cons in Hy as [->|Hy].
      * specialize (Hle (x `min` z)). etrans; [apply Hle; by left|]. lia.
      * apply elem_of_cons in Hy as [->|Hy].
        -- specialize (Hle (x `min` z)). etrans; [apply Hle; by left|]. lia.
        -- apply Hle. by right.
Qed.

Lemma min_list_Ok (xs : list nat) (r : nat) :
  min_list xs = Ok r → r ∈ xs ∧ ∀ y, y ∈ xs → r ≤ y.
Proof.
  destruct xs as [|x xs]; simpl; [done|]. intros [= <-]. apply foldl_min_spec.
Qed.

Lemma min_list_is_Ok (xs : list nat) : xs ≠ [] → is_Ok (min_list xs).
Proof. destruct xs; [done|]. by eexists. Qed.

(** ** The [probabilities] accessor *)

Lemma compute_probabilities_Ok node reference :
  min_list (Node.class_counts node) = Ok reference →
  Forall (λ count, 0 < count) (Node.class_counts node) →
  Node.compute_probabilities node =
    Ok ((λ old_indices : list nat,
           PyFloat.binary32
             (min_one
                (PyFloat.binary64
                   (Z.of_nat reference # Pos.of_nat (length old_indices)))))
          <$> Node.new_to_old node).
Proof.
  intros Hmin Hpos. unfold Node.compute_probabilities. rewrite Hmin. simpl.
  destruct (min_list_Ok _ _ Hmin) as [_ Hleast].
  assert (comprehension
            (λ old_indices : list nat,
               q ← truediv reference (length old_indices); Ok (min_one q))
            (Node.new_to_old node)
          = Ok ((λ old_indices : list nat,
                   min_one
                     (PyFloat.binary64
                        (Z.of_nat reference # Pos.of_nat (length old_indices))))
                  <$> Node.new_to_old node)) as ->.
  { apply comprehension_Ok. apply Forall2_fmap_r, Forall_Forall2_diag.
    apply Forall_forall. intros b Hb.
    assert (length b ∈ Node.class_counts node) as Hmem.
    { unfold Node.class_counts. apply list_elem_of_fmap. by exists b. }
    rewrite Forall_forall in Hpos.
    rewrite (truediv_Ok reference (length b)); [done| |].
    - by apply Hpos.
    - by apply Hleast. }
  simpl. unfold torch.Tensor. by rewrite <- list_fmap_compose.
Qed.

Lemma compute_probabilities_zero node :
  0 ∈ Node.class_counts node →
  Node.compute_probabilities node = Err ZeroDivisionError.
Proof.
  intros Hzero. unfold Node.compute_probabilities.
  destruct (min_list_is_Ok (Node.class_counts node)) as [reference Hmin].
  { intros Hnil. rewrite Hnil in Hzero. by apply elem_of_nil in Hzero. }
  rewrite Hmin. simpl.
  destruct (min_list_Ok _ _ Hmin) as [_ Hleast].
  unfold Node.class_counts in Hzero.
  apply list_elem_of_fmap in Hzero as (b & Hlen & Hb).
  assert (comprehension
            (λ old_indices : list nat,
               q ← truediv reference (length old_indices); Ok (min_one q))
            (Node.new_to_old node) = Err ZeroDivisionError) as ->; [|done].
  apply comprehension_Err.
  - apply Forall_forall. intros b' Hb'. destruct (length b') as [|n] eqn:Hn.
    + by right.
    + left.
      assert (length b' ∈ Node.class_counts node) as Hmem.
      { unfold Node.class_counts. apply list_elem_of_fmap. by exists b'. }
      rewrite Hn in Hmem.
      rewrite (truediv_Ok reference (S n)); [by eexists|lia|by apply Hleast].
  - apply Exists_exists. exists b. split; [done|]. by rewrite <- Hlen.
Qed.

Lemma compute_probabilities_positive node ps :
  Node.compute_probabilities node = Ok ps →
  Forall (λ count, 0 < count) (Node.class_counts node).
Proof.
  intros Hps. apply Forall_forall. intros count Hcount.
  destruct count as [|count]; [|lia].
  rewrite (compute_probabilities_zero _ Hcount) in Hps. done.
Qed.

(** What the first read of [probabilities] returns: the shared part of the
    statements on its entries. *)
Lemma probabilities_first_read get_leaves wnid0 tree wnids classes0 node :
  Node.init get_leaves wnid0 tree wnids classes0 = Ok node →
  Forall (λ count, 0 < count) (Node.class_counts node) →
  ∃ reference,
    min_list (Node.class_counts node) = Ok reference ∧
    0 < reference ∧
    reference ∈ Node.class_counts node ∧
    (∀ count, count ∈ Node.class_counts node → reference ≤ count) ∧
    (∀ count, count ∈ Node.class_counts node → count ≤ length wnids) ∧
    length (Node.new_to_old node) = Node.num_classes node ∧
    Node.probabilities node =
      Ok ((λ old_indices : list nat,
             PyFloat.binary32
               (min_one
                  (PyFloat.binary64
                     (Z.of_nat reference # Pos.of_nat (length old_indices)))))
            <$> Node.new_to_old node,
          Node.set_probabilities node
            ((λ old_indices : list nat,
                PyFloat.binary32
                  (min_one
                     (PyFloat.binary64
                        (Z.of_nat reference # Pos.of_nat (length old_indices)))))
               <$> Node.new_to_old node)).
Proof.
  intros Hinit Hpos. pose proof (init_well_formed _ _ _ _ _ _ Hinit) as Hwf.
  destruct (init_inv _ _ _ _ _ _ Hinit)
    as (_ & _ & _ & _ & _ & HK & _ & _ & _ & _ & _ & _ & Hcache & _).
  pose proof (well_formed_length _ Hwf) as Hlen.
  destruct (min_list_is_Ok (Node.class_counts node)) as [reference Hmin].
  { unfold Node.class_counts. intros Hnil. apply fmap_nil_inv in Hnil.
    rewrite Hnil in Hlen. simpl in Hlen.
    pose proof (wf_children _ Hwf). pose proof (wf_num_classes _ Hwf). lia. }
  destruct (min_list_Ok _ _ Hmin) as [Hin Hleast].
  exists reference. split; [done|]. split.
  { rewrite Forall_forall in Hpos. by apply Hpos. }
  split; [done|]. split; [done|]. split; [|split; [done|]].
  - intros count Hcount. unfold Node.class_counts in Hcount.
    apply list_elem_of_fmap in Hcount as (b & -> & Hb).
    apply list_elem_of_lookup_1 in Hb as [j Hj].
    destruct (well_formed_bucket_lookup _ _ _ Hwf Hj) as [_ ->].
    unfold bucket_of. etrans; [apply length_filter|].
    rewrite length_seq. lia.
  - unfold Node.probabilities. rewrite Hcache.
    by rewrite (compute_probabilities_Ok _ _ Hmin Hpos).
Qed.

(** C5. For a node the constructor returned whose class counts are all
    positive, over fewer than [2 ^ 63] flat classes (as every list of
    CPython has), the first read of [probabilities] returns one entry per
    new class. Entry [i] is [min(1, reference / class_counts[i])] as the
    code computes it, [reference] being the least class count: the quotient
    rounded to a float, cut at 1, and rounded to single precision in the
    tensor. It differs from the exact [min(1, reference / class_counts[i])]
    by at most [2 ^ -23] of that value, lies in (0, 1], and is exactly 1 for
    a class whose count is the least one. *)
Theorem Node_probabilities_spec get_leaves wnid0 tree wnids classes0 node :
  Node.init get_leaves wnid0 tree wnids classes0 = Ok node →
  Forall (λ count, 0 < count) (Node.class_counts node) →
  (Z.of_nat (length wnids) < 2 ^ 63)%Z →
  ∃ ps node' reference,
    Node.probabilities node = Ok (ps, node') ∧
    length ps = Node.num_classes node ∧
    min_list (Node.class_counts node) = Ok reference ∧
    reference ∈ Node.class_counts node ∧
    (∀ count, count ∈ Node.class_counts node → reference ≤ count) ∧
    ∀ i count, Node.class_counts node !! i = Some count →
      ∃ p, ps !! i = Some p ∧
           p = PyFloat.binary32
                 (min_one
                    (PyFloat.binary64
                       (inject_Z (Z.of_nat reference) / inject_Z (Z.of_nat count)))) ∧
           (Qabs (p - Qmin 1 (inject_Z (Z.of_nat reference) / inject_Z (Z.of_nat count)))
            <= Qmin 1 (inject_Z (Z.of_nat reference) / inject_Z (Z.of_nat count))
               * (1 # 8388608))%Q ∧
           (0 < p)%Q ∧ (p <= 1)%Q ∧
           (count = reference → p = 1%Q).
Proof.
  intros Hinit Hpos Hsize.
  destruct (probabilities_first_read _ _ _ _ _ _ Hinit Hpos)
    as (reference & Hmin & Href & Hin & Hleast & Hbound & Hlen & Hps).
  eexists _, _, reference. split; [exact Hps|].
  split; [by rewrite length_fmap|].
  split; [done|]. split; [done|]. split; [done|].
  intros i count Hcount. unfold Node.class_counts in Hcount.
  rewrite list_lookup_fmap in Hcount.
  destruct (Node.new_to_old node !! i) as [b|] eqn:Hb; [|done].
  injection Hcount as <-.
  assert (length b ∈ Node.class_counts node) as Hmem.
  { unfold Node.class_counts. apply list_elem_of_fmap. exists b.
    split; [done|]. by eapply list_elem_of_lookup_2. }
  assert (0 < length b) as Hb_pos.
  { rewrite Forall_forall in Hpos. by apply Hpos. }
  pose proof (Hleast _ Hmem) as Hle. pose proof (Hbound _ Hmem) as Hup.
  pose proof (truediv_quotient reference (length b) Hb_pos) as Hquot.
  destruct (quotient_bounds reference (length b) Hb_pos Hle) as [_ Hq1].
  assert (0 < Z.of_nat reference # Pos.of_nat (length b))%Q as Hq0.
  { unfold Qlt. simpl. lia. }
  destruct (stored_quotient reference (length b) Href Hle ltac:(lia))
    as (Hlow & Hhigh & Hp0 & Hp1).
  eexists. split; [by rewrite list_lookup_fmap, Hb|].
  split; [|split; [|split; [|split]]].
  - f_equal. f_equal. by apply round_comp.
  - rewrite Q.min_r by (by rewrite <- Hquot). rewrite <- Hquot.
    apply Qabs_Qle_condition. split; lra.
  - done.
  - done.
  - intros Heq. by apply stored_quotient_one.
Qed.

Lemma Node_probabilities_spec_witness :
  Node.init xmlutils.get_leaves "root" Examples.wide_tree Examples.wide_wnids
    [] = Ok Examples.wide_node ∧
  Node.class_counts Examples.wide_node = [ 1; 3 ] ∧
  (∃ node', Node.probabilities Examples.wide_node
            = Ok ([ 1%Q; 11184811 # 33554432 ], node')) ∧
  ∃ ps node' reference,
    Node.probabilities Examples.wide_node = Ok (ps, node') ∧
    length ps = Node.num_classes Examples.wide_node ∧
    min_list (Node.class_counts Examples.wide_node) = Ok reference ∧
    reference ∈ Node.class_counts Examples.wide_node ∧
    (∀ count, count ∈ Node.class_counts Examples.wide_node → reference ≤ count) ∧
    ∀ i count, Node.class_counts Examples.wide_node !! i = Some count →
      ∃ p, ps !! i = Some p ∧
           p = PyFloat.binary32
                 (min_one
                    (PyFloat.binary64
                       (inject_Z (Z.of_nat reference) / inject_Z (Z.of_nat count)))) ∧
           (Qabs (p - Qmin 1 (inject_Z (Z.of_nat reference) / inject_Z (Z.of_nat count)))
            <= Qmin 1 (inject_Z (Z.of_nat reference) / inject_Z (Z.of_nat count))
               * (1 # 8388608))%Q ∧
           (0 < p)%Q ∧ (p <= 1)%Q ∧
           (count = reference → p = 1%Q).
Proof.
  split; [vm_compute; reflexivity|]. split; [reflexivity|].
  split; [eexists; vm_compute; reflexivity|].
  apply (Node_probabilities_spec xmlutils.get_leaves "root" Examples.wide_tree
           Examples.wide_wnids []).
  - vm_compute. reflexivity.
  - repeat constructor.
  - simpl. lia.
Defined.

(** C5 as stated fails on [Examples.wide_node], whose class counts are 1 and
    3: the entry of the second class is the single-precision value
    [11184811 / 2 ^ 25] (0.3333333432674408), not [min(1, 1 / 3)]. *)
Lemma Node_probabilities_exact_counterexample :
  Node.init xmlutils.get_leaves "root" Examples.wide_tree Examples.wide_wnids
    [] = Ok Examples.wide_node ∧
  Node.class_counts Examples.wide_node = [ 1; 3 ] ∧
  min_list (Node.class_counts Examples.wide_node) = Ok 1 ∧
  ∃ ps node' p,
    Node.probabilities Examples.wide_node = Ok (ps, node') ∧
    ps !! 1 = Some p ∧
    p = (11184811 # 33554432)%Q ∧
    ¬ (p == Qmin 1 (inject_Z (Z.of_nat 1) / inject_Z (Z.of_nat 3)))%Q.
Proof.
  split; [vm_compute; reflexivity|]. split; [reflexivity|].
  split; [reflexivity|].
  eexists _, _, _. split; [vm_compute; reflexivity|].
  split; [reflexivity|]. split; [reflexivity|].
  vm_compute. discriminate.
Qed.

(** The cache: a second read returns the stored value and leaves the node as
    it is. *)
Lemma Node_probabilities_cached node ps node' :
  Node._probabilities node = None →
  Node.probabilities node = Ok (ps, node') →
  Node.probabilities node' = Ok (ps, node').
Proof.
  unfold Node.probabilities. intros ->. intros H. inv_bind H.
  by injection H as <- <-.
Qed.

(** C9. (1) A flat label that lies in the leaf set of several children is
    mapped to the last of them in document order. (2) This can leave the
    bucket of an earlier child empty: in [Examples.shared_tree] the leaf [a]
    lies under both children of the root, and the bucket of the first child
    is empty. (3) On a node with an empty cache and a class count of 0, the
    read of [probabilities] raises [ZeroDivisionError]. (4) So the read
    returns only if every class count is positive. *)
Theorem Node_shared_leaf_and_empty_bucket :
  (∀ get_leaves wnid0 tree wnids classes0 node v old_index j,
     Node.init get_leaves wnid0 tree wnids classes0 = Ok node →
     find_synset tree wnid0 = Some v →
     last_owner get_leaves wnids (getchildren v) old_index j →
     Node.mapping node !! old_index = Some j) ∧
  (Node.init xmlutils.get_leaves "root" Examples.shared_tree
     Examples.shared_wnids [] = Ok Examples.shared_node ∧
   covers xmlutils.get_leaves Examples.shared_wnids (Examples.leaf "a") 0 ∧
   covers xmlutils.get_leaves Examples.shared_wnids
     (Elem "synset" (Some "b") [Examples.leaf "a"; Examples.leaf "b2"]) 0 ∧
   Node.mapping Examples.shared_node !! 0 = Some 1 ∧
   Node.new_to_old Examples.shared_node = [[]; [0; 1]] ∧
   Node.class_counts Examples.shared_node = [0; 2] ∧
   Node.probabilities Examples.shared_node = Err ZeroDivisionError) ∧
  (∀ node,
     Node._probabilities node = None →
     0 ∈ Node.class_counts node →
     Node.probabilities node = Err ZeroDivisionError) ∧
  (∀ node,
     Node._probabilities node = None →
     is_Ok (Node.probabilities node) →
     Forall (λ count, 0 < count) (Node.class_counts node)).
Proof.
  split; [|split; [|split]].
  - intros get_leaves wnid0 tree wnids classes0 node v o j Hinit Hfind Hown.
    apply (init_mapping _ _ _ _ _ _ _ o j Hinit Hfind). by left.
  - split; [vm_compute; reflexivity|].
    split; [|split; [|split; [|split; [|split]]]].
    + apply Exists_exists. exists (Examples.leaf "a"). split; [|done].
      vm_compute. by left.
    + apply Exists_exists. exists (Examples.leaf "a"). split; [|done].
      vm_compute. by left.
    + by vm_compute.
    + done.
    + done.
    + by vm_compute.
  - intros node Hcache Hzero. unfold Node.probabilities. rewrite Hcache.
    by rewrite (compute_probabilities_zero _ Hzero).
  - intros node Hcache [[ps node'] Hps]. unfold Node.probabilities in Hps.
    rewrite Hcache in Hps. inv_bind Hps.
    by eapply compute_probabilities_positive.
Qed.

Lemma Node_shared_leaf_and_empty_bucket_witness :
  Node.mapping Examples.shared_node !! 0 = Some 1 ∧
  Node.probabilities Examples.shared_node = Err ZeroDivisionError ∧
  Forall (λ count, 0 < count) (Node.class_counts Examples.node_root).
Proof.
  destruct Node_shared_leaf_and_empty_bucket as (Hlast & _ & Hzero & Hpos).
  split; [|split].
  - apply (Hlast xmlutils.get_leaves "root" Examples.shared_tree
             Examples.shared_wnids [] Examples.shared_node
             (Elem "synset" (Some "root")
                [ Examples.leaf "a";
                  Elem "synset" (Some "b") [ Examples.leaf "a"; Examples.leaf "b2" ] ])
             0 1).
    + vm_compute. reflexivity.
    + vm_compute. reflexivity.
    + eexists. split; [reflexivity|]. split.
      * apply Exists_exists. exists (Examples.leaf "a"). split; [|reflexivity].
        vm_compute. by left.
      * intros [|[|[|j']]] child' Hlt Hchild; simpl in Hchild;
          first [lia | discriminate].
  - apply Hzero; [reflexivity|]. unfold Node.class_counts. simpl. by left.
  - apply Hpos; [reflexivity|]. eexists. vm_compute. reflexivity.
Defined.

(** ** Class names: [','.join] and the comma test *)

Lemma contains_app (c : Ascii.ascii) (s1 s2 : string) :
  contains c (s1 +:+ s2) = contains c s1 || contains c s2.
Proof.
  induction s1 as [|a s1 IH]; simpl; [done|].
  case_bool_decide; [done|]. exact IH.
Qed.

Lemma join_cons2 (sep p1 p2 : string) (ps : list string) :
  join sep (p1 :: p2 :: ps) = p1 +:+ sep +:+ join sep (p2 :: ps).
Proof. done. Qed.

Lemma join_several_comma (p1 p2 : string) (ps : list string) :
  contains ","%char (join "," (p1 :: p2 :: ps)) = true.
Proof.
  rewrite join_cons2, !contains_app. simpl.
  by rewrite orb_true_r.
Qed.

(** A joined name passes the test of line 268 exactly when it is the name of a
    single member and that name passes it. *)
Lemma single_name_join (members : list string) :
  single_name (join "," members) = true ↔
  ∃ m, members = [m] ∧ single_name m = true.
Proof.
  destruct members as [|m1 [|m2 ms]].
  - simpl. split; [done|]. by intros (m & ? & _).
  - simpl. split; [by exists m1|]. by intros (m & [= <-] & ?).
  - unfold single_name at 1. rewrite join_several_comma. simpl.
    split; [done|]. by intros (m & ? & _).
Qed.

Lemma class_name_single original_classes old_indices cls :
  Node.class_name original_classes old_indices = Ok cls →
  single_name cls = true →
  ∃ old_index, old_indices = [old_index] ∧
               original_classes !! old_index = Some cls.
Proof.
  unfold Node.class_name. intros H Hs. inv_bind H. injection H as <-.
  apply single_name_join in Hs as (m & -> & Hm).
  apply comprehension_Ok in Ha.
  inversion Ha as [|o ? rest ? Ho Hrest]; subst. inversion Hrest; subst.
  exists o. split; [done|]. by apply getitem_Ok.
Qed.

Lemma class_name_singleton original_classes old_index name :
  original_classes !! old_index = Some name →
  Node.class_name original_classes [old_index] = Ok name.
Proof.
  intros Ho. unfold Node.class_name. simpl.
  apply getitem_Ok in Ho. by rewrite Ho.
Qed.

(** ** [_get_node_weights] *)

Lemma assoc_middle {A} (prefix : list A) (x : A) (rest : list A) :
  prefix ++ x :: rest = (prefix ++ [x]) ++ rest.
Proof. by rewrite <- app_assoc. Qed.

Lemma weight_row_length original_classes k cls :
  length (weight_row original_classes k cls) = k.
Proof.
  unfold weight_row. destruct (single_name cls); [|by rewrite length_replicate].
  destruct (list_index _ _); by rewrite ?length_insert, length_replicate.
Qed.

Lemma fill_weights_Ok original_classes k prefix m names A :
  length names ≤ m →
  PathSanityDataset.fill_weights original_classes (length prefix) names
    (prefix ++ PathSanityDataset.zeros m k) = Ok A →
  A = prefix ++ (weight_row original_classes k <$> names)
        ++ PathSanityDataset.zeros (m - length names) k.
Proof.
  revert prefix m. induction names as [|cls rest IH]; intros prefix m Hlen;
    cbn [PathSanityDataset.fill_weights].
  - intros [= <-]. simpl. by rewrite Nat.sub_0_r.
  - simpl in Hlen. destruct m as [|m]; [lia|].
    fold (single_name cls).
    assert (prefix ++ PathSanityDataset.zeros (S m) k =
            prefix ++ [replicate k 0%Z] ++ PathSanityDataset.zeros m k) as Hsplit
      by done.
    destruct (single_name cls) eqn:Hs.
    + intros H. inv_bind H. rename a into old_index.
      unfold PathSanityDataset.matrix_set in H. inv_bind H. inv_bind Ha0.
      inv_bind Ha0. injection Ha0 as <-.
      apply getitem_Ok in Ha1, Ha2.
      rewrite Hsplit in Ha1. rewrite lookup_app_r in Ha1 by lia.
      rewrite Nat.sub_diag in Ha1. simpl in Ha1. injection Ha1 as <-.
      rewrite Hsplit in H.
      rewrite insert_app_r_alt in H by lia. rewrite Nat.sub_diag in H.
      simpl in H.
      rewrite (assoc_middle prefix) in H.
      replace (S (length prefix))
        with (length (prefix ++ [<[old_index:=1%Z]> (replicate k 0%Z)])) in H
        by (rewrite length_app; simpl; lia).
      apply IH in H; [|lia].
      assert (weight_row original_classes k cls
              = <[old_index:=1%Z]> (replicate k 0%Z)) as Hrow
        by (unfold weight_row; by rewrite Hs, Ha).
      rewrite H, <- app_assoc, fmap_cons, Hrow. done.
    + intros H. rewrite Hsplit in H.
      cbn [app] in H. rewrite (assoc_middle prefix) in H.
      replace (S (length prefix))
        with (length (prefix ++ [replicate k 0%Z])) in H
        by (rewrite length_app; simpl; lia).
      apply IH in H; [|lia].
      assert (weight_row original_classes k cls = replicate k 0%Z) as Hrow
        by (unfold weight_row; by rewrite Hs).
      rewrite H, <- app_assoc, fmap_cons, Hrow. done.
Qed.

Lemma fill_weights_is_Ok original_classes k prefix m names :
  length names ≤ m →
  Forall (λ cls, single_name cls = true →
                 ∃ old_index, list_index original_classes (Some cls) = Ok old_index ∧
                              old_index < k) names →
  is_Ok (PathSanityDataset.fill_weights original_classes (length prefix) names
           (prefix ++ PathSanityDataset.zeros m k)).
Proof.
  intros Hlen Hall. revert prefix m Hlen.
  induction Hall as [|cls rest Hcls _ IH]; intros prefix m Hlen;
    cbn [PathSanityDataset.fill_weights].
  - by eexists.
  - simpl in Hlen. destruct m as [|m]; [lia|].
    fold (single_name cls).
    assert (prefix ++ PathSanityDataset.zeros (S m) k =
            prefix ++ [replicate k 0%Z] ++ PathSanityDataset.zeros m k) as Hsplit
      by done.
    destruct (single_name cls) eqn:Hs.
    + destruct (Hcls eq_refl) as (old_index & Hidx & Hlt).
      rewrite Hidx. cbn [mbind result_bind].
      unfold PathSanityDataset.matrix_set. rewrite Hsplit.
      assert (getitem (prefix ++ [replicate k 0%Z] ++ PathSanityDataset.zeros m k)
                (length prefix) = Ok (replicate k 0%Z)) as Hrow.
      { apply getitem_Ok. rewrite lookup_app_r by lia. by rewrite Nat.sub_diag. }
      assert (getitem (replicate k 0%Z) old_index = Ok 0%Z) as Hcell.
      { apply getitem_Ok. by apply lookup_replicate_2. }
      rewrite Hrow. cbn [mbind result_bind]. rewrite Hcell.
      cbn [mbind result_bind].
      rewrite insert_app_r_alt by lia. rewrite Nat.sub_diag.
      cbn [insert list_insert app].
      rewrite (assoc_middle prefix).
      replace (S (length prefix))
        with (length (prefix ++ [<[old_index:=1%Z]> (replicate k 0%Z)]))
        by (rewrite length_app; simpl; lia).
      apply IH. lia.
    + rewrite Hsplit.
      cbn [app]. rewrite (assoc_middle prefix).
      replace (S (length prefix))
        with (length (prefix ++ [replicate k 0%Z]))
        by (rewrite length_app; simpl; lia).
      apply IH. lia.
Qed.

Lemma well_formed_names_length node :
  well_formed node → Node.original_classes node ≠ [] →
  length (Node.classes node) = Node.num_classes node.
Proof.
  intros Hwf Hne. pose proof (wf_names _ Hwf) as Hnames.
  destruct (Node.original_classes node); [done|].
  apply comprehension_length in Hnames.
  by rewrite Hnames, well_formed_length.
Qed.

Lemma well_formed_name_lookup node j bucket :
  well_formed node → Node.original_classes node ≠ [] →
  Node.new_to_old node !! j = Some bucket →
  ∃ cls, Node.classes node !! j = Some cls ∧
         Node.class_name (Node.original_classes node) bucket = Ok cls.
Proof.
  intros Hwf Hne Hb. pose proof (wf_names _ Hwf) as Hnames.
  destruct (Node.original_classes node) as [|c cs]; [done|].
  by eapply comprehension_lookup.
Qed.

Section NodeWeights.

Context {Sample : Type}.
Variable self : PathSanityDataset.t Sample.

Let k : nat := length (Dataset.classes (PathSanityDataset.dataset self)).

(** The matrix of one node: one row per class name, or zeros when the node
    has no class names. *)
Lemma node_weights_Ok node A :
  well_formed node →
  PathSanityDataset._get_node_weights self node = Ok A →
  A = match Node.original_classes node with
      | [] => PathSanityDataset.zeros (Node.num_classes node) k
      | _ :: _ => weight_row (Node.original_classes node) k <$> Node.classes node
      end.
Proof.
  intros Hwf. unfold PathSanityDataset._get_node_weights. fold k.
  pose proof (wf_names _ Hwf) as Hnames.
  destruct (Node.original_classes node) as [|c cs] eqn:Horig.
  - rewrite Hnames. simpl. by intros [= <-].
  - intros H.
    assert (length (Node.classes node) = Node.num_classes node) as Hlen.
    { apply well_formed_names_length; [done|]. by rewrite Horig. }
    apply (fill_weights_Ok _ _ [] (Node.num_classes node)) in H; [|lia].
    rewrite H, Hlen, Nat.sub_diag. simpl. by rewrite app_nil_r.
Qed.

Lemma node_weights_is_Ok node :
  well_formed node →
  Node.original_classes node = Dataset.classes (PathSanityDataset.dataset self) →
  is_Ok (PathSanityDataset._get_node_weights self node).
Proof.
  intros Hwf Horig. unfold PathSanityDataset._get_node_weights. fold k.
  pose proof (wf_names _ Hwf) as Hnames.
  destruct (Node.original_classes node) as [|c cs] eqn:Hoc.
  - rewrite Hnames. by eexists.
  - apply (fill_weights_is_Ok _ _ [] (Node.num_classes node)).
    + rewrite well_formed_names_length; [done..|]. by rewrite Hoc.
    + apply comprehension_Ok in Hnames.
      apply Forall_forall. intros cls Hcls Hsingle.
      apply list_elem_of_lookup_1 in Hcls as [j Hj].
      destruct (Forall2_lookup_r _ _ _ _ _ Hnames Hj) as (bucket & _ & Hname).
      destruct (class_name_single _ _ _ Hname Hsingle) as (o & _ & Ho).
      destruct (index_from_is_Ok cls (c :: cs) 0) as [old_index Hidx].
      { by eapply list_elem_of_lookup_2. }
      exists old_index. split; [done|].
      unfold k. rewrite <- Horig.
      by apply (list_index_lt _ (Some cls)).
Qed.

Lemma node_weights_length node A :
  well_formed node →
  PathSanityDataset._get_node_weights self node = Ok A →
  length A = Node.num_classes node ∧ Forall (λ row, length row = k) A.
Proof.
  intros Hwf HA. pose proof (node_weights_Ok _ _ Hwf HA) as ->.
  destruct (Node.original_classes node) as [|c cs] eqn:Horig.
  - unfold PathSanityDataset.zeros. rewrite length_replicate. split; [done|].
    apply Forall_replicate. by rewrite length_replicate.
  - rewrite length_fmap. split.
    + apply well_formed_names_length; [done|]. by rewrite Horig.
    + apply Forall_fmap, Forall_forall. intros cls _. apply weight_row_length.
Qed.

End NodeWeights.

(** C10. [_get_node_weights] decides by the class name alone: the name of a
    new class is the names of its members joined by commas, and its row is
    [weight_row] of that name, which is zero unless the name is non-empty and
    holds no comma. So the row of a new class whose single member has a comma
    in its name stays zero, like the row of a merged class. *)
Theorem node_weights_decided_by_name {Sample} get_leaves wnid0 tree wnids
    (self : PathSanityDataset.t Sample) node A :
  Node.init get_leaves wnid0 tree wnids
    (Dataset.classes (PathSanityDataset.dataset self)) = Ok node →
  Dataset.classes (PathSanityDataset.dataset self) ≠ [] →
  PathSanityDataset._get_node_weights self node = Ok A →
  (∀ j bucket, Node.new_to_old node !! j = Some bucket →
     ∃ members,
       Forall2 (λ old_index name,
                  Dataset.classes (PathSanityDataset.dataset self) !! old_index
                  = Some name) bucket members ∧
       Node.classes node !! j = Some (join "," members) ∧
       A !! j = Some (weight_row
                        (Dataset.classes (PathSanityDataset.dataset self))
                        (length (Dataset.classes (PathSanityDataset.dataset self)))
                        (join "," members))) ∧
  (∀ cls, negb (contains ","%char cls) && truthy cls = false →
          weight_row (Dataset.classes (PathSanityDataset.dataset self))
            (length (Dataset.classes (PathSanityDataset.dataset self))) cls
          = replicate (length (Dataset.classes (PathSanityDataset.dataset self))) 0%Z) ∧
  (∀ j old_index name,
     Node.new_to_old node !! j = Some [old_index] →
     Dataset.classes (PathSanityDataset.dataset self) !! old_index = Some name →
     contains ","%char name = true →
     A !! j = Some (replicate
                      (length (Dataset.classes (PathSanityDataset.dataset self)))
                      0%Z)).
Proof.
  intros Hinit Hne HA.
  set (original_classes := Dataset.classes (PathSanityDataset.dataset self)) in *.
  set (k := length original_classes).
  pose proof (init_well_formed _ _ _ _ _ _ Hinit) as Hwf.
  destruct (init_inv _ _ _ _ _ _ Hinit)
    as (_ & _ & _ & _ & _ & _ & _ & _ & _ & _ & Horig & _).
  pose proof (node_weights_Ok self node A Hwf HA) as HA'.
  rewrite Horig in HA'. fold original_classes k in HA'.
  destruct original_classes as [|c cs] eqn:Hoc; [done|]. rewrite <- Hoc in *.
  assert (∀ j bucket, Node.new_to_old node !! j = Some bucket →
     ∃ members,
       Forall2 (λ old_index name, original_classes !! old_index = Some name)
               bucket members ∧
       Node.classes node !! j = Some (join "," members) ∧
       A !! j = Some (weight_row original_classes k (join "," members))) as Hrows.
  { intros j bucket Hb.
    destruct (well_formed_name_lookup node j bucket Hwf) as (cls & Hcls & Hname);
      [by rewrite Horig|done|].
    rewrite Horig in Hname. unfold Node.class_name in Hname. inv_bind Hname.
    injection Hname as <-. rename a into members.
    exists members. split; [|split; [done|]].
    - apply comprehension_Ok in Ha. eapply Forall2_impl; [exact Ha|].
      intros o name Ho. by apply getitem_Ok.
    - by rewrite HA', list_lookup_fmap, Hcls. }
  split; [exact Hrows|]. split.
  - intros cls Htest. unfold weight_row, single_name. by rewrite Htest.
  - intros j o name Hb Ho Hcomma.
    destruct (Hrows j [o] Hb) as (members & Hmem & _ & Hrow).
    inversion Hmem as [|? m ? ms Hm Hrest]; subst. inversion Hrest; subst.
    assert (m = name) as -> by congruence.
    rewrite Hrow. f_equal. unfold weight_row, single_name. simpl.
    by rewrite Hcomma.
Qed.

Lemma node_weights_decided_by_name_witness :
  let A := [ [ 0; 1; 0 ]; [ 0; 0; 1 ]; [ 0; 0; 0 ] ]%Z in
  Node.init xmlutils.get_leaves "b" Examples.tree Examples.wnids
    Examples.comma_classes = Ok Examples.comma_node_b ∧
  PathSanityDataset._get_node_weights Examples.comma_view Examples.comma_node_b
    = Ok A ∧
  Node.new_to_old Examples.comma_node_b !! 2 = Some [0] ∧
  Examples.comma_classes !! 0 = Some "cat, wild" ∧
  (∀ j bucket, Node.new_to_old Examples.comma_node_b !! j = Some bucket →
     ∃ members,
       Forall2 (λ old_index name, Examples.comma_classes !! old_index = Some name)
               bucket members ∧
       Node.classes Examples.comma_node_b !! j = Some (join "," members) ∧
       A !! j = Some (weight_row Examples.comma_classes 3 (join "," members))) ∧
  (∀ cls, negb (contains ","%char cls) && truthy cls = false →
          weight_row Examples.comma_classes 3 cls = replicate 3 0%Z) ∧
  (∀ j old_index name,
     Node.new_to_old Examples.comma_node_b !! j = Some [old_index] →
     Examples.comma_classes !! old_index = Some name →
     contains ","%char name = true →
     A !! j = Some (replicate 3 0%Z)).
Proof.
  cbv zeta. split; [vm_compute; reflexivity|].
  split; [vm_compute; reflexivity|].
  split; [reflexivity|]. split; [reflexivity|].
  apply (node_weights_decided_by_name xmlutils.get_leaves "b" Examples.tree
           Examples.wnids Examples.comma_view Examples.comma_node_b).
  - vm_compute. reflexivity.
  - discriminate.
  - vm_compute. reflexivity.
Defined.

(** ** Stacking and transposing *)

Lemma entry_transpose (k : nat) (M : list (list Z)) (r c : nat) :
  r < k → entry (PathSanityDataset.transpose k M) r c = entry M c r.
Proof.
  intros Hr. unfold entry, PathSanityDataset.transpose.
  rewrite list_lookup_fmap, lookup_seq_lt by done. simpl.
  rewrite list_lookup_fmap. by destruct (M !! c).
Qed.

Lemma transpose_shape (k : nat) (M : list (list Z)) :
  length (PathSanityDataset.transpose k M) = k ∧
  Forall (λ row, length row = length M) (PathSanityDataset.transpose k M).
Proof.
  unfold PathSanityDataset.transpose. split.
  - by rewrite length_fmap, length_seq.
  - apply Forall_fmap, Forall_forall. intros j _. simpl. by rewrite length_fmap.
Qed.

Lemma concat_lookup_block {A} (blocks : list (list A)) (i j : nat) (block : list A) :
  blocks !! i = Some block → j < length block →
  concat blocks !! (length (concat (take i blocks)) + j) = block !! j.
Proof.
  revert i. induction blocks as [|b blocks IH]; intros i Hi Hj; [done|].
  destruct i as [|i]; simpl in *.
  - injection Hi as ->. by rewrite lookup_app_l.
  - rewrite length_app, <- Nat.add_assoc.
    rewrite lookup_app_r by lia.
    replace (length b + (length (concat (take i blocks)) + j) - length b)
      with (length (concat (take i blocks)) + j) by lia.
    by apply IH.
Qed.

Lemma dim_cons (node : Node.t) (nodes : list Node.t) :
  Node.dim (node :: nodes) = Node.num_classes node + Node.dim nodes.
Proof. done. Qed.

Lemma dim_lengths (nodes : list Node.t) (blocks : list (list (list Z))) :
  Forall2 (λ node block, length block = Node.num_classes node) nodes blocks →
  length (concat blocks) = Node.dim nodes.
Proof.
  induction 1 as [|node block nodes blocks Hlen _ IH]; [done|].
  rewrite dim_cons. simpl. by rewrite length_app, Hlen, IH.
Qed.

Lemma dim_decompose (nodes : list Node.t) (c : nat) :
  c < Node.dim nodes →
  ∃ i node j, nodes !! i = Some node ∧ j < Node.num_classes node ∧
              c = offset nodes i + j.
Proof.
  unfold offset. revert c.
  induction nodes as [|node nodes IH]; intros c Hc.
  - unfold Node.dim in Hc. simpl in Hc. lia.
  - rewrite dim_cons in Hc.
    destruct (decide (c < Node.num_classes node)) as [Hlt|Hge].
    + exists 0, node, c. by repeat split.
    + destruct (IH (c - Node.num_classes node)) as (i & nd & j & Hi & Hj & Heq);
        [lia|].
      exists (S i), nd, j. split; [done|]. split; [done|].
      cbn [take]. rewrite dim_cons. lia.
Qed.

(** ** The nodes of a view come from the constructor *)

Lemma collect_nodes_built get_leaves vertices tree wnids classes0 acc wnid_to_node :
  Node.collect_nodes get_leaves vertices tree wnids classes0 acc = Ok wnid_to_node →
  (∀ w node, acc !! w = Some node →
             Node.init get_leaves w tree wnids classes0 = Ok node) →
  ∀ w node, wnid_to_node !! w = Some node →
            Node.init get_leaves w tree wnids classes0 = Ok node.
Proof.
  revert acc. induction vertices as [|vertex rest IH]; intros acc; simpl.
  - by intros [= <-].
  - destruct (get_wnid vertex) as [w0|]; [|by apply IH].
    case_bool_decide as Hleaf; [by apply IH|].
    intros H Hacc. inv_bind H. eapply IH; [exact H|].
    intros w node Hw. destruct (decide (w0 = w)) as [->|Hne].
    + rewrite lookup_insert_eq in Hw. by injection Hw as <-.
    + rewrite lookup_insert_ne in Hw by done. by apply Hacc.
Qed.

Lemma get_nodes_built get_leaves tree wnids classes0 nodes :
  Node.get_nodes get_leaves tree wnids classes0 = Ok nodes →
  Forall (λ node, ∃ w, Node.init get_leaves w tree wnids classes0 = Ok node) nodes.
Proof.
  unfold Node.get_nodes, Node.get_wnid_to_node. intros H. inv_bind H.
  apply comprehension_Ok in H. apply Forall_forall. intros node Hnode.
  apply list_elem_of_lookup_1 in Hnode as [i Hi].
  destruct (Forall2_lookup_r _ _ _ _ _ H Hi) as (w & _ & Hw).
  exists w. destruct (a !! w) as [node'|] eqn:Hlook; simpl in Hw; [|done].
  injection Hw as ->.
  eapply collect_nodes_built; [exact Ha| |exact Hlook].
  intros w' node' Hempty. by rewrite lookup_empty in Hempty.
Qed.

Lemma PathSanityDataset_init_inv {Sample} get_leaves tree wnids
    (ds : Dataset.t Sample) self :
  PathSanityDataset.init get_leaves tree wnids ds = Ok self →
  PathSanityDataset.dataset self = ds ∧
  PathSanityDataset.classes self = Dataset.classes ds ∧
  Forall (λ node, ∃ w, Node.init get_leaves w tree wnids (Dataset.classes ds)
                       = Ok node) (PathSanityDataset.nodes self).
Proof.
  unfold PathSanityDataset.init. intros H. inv_bind H. injection H as <-.
  simpl. split; [done|]. split; [done|]. by eapply get_nodes_built.
Qed.

(** ** [get_weights] *)

(** With distinct class names that all pass the test of line 268, the row of a
    new class holds a 1 in column [r] exactly when [r] is its only member. *)
Lemma weight_row_entry original_classes bucket cls r :
  NoDup original_classes →
  Forall (λ name, single_name name = true) original_classes →
  Node.class_name original_classes bucket = Ok cls →
  r < length original_classes →
  default 0%Z (weight_row original_classes (length original_classes) cls !! r)
  = if decide (bucket = [r]) then 1%Z else 0%Z.
Proof.
  intros Hnd Hnames Hcls Hr. unfold weight_row.
  destruct (single_name cls) eqn:Hs.
  - destruct (class_name_single _ _ _ Hcls Hs) as (o & -> & Ho).
    rewrite (list_index_NoDup _ _ _ Hnd Ho).
    destruct (decide (o = r)) as [->|Hne].
    + rewrite decide_True by done.
      rewrite list_lookup_insert_eq; [done|]. by rewrite length_replicate.
    + rewrite decide_False by congruence.
      rewrite list_lookup_insert_ne by done.
      by rewrite lookup_replicate_2.
  - rewrite lookup_replicate_2 by done. simpl.
    case_decide as Hb; [|done]. subst bucket.
    destruct (lookup_lt_is_Some_2 original_classes r Hr) as [name Hname].
    rewrite (class_name_singleton _ _ _ Hname) in Hcls. injection Hcls as <-.
    rewrite Forall_forall in Hnames.
    rewrite Hnames in Hs; [done|]. by eapply list_elem_of_lookup_2.
Qed.

(** The amended C6. For a view built by the constructor over at least one
    node, whose class names are distinct, non-empty and free of commas,
    [get_weights] returns a matrix with one row per flat class and one column
    per position of the concatenated label vector, [K x total_dimension]: the
    node blocks are stacked and then transposed. In the column of new class
    [j] of node number [i], the entry of row [old_index] is 1 when
    [old_index] is the only member of that class, the catch-all class
    included, and 0 otherwise; so the column of a class with several members,
    or with none, is zero. *)
Theorem get_weights_transposed {Sample} get_leaves tree wnids
    (ds : Dataset.t Sample) self :
  PathSanityDataset.init get_leaves tree wnids ds = Ok self →
  PathSanityDataset.nodes self ≠ [] →
  NoDup (Dataset.classes ds) →
  Forall (λ name, negb (contains ","%char name) && truthy name = true)
         (Dataset.classes ds) →
  ∃ W,
    PathSanityDataset.get_weights self = Ok W ∧
    length W = length (Dataset.classes ds) ∧
    Forall (λ row, length row = PathSanityDataset.get_input_dim self) W ∧
    ∀ i node j bucket old_index,
      PathSanityDataset.nodes self !! i = Some node →
      Node.new_to_old node !! j = Some bucket →
      old_index < length (Dataset.classes ds) →
      entry W old_index (offset (PathSanityDataset.nodes self) i + j)
      = if decide (bucket = [old_index]) then 1%Z else 0%Z.
Proof.
  intros Hinit Hne Hnd Hnames.
  destruct (PathSanityDataset_init_inv _ _ _ _ _ Hinit) as (Hds & _ & Hbuilt).
  assert (Forall (λ node, well_formed node ∧
                          Node.original_classes node = Dataset.classes ds)
                 (PathSanityDataset.nodes self)) as Hwf.
  { eapply Forall_impl; [exact Hbuilt|]. intros node [w Hw]. split.
    - by eapply init_well_formed.
    - by destruct (init_inv _ _ _ _ _ _ Hw)
        as (_ & _ & _ & _ & _ & _ & _ & _ & _ & _ & Horig & _). }
  destruct (comprehension_is_Ok (PathSanityDataset._get_node_weights self)
              (PathSanityDataset.nodes self)) as [blocks Hblocks].
  { eapply Forall_impl; [exact Hwf|]. intros node [Hnode Horig].
    apply node_weights_is_Ok; [done|]. by rewrite Hds. }
  assert (Forall2 (λ node block,
                     PathSanityDataset._get_node_weights self node = Ok block)
                  (PathSanityDataset.nodes self) blocks) as Hall
    by (by apply comprehension_Ok).
  assert (Forall2 (λ node block, length block = Node.num_classes node)
                  (PathSanityDataset.nodes self) blocks) as Hlens.
  { apply Forall2_same_length_lookup. split; [by eapply Forall2_length|].
    intros i node block Hi Hb.
    rewrite Forall_forall in Hwf.
    destruct (Hwf node) as [Hnode _]; [by eapply list_elem_of_lookup_2|].
    pose proof (Forall2_lookup_lr _ _ _ _ _ _ Hall Hi Hb) as Hw.
    by destruct (node_weights_length self node block Hnode Hw). }
  exists (PathSanityDataset.transpose (length (Dataset.classes ds)) (concat blocks)).
  destruct (transpose_shape (length (Dataset.classes ds)) (concat blocks))
    as [Hrows Hcols].
  split; [|split; [done|split]].
  - unfold PathSanityDataset.get_weights. rewrite Hblocks. simpl.
    destruct blocks as [|block blocks'].
    + apply Forall2_length in Hall.
      destruct (PathSanityDataset.nodes self); done.
    + simpl. by rewrite Hds.
  - unfold PathSanityDataset.get_input_dim.
    by rewrite <- (dim_lengths _ _ Hlens).
  - intros i node j bucket r Hi Hb Hr.
    rewrite entry_transpose by done.
    rewrite Forall_forall in Hwf.
    destruct (Hwf node) as [Hnode Horig]; [by eapply list_elem_of_lookup_2|].
    destruct (Forall2_lookup_l _ _ _ _ _ Hall Hi) as (block & Hblock & Hw).
    assert (j < length block) as Hj.
    { rewrite (Forall2_lookup_lr _ _ _ _ _ _ Hlens Hi Hblock).
      rewrite <- (well_formed_length _ Hnode). by eapply lookup_lt_Some. }
    unfold offset.
    rewrite <- (dim_lengths (take i (PathSanityDataset.nodes self)) (take i blocks))
      by (by apply Forall2_take).
    unfold entry. rewrite (concat_lookup_block _ _ _ _ Hblock Hj).
    pose proof (node_weights_Ok self node block Hnode Hw) as ->.
    rewrite Hds, Horig.
    destruct (Dataset.classes ds) as [|c cs] eqn:Hcs; [simpl in Hr; lia|].
    rewrite <- Hcs in *.
    destruct (well_formed_name_lookup node j bucket Hnode) as (cls & Hcls & Hname);
      [by rewrite Horig, Hcs|done|].
    rewrite list_lookup_fmap, Hcls. simpl.
    rewrite Horig in Hname.
    by apply weight_row_entry.
Qed.

Lemma get_weights_transposed_witness :
  PathSanityDataset.init xmlutils.get_leaves Examples.tree Examples.wnids
    Examples.source = Ok Examples.view ∧
  PathSanityDataset.get_weights Examples.view = Ok Examples.weights ∧
  ∃ W,
    PathSanityDataset.get_weights Examples.view = Ok W ∧
    length W = 3 ∧
    Forall (λ row, length row = PathSanityDataset.get_input_dim Examples.view) W ∧
    ∀ i node j bucket old_index,
      PathSanityDataset.nodes Examples.view !! i = Some node →
      Node.new_to_old node !! j = Some bucket →
      old_index < 3 →
      entry W old_index (offset (PathSanityDataset.nodes Examples.view) i + j)
      = if decide (bucket = [old_index]) then 1%Z else 0%Z.
Proof.
  split; [vm_compute; reflexivity|]. split; [vm_compute; reflexivity|].
  apply (get_weights_transposed xmlutils.get_leaves Examples.tree Examples.wnids
           Examples.source Examples.view).
  - vm_compute. reflexivity.
  - discriminate.
  - apply (bool_decide_unpack _). vm_compute. exact I.
  - repeat constructor.
Defined.

(** C6 as stated fails on [Examples.view], whose concatenated label vector has
    5 positions over 3 flat classes: the matrix returned has 3 rows of 5
    entries, not 5 rows of 3; read with rows as new classes, the entry of the
    first class of node [b] (the class of the flat label 1) in column 1 is not
    1; and the catch-all class of node [b], which has the single member 0,
    has a 1 in its column. *)
Lemma get_weights_shape_counterexample :
  PathSanityDataset.init xmlutils.get_leaves Examples.tree Examples.wnids
    Examples.source = Ok Examples.view ∧
  PathSanityDataset.get_weights Examples.view = Ok Examples.weights ∧
  PathSanityDataset.get_input_dim Examples.view = 5 ∧
  length (Dataset.classes Examples.source) = 3 ∧
  ¬ (length Examples.weights = PathSanityDataset.get_input_dim Examples.view ∧
     Forall (λ row, length row = length (Dataset.classes Examples.source))
            Examples.weights) ∧
  PathSanityDataset.nodes Examples.view !! 0 = Some Examples.node_b ∧
  Node.new_to_old Examples.node_b !! 0 = Some [1] ∧
  entry Examples.weights (offset (PathSanityDataset.nodes Examples.view) 0 + 0) 1
    ≠ 1%Z ∧
  Node.num_children Examples.node_b = 2 ∧
  Node.new_to_old Examples.node_b !! 2 = Some [0] ∧
  entry Examples.weights 0 (offset (PathSanityDataset.nodes Examples.view) 0 + 2)
    = 1%Z.
Proof.
  split; [vm_compute; reflexivity|]. split; [vm_compute; reflexivity|].
  split; [reflexivity|]. split; [reflexivity|].
  split; [intros [Hrows _]; vm_compute in Hrows; discriminate|].
  split; [reflexivity|]. split; [reflexivity|].
  split; [vm_compute; discriminate|].
  split; [reflexivity|]. split; [reflexivity|].
  vm_compute. reflexivity.
Qed.

(** ** The label-subset views *)

(** The indices [IncludeLabelsDataset.scan] adds: the positions, counted from
    [old], of the items whose label is kept. *)
Lemma scan_spec {Sample} (include_labels : gset nat) (old : nat)
    (items : list (Sample * nat)) (acc : list nat) :
  IncludeLabelsDataset.scan include_labels old items acc =
  acc ++ (filter (λ p, p.2.2 ∈ include_labels) (zip (seq old (length items)) items)).*1.
Proof.
  revert old acc. induction items as [|[sample label] rest IH]; intros old acc.
  - simpl. by rewrite app_nil_r.
  - cbn [IncludeLabelsDataset.scan length seq zip zip_with].
    rewrite filter_cons. simpl. case_bool_decide as Hin.
    + rewrite decide_True by done. rewrite IH, <- app_assoc. done.
    + rewrite decide_False by done. by rewrite IH.
Qed.

(** The kept-index list of [build_index_mapping]: the indices of the source,
    in scan order, whose label is kept, cut by [num_samples] when it is not
    0; and the length of the view is the length of that list. *)
Lemma build_index_mapping_spec {Sample} (ds : Dataset.t Sample)
    (include_labels : gset nat) (num_samples : Z) :
  let kept := (filter (λ p, p.2.2 ∈ include_labels)
                 (zip (seq 0 (Dataset.len ds)) (Dataset.items ds))).*1 in
  IncludeLabelsDataset.build_index_mapping ds include_labels num_samples =
  if bool_decide (num_samples = 0%Z) then kept else slice_to kept num_samples.
Proof.
  unfold IncludeLabelsDataset.build_index_mapping. rewrite scan_spec. simpl.
  unfold Dataset.len. repeat case_bool_decide; done.
Qed.

(** Under a global namespace that binds [new_to_old] to the kept-index list of
    the view, [__getitem__] would return the sample of the source at the
    [new_]-th kept index. *)
Lemma getitem_in_bound {Sample} (globals : gmap string Globals.pyobj)
    (self : IncludeLabelsDataset.t Sample) (new_ old : nat) :
  globals !! "new_to_old"
    = Some (Globals.PyIndexList (IncludeLabelsDataset.new_to_old self)) →
  IncludeLabelsDataset.new_to_old self !! new_ = Some old →
  IncludeLabelsDataset.getitem_in globals self (Z.of_nat new_)
  = Dataset.getitem (IncludeLabelsDataset.dataset self) old.
Proof.
  intros Hbound Hold. unfold IncludeLabelsDataset.getitem_in. rewrite Hbound.
  unfold getitem_int. rewrite (proj2 (Z.leb_le 0 _)) by lia.
  rewrite Nat2Z.id. apply getitem_Ok in Hold. by rewrite Hold.
Qed.

(** The module binds no global [new_to_old]: every read of a view raises
    [NameError]. *)
Lemma getitem_NameError {Sample} (self : IncludeLabelsDataset.t Sample) (new_ : Z) :
  IncludeLabelsDataset.getitem self new_ = Err (NameError "new_to_old").
Proof. reflexivity. Qed.

(** C1, on the code. On a source of four samples with the labels 0, 1, 0, 2,
    the view that keeps the labels 0 and 1 with [num_samples = 0] has the
    kept-index list [0; 1; 2] and the length 3, as the claim says; but reading
    it at index 0, where the claim promises the sample of the source at index
    0, raises [NameError]: line 369 reads the unbound name [new_to_old], not
    [self.new_to_old]. *)
Theorem IncludeLabels_getitem_raises :
  ∃ view,
    IncludeLabelsDataset.init Examples.source {[ 0; 1 ]} 0 = Ok view ∧
    IncludeLabelsDataset.new_to_old view = [ 0; 1; 2 ] ∧
    IncludeLabelsDataset.len view = 3 ∧
    Dataset.getitem Examples.source 0 = Ok (tt, 0) ∧
    IncludeLabelsDataset.getitem view 0 = Err (NameError "new_to_old").
Proof.
  eexists. split; [vm_compute; reflexivity|].
  split; [vm_compute; reflexivity|]. split; [vm_compute; reflexivity|].
  split; [reflexivity|]. reflexivity.
Qed.

(** C7. For every source, exclude set and sample cap, the exclude-labels view
    is the include-labels view of any include set that holds exactly the
    labels of [0, K) outside the exclude set, [K] being the number of classes
    of the source: the two constructions return the same object or raise the
    same exception, so the two views have the same length, the same kept
    indices and the same outcome of a read at every index, as the module runs
    it and under any binding of the global names. *)
Theorem ExcludeLabels_is_IncludeLabels {Sample} (ds : Dataset.t Sample)
    (exclude_labels include_labels : gset nat) (num_samples : Z) :
  (∀ label, label ∈ include_labels ↔
            label < length (Dataset.classes ds) ∧ label ∉ exclude_labels) →
  ExcludeLabelsDataset.init ds exclude_labels num_samples
  = IncludeLabelsDataset.init ds include_labels num_samples ∧
  ∀ excluding including,
    ExcludeLabelsDataset.init ds exclude_labels num_samples = Ok excluding →
    IncludeLabelsDataset.init ds include_labels num_samples = Ok including →
    IncludeLabelsDataset.len excluding = IncludeLabelsDataset.len including ∧
    IncludeLabelsDataset.new_to_old excluding
    = IncludeLabelsDataset.new_to_old including ∧
    (∀ new_, IncludeLabelsDataset.getitem excluding new_
             = IncludeLabelsDataset.getitem including new_) ∧
    (∀ globals new_, IncludeLabelsDataset.getitem_in globals excluding new_
                     = IncludeLabelsDataset.getitem_in globals including new_).
Proof.
  intros Hset.
  assert (list_to_set (seq 0 (length (Dataset.classes ds))) ∖ exclude_labels
          = include_labels) as Heq.
  { apply set_eq. intros label.
    rewrite elem_of_difference, elem_of_list_to_set, elem_of_seq, Hset.
    intuition lia. }
  assert (ExcludeLabelsDataset.init ds exclude_labels num_samples
          = IncludeLabelsDataset.init ds include_labels num_samples) as Hinit.
  { unfold ExcludeLabelsDataset.init. by rewrite Heq. }
  split; [done|]. intros excluding including Hex Hin.
  rewrite Hinit, Hin in Hex. by injection Hex as ->.
Qed.

Lemma ExcludeLabels_is_IncludeLabels_witness :
  length (Dataset.classes Examples.source) = 3 ∧
  ExcludeLabelsDataset.init Examples.source {[ 0 ]} 0
  = IncludeLabelsDataset.init Examples.source {[ 1; 2 ]} 0 ∧
  ∀ excluding including,
    ExcludeLabelsDataset.init Examples.source {[ 0 ]} 0 = Ok excluding →
    IncludeLabelsDataset.init Examples.source {[ 1; 2 ]} 0 = Ok including →
    IncludeLabelsDataset.len excluding = IncludeLabelsDataset.len including ∧
    IncludeLabelsDataset.new_to_old excluding
    = IncludeLabelsDataset.new_to_old including ∧
    (∀ new_, IncludeLabelsDataset.getitem excluding new_
             = IncludeLabelsDataset.getitem including new_) ∧
    (∀ globals new_, IncludeLabelsDataset.getitem_in globals excluding new_
                     = IncludeLabelsDataset.getitem_in globals including new_).
Proof.
  split; [reflexivity|].
  apply (ExcludeLabels_is_IncludeLabels Examples.source {[ 0 ]} {[ 1; 2 ]} 0).
  intros label. rewrite elem_of_union, !elem_of_singleton. simpl.
  intuition lia.
Defined.

(** C8. Whatever the source and the sample cap, constructing an include-labels
    view with an empty label set raises the assertion error of line 347, the
    error of an empty selection. *)
Theorem IncludeLabels_empty_fails {Sample} (ds : Dataset.t Sample) (num_samples : Z) :
  IncludeLabelsDataset.init ds ∅ num_samples
  = Err (AssertionError "No labels are included in `include_labels`").
Proof. reflexivity. Qed.

(** * Further properties of the module *)

(** ** The outcomes of [Node.__init__] *)

Lemma index_from_Err (x : string) (xs : list string) (i : nat) (e : PyError) :
  index_from x xs i = Err e → e = ValueError ∧ x ∉ xs.
Proof.
  revert i. induction xs as [|y ys IH]; intros i; simpl.
  - intros [= <-]. split; [done|]. apply not_elem_of_nil.
  - case_bool_decide as Hy; [done|]. intros He.
    destruct (IH _ He) as [-> Hnot]. split; [done|].
    rewrite elem_of_cons. intros [->|Hin]; done.
Qed.

Lemma list_index_Err (xs : list string) (x : option string) (e : PyError) :
  list_index xs x = Err e → e = ValueError.
Proof.
  destruct x as [s|]; simpl.
  - intros He. by destruct (index_from_Err _ _ _ _ He).
  - by intros [= <-].
Qed.

Section NodeOutcome.

Variable get_leaves : Element → list Element.

Lemma assign_leaves_Err wnids new_index leaves m e :
  Node.assign_leaves wnids new_index leaves m = Err e → e = ValueError.
Proof.
  revert m. induction leaves as [|leaf rest IH]; intros m; simpl; [done|].
  destruct (list_index wnids (get_wnid leaf)) as [o|e'] eqn:Hidx; simpl.
  - apply IH.
  - intros [= <-]. by eapply list_index_Err.
Qed.

Lemma assign_children_Err wnids new_index children m e :
  Node.assign_children get_leaves wnids new_index children m = Err e →
  e = ValueError.
Proof.
  revert new_index m. induction children as [|child rest IH];
    intros new_index m; simpl; [done|].
  destruct (Node.assign_leaves wnids new_index (get_leaves child) m)
    as [m1|e'] eqn:Hleaves; simpl.
  - apply IH.
  - intros [= <-]. by eapply assign_leaves_Err.
Qed.

(** With class names, the constructor runs as without them and then names the
    buckets: it fails exactly when the naming fails, with the same
    exception. *)
Lemma init_naming_Err wnid0 tree wnids c cs node0 e :
  Node.init get_leaves wnid0 tree wnids [] = Ok node0 →
  comprehension (Node.class_name (c :: cs)) (Node.new_to_old node0) = Err e →
  Node.init get_leaves wnid0 tree wnids (c :: cs) = Err e.
Proof.
  unfold Node.init.
  destruct (find_synset tree wnid0) as [v|]; [|done].
  destruct (assert _ _) as [[]|e0]; simpl; [|done].
  destruct (Node.assign_children _ _ _ _ _) as [mapping1|e1]; simpl; [|done].
  destruct (Node.group_by_new _ _ _) as [nto|e2]; simpl; [|done].
  intros [= <-]. simpl. by intros ->.
Qed.

Lemma class_name_outcome original_classes old_indices :
  is_Ok (Node.class_name original_classes old_indices) ∨
  Node.class_name original_classes old_indices = Err IndexError.
Proof.
  unfold Node.class_name.
  destruct (comprehension (getitem original_classes) old_indices)
    as [members|e] eqn:Hmem; simpl; [left; by eexists|right].
  f_equal. revert e Hmem.
  induction old_indices as [|o rest IH]; intros e; cbn [comprehension]; [done|].
  destruct (getitem original_classes o) as [name|e0] eqn:Ho;
    cbn [mbind result_bind].
  - destruct (comprehension (getitem original_classes) rest) as [ms|e'] eqn:Hrest;
      cbn [mbind result_bind]; [done|].
    intros [= <-]. by apply IH.
  - intros [= <-]. unfold getitem in Ho.
    destruct (original_classes !! o); by simplify_eq.
Qed.

Lemma class_name_out_of_range original_classes old_indices o :
  o ∈ old_indices → length original_classes ≤ o →
  Node.class_name original_classes old_indices = Err IndexError.
Proof.
  intros Hin Hlen.
  destruct (class_name_outcome original_classes old_indices) as [[cls Hcls]|Herr];
    [|done].
  unfold Node.class_name in Hcls. inv_bind Hcls.
  apply comprehension_Ok in Ha.
  apply list_elem_of_lookup_1 in Hin as [i Hi].
  destruct (Forall2_lookup_l _ _ _ _ _ Ha Hi) as (name & _ & Hname).
  apply getitem_Ok, lookup_lt_Some in Hname. lia.
Qed.

(** X1. Every outcome of [Node.__init__] for an identifier that holds no
    double quote (so that the path of line 42 compares the [wnid] attribute
    with the identifier): the assertion of line 43 fails when no [synset]
    below the root carries the identifier, the assertion of line 46 when the
    vertex found has no child, [wnids.index] raises [ValueError] when a leaf
    under a child has no identifier of the flat class list, naming the
    buckets raises [IndexError] when class names are given but fewer than the
    flat classes, and in every other case a node is returned. *)
Theorem Node_init_outcome wnid0 tree wnids classes0 :
  contains double_quote wnid0 = false →
  match find_synset tree wnid0 with
  | None =>
      Node.init get_leaves wnid0 tree wnids classes0
      = Err (AssertionError ("Failed to find node with wnid " +:+ wnid0))
  | Some v =>
      (getchildren v = [] →
       Node.init get_leaves wnid0 tree wnids classes0
       = Err (AssertionError "Cannot build dataset for leaf node.")) ∧
      (getchildren v ≠ [] →
       ¬ leaves_known get_leaves wnids (getchildren v) →
       Node.init get_leaves wnid0 tree wnids classes0 = Err ValueError) ∧
      (getchildren v ≠ [] →
       leaves_known get_leaves wnids (getchildren v) →
       classes0 ≠ [] → length classes0 < length wnids →
       Node.init get_leaves wnid0 tree wnids classes0 = Err IndexError) ∧
      (getchildren v ≠ [] →
       leaves_known get_leaves wnids (getchildren v) →
       classes0 = [] ∨ length wnids ≤ length classes0 →
       is_Ok (Node.init get_leaves wnid0 tree wnids classes0))
  end.
Proof.
  intros _.
  destruct (find_synset tree wnid0) as [v|] eqn:Hfind.
  2:{ unfold Node.init. by rewrite Hfind. }
  assert (getchildren v ≠ [] → 0 < length (getchildren v)) as Hpos.
  { destruct (getchildren v); [done|]. simpl. lia. }
  split; [|split; [|split]].
  - intros Hnil. unfold Node.init. rewrite Hfind, Hnil. done.
  - intros Hne Hunknown. unfold Node.init. rewrite Hfind.
    rewrite bool_decide_eq_true_2 by auto. simpl.
    destruct (Node.assign_children get_leaves wnids 0 (getchildren v) ∅)
      as [mapping1|e] eqn:Hassign; simpl.
    + destruct Hunknown. by eapply assign_children_known.
    + f_equal. by eapply assign_children_Err.
  - intros Hne Hknown Hnames Hshort.
    destruct (init_is_Ok get_leaves wnid0 tree wnids [] v) as [node0 Hnode0];
      [done|auto|done|by left|].
    destruct classes0 as [|c cs]; [done|].
    apply (init_naming_Err _ _ _ _ _ _ _ Hnode0).
    pose proof (init_well_formed _ _ _ _ _ _ Hnode0) as Hwf.
    destruct (init_inv _ _ _ _ _ _ Hnode0) as (_ & _ & _ & _ & _ & HK & _).
    destruct (wf_total _ Hwf (length (c :: cs))) as [j Hj]; [by rewrite HK|].
    destruct (wf_range _ Hwf _ _ Hj) as [_ Hlt].
    rewrite <- (well_formed_length _ Hwf) in Hlt.
    destruct (lookup_lt_is_Some_2 _ _ Hlt) as [bucket Hb].
    apply comprehension_Err.
    + apply Forall_forall. intros b _. apply class_name_outcome.
    + apply Exists_exists. exists bucket. split.
      * by eapply list_elem_of_lookup_2.
      * apply (class_name_out_of_range _ _ (length (c :: cs))); [|done].
        by apply (well_formed_elem_of_bucket _ _ _ _ Hwf Hb).
  - intros Hne Hknown Hnames. eapply init_is_Ok; eauto.
Qed.

End NodeOutcome.

Lemma Node_init_outcome_witness :
  contains double_quote "b" = false ∧
  find_synset Examples.tree "b"
  = Some (Elem "synset" (Some "b") [ Examples.leaf "b1"; Examples.leaf "b2" ]) ∧
  is_Ok (Node.init xmlutils.get_leaves "b" Examples.tree Examples.wnids
           Examples.classes) ∧
  Node.init xmlutils.get_leaves "b" Examples.tree Examples.wnids [ "cat" ]
  = Err IndexError ∧
  Node.init xmlutils.get_leaves "b" Examples.tree [ "a"; "b1" ] []
  = Err ValueError ∧
  Node.init xmlutils.get_leaves "a" Examples.tree Examples.wnids []
  = Err (AssertionError "Cannot build dataset for leaf node.") ∧
  Node.init xmlutils.get_leaves "c" Examples.tree Examples.wnids []
  = Err (AssertionError "Failed to find node with wnid c").
Proof.
  split; [reflexivity|]. split; [reflexivity|].
  pose proof (Node_init_outcome xmlutils.get_leaves "b" Examples.tree
                Examples.wnids Examples.classes eq_refl) as Hnames.
  pose proof (Node_init_outcome xmlutils.get_leaves "b" Examples.tree
                Examples.wnids [ "cat" ] eq_refl) as Hshort.
  pose proof (Node_init_outcome xmlutils.get_leaves "b" Examples.tree
                [ "a"; "b1" ] [] eq_refl) as Hunknown.
  pose proof (Node_init_outcome xmlutils.get_leaves "a" Examples.tree
                Examples.wnids [] eq_refl) as Hleaf.
  pose proof (Node_init_outcome xmlutils.get_leaves "c" Examples.tree
                Examples.wnids [] eq_refl) as Hmissing.
  cbv beta iota delta [find_synset] in Hnames, Hshort, Hunknown, Hleaf, Hmissing.
  simpl in Hnames, Hshort, Hunknown, Hleaf, Hmissing.
  destruct Hnames as (_ & _ & _ & Hok).
  destruct Hshort as (_ & _ & Hindex & _).
  destruct Hunknown as (_ & Hvalue & _).
  destruct Hleaf as (Hassert & _).
  split; [|split; [|split; [|split]]].
  - apply Hok; [done| |right; simpl; lia].
    unfold leaves_known. simpl.
    repeat constructor; eexists; (split; [reflexivity|]); set_solver.
  - apply Hindex; [done| |done|simpl; lia].
    unfold leaves_known. simpl.
    repeat constructor; eexists; (split; [reflexivity|]); set_solver.
  - apply Hvalue; [done|]. unfold leaves_known. simpl. intros Hknown.
    apply Forall_cons in Hknown as [_ Hknown].
    apply Forall_cons in Hknown as [Hknown _].
    apply Forall_cons in Hknown as [(w & [= <-] & Hw) _].
    apply elem_of_cons in Hw as [Hw|Hw]; [done|].
    apply elem_of_cons in Hw as [Hw|Hw]; [done|].
    by apply elem_of_nil in Hw.
  - by apply Hassert.
  - exact Hmissing.
Defined.

(** ** The buckets are ascending *)

Lemma StronglySorted_seq_lt (start len : nat) : StronglySorted lt (seq start len).
Proof.
  revert start. induction len as [|len IH]; intros start; simpl; constructor.
  - apply IH.
  - apply Forall_forall. intros x Hx. apply elem_of_seq in Hx. lia.
Qed.

Lemma StronglySorted_filter {A} (R : relation A) (P : A → Prop)
    `{∀ x, Decision (P x)} (l : list A) :
  StronglySorted R l → StronglySorted R (filter P l).
Proof.
  induction 1 as [|x l Hl IH Hx]; [constructor|].
  rewrite filter_cons. case_decide; [|done].
  constructor; [done|]. apply Forall_forall. intros y Hy.
  apply list_elem_of_filter in Hy as [_ Hy].
  rewrite Forall_forall in Hx. by apply Hx.
Qed.

Lemma StronglySorted_take {A} (R : relation A) (n : nat) (l : list A) :
  StronglySorted R l → StronglySorted R (take n l).
Proof.
  intros Hl. revert n. induction Hl as [|x l Hl IH Hx]; intros [|n]; simpl;
    try constructor.
  - apply IH.
  - apply Forall_forall. intros y Hy. rewrite Forall_forall in Hx.
    apply Hx. apply elem_of_take in Hy as (i & Hi & _).
    by eapply list_elem_of_lookup_2.
Qed.

(** X2. In a node the constructor returned, every bucket of [new_to_old]
    lists flat labels of [0, K) in strictly increasing order: the loop of
    lines 63-65 appends the old indices in the order of [range]. *)
Theorem Node_buckets_ascending get_leaves wnid0 tree wnids classes0 node :
  Node.init get_leaves wnid0 tree wnids classes0 = Ok node →
  ∀ new_index bucket,
    Node.new_to_old node !! new_index = Some bucket →
    StronglySorted lt bucket ∧
    ∀ old_index, old_index ∈ bucket → old_index < length wnids.
Proof.
  intros Hinit j bucket Hb.
  pose proof (init_well_formed _ _ _ _ _ _ Hinit) as Hwf.
  destruct (init_inv _ _ _ _ _ _ Hinit) as (_ & _ & _ & _ & _ & HK & _).
  destruct (well_formed_bucket_lookup _ _ _ Hwf Hb) as [_ ->].
  unfold bucket_of. split.
  - apply StronglySorted_filter, StronglySorted_seq_lt.
  - intros o Ho. apply list_elem_of_filter in Ho as [_ Ho].
    apply elem_of_seq in Ho. lia.
Qed.

Lemma Node_buckets_ascending_witness :
  Node.new_to_old Examples.node_root = [ [ 0 ]; [ 1; 2 ] ] ∧
  ∀ new_index bucket,
    Node.new_to_old Examples.node_root !! new_index = Some bucket →
    StronglySorted lt bucket ∧
    ∀ old_index, old_index ∈ bucket → old_index < 3.
Proof.
  split; [vm_compute; reflexivity|].
  apply (Node_buckets_ascending xmlutils.get_leaves "root" Examples.tree
           Examples.wnids Examples.classes).
  vm_compute. reflexivity.
Defined.

(** ** The probabilities balance the classes *)

Lemma quotient_times_count (a b : nat) :
  0 < b →
  ((Z.of_nat a # Pos.of_nat b) * inject_Z (Z.of_nat b) == inject_Z (Z.of_nat a))%Q.
Proof.
  intros Hb. unfold Qeq, Qmult, inject_Z. simpl.
  rewrite Pos.mul_1_r, Zpos_of_nat by done. lia.
Qed.

(** X3. For a node the constructor returned whose class counts are all
    positive, over fewer than [2 ^ 63] flat classes: the probability of a
    class times its count is the least class count, the same for every
    class, up to the rounding of the entry (at most [2 ^ -23] of that
    count); and a class with more members never has a larger probability
    than one with fewer, the rounding included. *)
Theorem Node_probabilities_balance get_leaves wnid0 tree wnids classes0 node :
  Node.init get_leaves wnid0 tree wnids classes0 = Ok node →
  Forall (λ count, 0 < count) (Node.class_counts node) →
  (Z.of_nat (length wnids) < 2 ^ 63)%Z →
  ∃ ps node' reference,
    Node.probabilities node = Ok (ps, node') ∧
    min_list (Node.class_counts node) = Ok reference ∧
    (∀ i count p,
       Node.class_counts node !! i = Some count → ps !! i = Some p →
       (Qabs (p * inject_Z (Z.of_nat count) - inject_Z (Z.of_nat reference))
        <= inject_Z (Z.of_nat reference) * (1 # 8388608))%Q) ∧
    (∀ i1 i2 count1 count2 p1 p2,
       Node.class_counts node !! i1 = Some count1 → ps !! i1 = Some p1 →
       Node.class_counts node !! i2 = Some count2 → ps !! i2 = Some p2 →
       count1 ≤ count2 → (p2 <= p1)%Q).
Proof.
  intros Hinit Hpos Hsize.
  destruct (probabilities_first_read _ _ _ _ _ _ Hinit Hpos)
    as (reference & Hmin & Href & Hin & Hleast & Hbound & Hlen & Hps).
  eexists _, _, reference. split; [exact Hps|]. split; [done|].
  assert (∀ i count p,
            Node.class_counts node !! i = Some count →
            ((λ old_indices : list nat,
                PyFloat.binary32
                  (min_one
                     (PyFloat.binary64
                        (Z.of_nat reference # Pos.of_nat (length old_indices)))))
               <$> Node.new_to_old node) !! i = Some p →
            0 < count ∧ reference ≤ count ∧ count ≤ length wnids ∧
            p = PyFloat.binary32
                  (min_one
                     (PyFloat.binary64 (Z.of_nat reference # Pos.of_nat count))))
    as Hentry.
  { intros i count p Hcount Hp. unfold Node.class_counts in Hcount.
    rewrite list_lookup_fmap in Hcount. rewrite list_lookup_fmap in Hp.
    destruct (Node.new_to_old node !! i) as [b|] eqn:Hb; [|done].
    injection Hcount as <-. injection Hp as <-.
    assert (length b ∈ Node.class_counts node) as Hmem.
    { unfold Node.class_counts. apply list_elem_of_fmap. exists b.
      split; [done|]. by eapply list_elem_of_lookup_2. }
    rewrite Forall_forall in Hpos.
    split; [by apply Hpos|]. split; [by apply Hleast|].
    split; [by apply Hbound|done]. }
  split.
  - intros i count p Hcount Hp.
    destruct (Hentry i count p Hcount Hp) as (Hc0 & Hle & Hup & ->).
    destruct (stored_quotient reference count Href Hle ltac:(lia))
      as (Hlow & Hhigh & _ & _).
    pose proof (quotient_times_count reference count Hc0) as Hprod.
    assert (0 <= inject_Z (Z.of_nat count))%Q as Hcq.
    { change 0%Q with (inject_Z 0). rewrite <- Zle_Qle. lia. }
    apply (Qmult_le_compat_r _ _ _ Hlow) in Hcq as Hlow'.
    apply (Qmult_le_compat_r _ _ _ Hhigh) in Hcq as Hhigh'.
    assert (((Z.of_nat reference # Pos.of_nat count)
             - (Z.of_nat reference # Pos.of_nat count) * (1 # 8388608))
            * inject_Z (Z.of_nat count)
            == inject_Z (Z.of_nat reference)
               - inject_Z (Z.of_nat reference) * (1 # 8388608))%Q as E1.
    { rewrite <- Hprod. ring. }
    assert (((Z.of_nat reference # Pos.of_nat count)
             + (Z.of_nat reference # Pos.of_nat count) * (1 # 8388608))
            * inject_Z (Z.of_nat count)
            == inject_Z (Z.of_nat reference)
               + inject_Z (Z.of_nat reference) * (1 # 8388608))%Q as E2.
    { rewrite <- Hprod. ring. }
    rewrite E1 in Hlow'. rewrite E2 in Hhigh'.
    apply Qabs_Qle_condition. split; lra.
  - intros i1 i2 count1 count2 p1 p2 Hc1 Hp1 Hc2 Hp2 Hle.
    destruct (Hentry i1 count1 p1 Hc1 Hp1) as (Hc0 & _ & _ & ->).
    destruct (Hentry i2 count2 p2 Hc2 Hp2) as (_ & _ & _ & ->).
    by apply stored_quotient_antitone.
Qed.

Lemma Node_probabilities_balance_witness :
  Node.class_counts Examples.wide_node = [ 1; 3 ] ∧
  ∃ ps node' reference,
    Node.probabilities Examples.wide_node = Ok (ps, node') ∧
    min_list (Node.class_counts Examples.wide_node) = Ok reference ∧
    (∀ i count p,
       Node.class_counts Examples.wide_node !! i = Some count →
       ps !! i = Some p →
       (Qabs (p * inject_Z (Z.of_nat count) - inject_Z (Z.of_nat reference))
        <= inject_Z (Z.of_nat reference) * (1 # 8388608))%Q) ∧
    (∀ i1 i2 count1 count2 p1 p2,
       Node.class_counts Examples.wide_node !! i1 = Some count1 →
       ps !! i1 = Some p1 →
       Node.class_counts Examples.wide_node !! i2 = Some count2 →
       ps !! i2 = Some p2 →
       count1 ≤ count2 → (p2 <= p1)%Q).
Proof.
  split; [reflexivity|].
  apply (Node_probabilities_balance xmlutils.get_leaves "root"
           Examples.wide_tree Examples.wide_wnids []).
  - vm_compute. reflexivity.
  - repeat constructor.
  - simpl. lia.
Defined.

(** ** The caches of [probabilities] and [class_weights] *)

(** X4. On a node with both caches empty, the first read of [class_weights]
    computes the probabilities and stores them in both caches; from then on
    both getters return that value, the mapping and the buckets are as
    before, and an override of [probabilities] through its setter changes
    what [probabilities] returns but not what [class_weights] returns. *)
Theorem Node_class_weights_frozen node ps :
  Node._probabilities node = None →
  Node._class_weights node = None →
  Node.compute_probabilities node = Ok ps →
  ∃ node2,
    Node.class_weights node = Ok (ps, node2) ∧
    Node.class_weights node2 = Ok (ps, node2) ∧
    Node.probabilities node2 = Ok (ps, node2) ∧
    Node.mapping node2 = Node.mapping node ∧
    Node.new_to_old node2 = Node.new_to_old node ∧
    ∀ ps',
      Node.probabilities (Node.set_probabilities node2 ps')
      = Ok (ps', Node.set_probabilities node2 ps') ∧
      Node.class_weights (Node.set_probabilities node2 ps')
      = Ok (ps, Node.set_probabilities node2 ps').
Proof.
  intros Hp Hw Hps.
  exists (Node.set_class_weights (Node.set_probabilities node ps) ps).
  split; [|split; [|split; [|split; [|split]]]]; try done.
  unfold Node.class_weights, Node.probabilities. rewrite Hw, Hp, Hps. done.
Qed.

Lemma Node_class_weights_frozen_witness :
  ∃ node2,
    Node.class_weights Examples.node_root = Ok ([1%Q; 1 # 2], node2) ∧
    Node.class_weights node2 = Ok ([1%Q; 1 # 2], node2) ∧
    Node.probabilities node2 = Ok ([1%Q; 1 # 2], node2) ∧
    Node.mapping node2 = Node.mapping Examples.node_root ∧
    Node.new_to_old node2 = Node.new_to_old Examples.node_root ∧
    ∀ ps',
      Node.probabilities (Node.set_probabilities node2 ps')
      = Ok (ps', Node.set_probabilities node2 ps') ∧
      Node.class_weights (Node.set_probabilities node2 ps')
      = Ok ([1%Q; 1 # 2], Node.set_probabilities node2 ps').
Proof.
  apply (Node_class_weights_frozen Examples.node_root [1%Q; 1 # 2]).
  - reflexivity.
  - reflexivity.
  - vm_compute. reflexivity.
Defined.

(** X5. On a node with both caches empty and an empty bucket, the first read
    of [class_weights] raises [ZeroDivisionError], as that of
    [probabilities] does; once probabilities are set through the setter, both
    getters return the value set and nothing is divided. *)
Theorem Node_class_weights_zero_count node :
  Node._probabilities node = None →
  Node._class_weights node = None →
  0 ∈ Node.class_counts node →
  Node.class_weights node = Err ZeroDivisionError ∧
  ∀ ps,
    Node.probabilities (Node.set_probabilities node ps)
    = Ok (ps, Node.set_probabilities node ps) ∧
    Node.class_weights (Node.set_probabilities node ps)
    = Ok (ps, Node.set_class_weights (Node.set_probabilities node ps) ps).
Proof.
  intros Hp Hw Hzero. split.
  - unfold Node.class_weights, Node.probabilities. rewrite Hw, Hp.
    by rewrite (compute_probabilities_zero _ Hzero).
  - intros ps. split; [done|].
    unfold Node.class_weights. simpl. by rewrite Hw.
Qed.

Lemma Node_class_weights_zero_count_witness :
  Node.class_weights Examples.shared_node = Err ZeroDivisionError ∧
  ∀ ps,
    Node.probabilities (Node.set_probabilities Examples.shared_node ps)
    = Ok (ps, Node.set_probabilities Examples.shared_node ps) ∧
    Node.class_weights (Node.set_probabilities Examples.shared_node ps)
    = Ok (ps, Node.set_class_weights
                (Node.set_probabilities Examples.shared_node ps) ps).
Proof.
  apply (Node_class_weights_zero_count Examples.shared_node).
  - reflexivity.
  - reflexivity.
  - unfold Node.class_counts. simpl. by left.
Defined.

(** ** [get_wnid_to_node] *)

Section NodeCollection.

Variable get_leaves : Element → list Element.

Lemma collect_nodes_dom vertices tree wnids classes0 acc wnid_to_node w :
  Node.collect_nodes get_leaves vertices tree wnids classes0 acc = Ok wnid_to_node →
  is_Some (wnid_to_node !! w) ↔
    is_Some (acc !! w) ∨
    ∃ v, v ∈ vertices ∧ get_wnid v = Some w ∧ getchildren v ≠ [].
Proof.
  revert acc. induction vertices as [|vertex rest IH]; intros acc; simpl.
  - intros [= <-]. split; [by left|]. intros [?|(v & Hv & _)]; [done|].
    by apply elem_of_nil in Hv.
  - destruct (get_wnid vertex) as [w0|] eqn:Hw0.
    + case_bool_decide as Hleaf.
      * intros H. rewrite (IH _ H). apply length_zero_iff_nil in Hleaf.
        split; intros [?|(v & Hv & Hw & Hc)]; auto; right; exists v.
        -- split; [by right|done].
        -- apply elem_of_cons in Hv as [->|Hv]; [done|]. done.
      * intros H. inv_bind H. rewrite (IH _ H).
        assert (getchildren vertex ≠ []) as Hne.
        { intros Hnil. apply Hleaf. by rewrite Hnil. }
        split.
        -- intros [Hin|(v & Hv & Hw & Hc)].
           ++ destruct (decide (w0 = w)) as [->|Hneq].
              ** right. exists vertex. split; [by left|done].
              ** left. by rewrite lookup_insert_ne in Hin.
           ++ right. exists v. split; [by right|done].
        -- intros [Hin|(v & Hv & Hw & Hc)].
           ++ left. destruct (decide (w0 = w)) as [->|Hneq].
              ** rewrite lookup_insert_eq. by eexists.
              ** by rewrite lookup_insert_ne.
           ++ apply elem_of_cons in Hv as [->|Hv].
              ** left. assert (w0 = w) as -> by congruence.
                 rewrite lookup_insert_eq. by eexists.
              ** right. by exists v.
    + intros H. rewrite (IH _ H).
      split; intros [?|(v & Hv & Hw & Hc)]; auto; right; exists v.
      * split; [by right|done].
      * apply elem_of_cons in Hv as [->|Hv]; [congruence|done].
Qed.

Lemma collect_nodes_Err vertices tree wnids classes0 acc e :
  Node.collect_nodes get_leaves vertices tree wnids classes0 acc = Err e →
  ∃ v w, v ∈ vertices ∧ get_wnid v = Some w ∧ getchildren v ≠ [] ∧
         Node.init get_leaves w tree wnids classes0 = Err e.
Proof.
  revert acc. induction vertices as [|vertex rest IH]; intros acc; simpl; [done|].
  destruct (get_wnid vertex) as [w0|] eqn:Hw0.
  - case_bool_decide as Hleaf.
    + intros H. destruct (IH _ H) as (v & w & Hv & Hrest).
      exists v, w. split; [by right|done].
    + destruct (Node.init get_leaves w0 tree wnids classes0) as [nd|e0] eqn:Hinit;
        simpl.
      * intros H. destruct (IH _ H) as (v & w & Hv & Hrest).
        exists v, w. split; [by right|done].
      * intros [= <-]. exists vertex, w0. split; [by left|].
        split; [done|]. split; [|done].
        intros Hnil. apply Hleaf. by rewrite Hnil.
  - intros H. destruct (IH _ H) as (v & w & Hv & Hrest).
    exists v, w. split; [by right|done].
Qed.

(** X6. When [get_wnid_to_node] returns, the keys of the dict are exactly the
    identifiers carried by a vertex of the tree (the root included) that has
    at least one child, and the value under a key is the node that
    [Node(wnid)] builds for it, whose [wnid] is the key. When it raises, the
    exception is the one [Node(wnid)] raises for such a vertex: so a root
    element, or an element that is not a [synset], with an identifier and a
    child of its own makes the call fail unless a [synset] below the root
    carries the same identifier. *)
Theorem Node_get_wnid_to_node_spec tree wnids classes0 :
  (∀ wnid_to_node,
     Node.get_wnid_to_node get_leaves tree wnids classes0 = Ok wnid_to_node →
     (∀ w, is_Some (wnid_to_node !! w) ↔
           ∃ v, v ∈ iter tree ∧ get_wnid v = Some w ∧ getchildren v ≠ []) ∧
     (∀ w node, wnid_to_node !! w = Some node →
        Node.init get_leaves w tree wnids classes0 = Ok node ∧
        Node.wnid node = w)) ∧
  (∀ e,
     Node.get_wnid_to_node get_leaves tree wnids classes0 = Err e →
     ∃ v w, v ∈ iter tree ∧ get_wnid v = Some w ∧ getchildren v ≠ [] ∧
            Node.init get_leaves w tree wnids classes0 = Err e).
Proof.
  unfold Node.get_wnid_to_node. split.
  - intros m Hm. split.
    + intros w. rewrite (collect_nodes_dom _ _ _ _ _ _ w Hm).
      rewrite lookup_empty. split; [|by right].
      intros [[? ?]|?]; done.
    + intros w node Hw.
      assert (Node.init get_leaves w tree wnids classes0 = Ok node) as Hinit.
      { eapply collect_nodes_built; [exact Hm| |exact Hw].
        intros w' node' Hempty. by rewrite lookup_empty in Hempty. }
      split; [done|].
      by destruct (init_inv _ _ _ _ _ _ Hinit)
        as (_ & _ & _ & _ & _ & _ & _ & _ & _ & _ & _ & _ & _ & Hwnid & _).
  - intros e He. by eapply collect_nodes_Err.
Qed.

End NodeCollection.

(** ** The order of [sorted] on strings *)

Lemma str_le_total (a b : string) : str_le a b ∨ str_le b a.
Proof. apply String.leb_total. Qed.

Lemma str_le_antisym (a b : string) : str_le a b → str_le b a → a = b.
Proof. apply String.leb_antisym. Qed.

Lemma str_le_cons (x y : Ascii.ascii) (a b : string) :
  str_le (String x a) (String y b) ↔
  (Ascii.N_of_ascii x < Ascii.N_of_ascii y)%N ∨ (x = y ∧ str_le a b).
Proof.
  unfold str_le, String.leb. cbn [String.compare]. unfold Ascii.compare.
  destruct (N.compare_spec (Ascii.N_of_ascii x) (Ascii.N_of_ascii y))
    as [Heq|Hlt|Hgt].
  - assert (x = y) as ->.
    { rewrite <- (Ascii.ascii_N_embedding x), <- (Ascii.ascii_N_embedding y).
      by rewrite Heq. }
    split; [by right|]. intros [Hlt|[_ Hle]]; [lia|done].
  - split; [by left|done].
  - split; [done|]. intros [Hlt|[-> _]]; lia.
Qed.

Lemma str_le_trans (a b c : string) : str_le a b → str_le b c → str_le a c.
Proof.
  revert b c. induction a as [|x a IH]; intros b c Hab Hbc.
  - by destruct c.
  - destruct b as [|y b]; [done|]. destruct c as [|z c]; [done|].
    apply str_le_cons in Hab, Hbc. apply str_le_cons.
    destruct Hab as [Hxy|[-> Hab]], Hbc as [Hyz|[-> Hbc]].
    + left. lia.
    + by left.
    + by left.
    + right. split; [done|]. by eapply IH.
Qed.

Global Instance str_le_Total : Total str_le.
Proof. intros a b. apply str_le_total. Qed.

Global Instance str_le_Transitive : Transitive str_le.
Proof. intros a b c. apply str_le_trans. Qed.

Lemma StronglySorted_strict (l : list string) :
  StronglySorted str_le l → NoDup l → StronglySorted str_lt l.
Proof.
  induction 1 as [|x l Hl IH Hx]; intros Hnd; [constructor|].
  apply NoDup_cons in Hnd as [Hnotin Hnd].
  constructor; [by apply IH|].
  apply Forall_forall. intros y Hy. rewrite Forall_forall in Hx.
  split; [by apply Hx|]. intros ->. done.
Qed.

(** ** [get_nodes] *)

Section NodeList.

Variable get_leaves : Element → list Element.

(** X7. [get_nodes] returns exactly when [get_wnid_to_node] does, and raises
    the same exception otherwise (the lookups of line 129 never fail). The
    list returned holds the values of the dict, one per key, in strictly
    increasing order of their identifiers. *)
Theorem Node_get_nodes_sorted tree wnids classes0 :
  (∀ nodes,
     Node.get_nodes get_leaves tree wnids classes0 = Ok nodes →
     ∃ wnid_to_node,
       Node.get_wnid_to_node get_leaves tree wnids classes0 = Ok wnid_to_node ∧
       length nodes = size wnid_to_node ∧
       StronglySorted str_lt (Node.wnid <$> nodes) ∧
       (∀ node, node ∈ nodes ↔ wnid_to_node !! Node.wnid node = Some node)) ∧
  (∀ wnid_to_node,
     Node.get_wnid_to_node get_leaves tree wnids classes0 = Ok wnid_to_node →
     is_Ok (Node.get_nodes get_leaves tree wnids classes0)) ∧
  (∀ e,
     Node.get_nodes get_leaves tree wnids classes0 = Err e ↔
     Node.get_wnid_to_node get_leaves tree wnids classes0 = Err e).
Proof.
  assert (∀ m, Node.get_wnid_to_node get_leaves tree wnids classes0 = Ok m →
    ∃ nodes,
      comprehension (λ w, from_option Ok (Err KeyError) (m !! w))
        (merge_sort str_le (map_to_list m).*1) = Ok nodes ∧
      Forall2 (λ w node, m !! w = Some node ∧ Node.wnid node = w)
        (merge_sort str_le (map_to_list m).*1) nodes) as Hlookups.
  { intros m Hm.
    assert (∀ w node, m !! w = Some node →
              Node.init get_leaves w tree wnids classes0 = Ok node ∧
              Node.wnid node = w) as Hvalues.
    { intros w node Hw.
      assert (Node.init get_leaves w tree wnids classes0 = Ok node) as Hinit.
      { eapply collect_nodes_built; [exact Hm| |exact Hw].
        intros w' node' Hempty. by rewrite lookup_empty in Hempty. }
      split; [done|].
      by destruct (init_inv _ _ _ _ _ _ Hinit)
        as (_ & _ & _ & _ & _ & _ & _ & _ & _ & _ & _ & _ & _ & Hwnid & _). }
    destruct (comprehension_is_Ok
                (λ w, from_option Ok (Err KeyError) (m !! w))
                (merge_sort str_le (map_to_list m).*1)) as [nodes Hnodes].
    { apply Forall_forall. intros w Hw. rewrite merge_sort_Permutation in Hw.
      apply list_elem_of_fmap in Hw as ([w' node] & -> & Hin).
      apply elem_of_map_to_list in Hin. simpl. rewrite Hin. by eexists. }
    exists nodes. split; [done|].
    apply comprehension_Ok in Hnodes.
    eapply Forall2_impl; [exact Hnodes|]. intros w node Hw. simpl in Hw.
    destruct (m !! w) as [node'|] eqn:Hlook; simpl in Hw; [|done].
    injection Hw as ->. split; [done|]. by apply (Hvalues w node). }
  split; [|split].
  - intros nodes Hnodes. unfold Node.get_nodes in Hnodes.
    destruct (Node.get_wnid_to_node get_leaves tree wnids classes0)
      as [m|e] eqn:Hm; simpl in Hnodes; [|done].
    destruct (Hlookups m eq_refl) as (nodes' & Hnodes' & Hall).
    assert (nodes' = nodes) as -> by congruence.
    assert (Node.wnid <$> nodes = merge_sort str_le (map_to_list m).*1) as Hkeys.
    { apply list_eq. intros i. rewrite list_lookup_fmap.
      destruct (merge_sort str_le (map_to_list m).*1 !! i) as [w|] eqn:Hw.
      - destruct (Forall2_lookup_l _ _ _ _ _ Hall Hw) as (node & -> & _ & <-).
        done.
      - apply lookup_ge_None in Hw.
        rewrite (Forall2_length _ _ _ Hall) in Hw.
        by rewrite lookup_ge_None_2. }
    exists m. split; [done|]. split; [|split].
    + rewrite <- (Forall2_length _ _ _ Hall).
      rewrite merge_sort_Permutation, length_fmap.
      apply length_map_to_list.
    + rewrite Hkeys. apply StronglySorted_strict.
      * apply StronglySorted_merge_sort; apply _.
      * rewrite merge_sort_Permutation. apply NoDup_fst_map_to_list.
    + intros node. split.
      * intros Hin. apply list_elem_of_lookup_1 in Hin as [i Hi].
        destruct (Forall2_lookup_r _ _ _ _ _ Hall Hi) as (w & _ & Hw & <-).
        done.
      * intros Hlook.
        assert (Node.wnid node ∈ merge_sort str_le (map_to_list m).*1) as Hin.
        { rewrite merge_sort_Permutation. apply list_elem_of_fmap.
          exists (Node.wnid node, node). split; [done|].
          by apply elem_of_map_to_list. }
        apply list_elem_of_lookup_1 in Hin as [i Hi].
        destruct (Forall2_lookup_l _ _ _ _ _ Hall Hi) as (node' & Hi' & Hw & _).
        assert (node' = node) as -> by congruence.
        by eapply list_elem_of_lookup_2.
  - intros m Hm. destruct (Hlookups m Hm) as (nodes & Hnodes & _).
    exists nodes. unfold Node.get_nodes. by rewrite Hm.
  - intros e. unfold Node.get_nodes.
    destruct (Node.get_wnid_to_node get_leaves tree wnids classes0)
      as [m|e'] eqn:Hm; simpl; [|split; intros [= <-]; done].
    destruct (Hlookups m eq_refl) as (nodes & -> & _).
    split; intros; discriminate.
Qed.

End NodeList.

(** ** [get_root_node_wnid] *)

Lemma head_omap_Some {A B} (f : A → option B) (l : list A) (y : B) :
  head (omap f l) = Some y ↔
  ∃ before x after, l = before ++ x :: after ∧ f x = Some y ∧
                    Forall (λ u, f u = None) before.
Proof.
  induction l as [|x l IH]; simpl.
  - split; [done|]. intros (before & x & after & Hl & _).
    by destruct before.
  - destruct (f x) as [y'|] eqn:Hx; simpl.
    + split.
      * intros [= <-]. exists [], x, l. by repeat split.
      * intros (before & x' & after & Hl & Hx' & Hnone).
        destruct before as [|u before]; simplify_eq/=;
          first [congruence | (apply Forall_cons in Hnone as [Hu _]; congruence)].
    + rewrite IH. split.
      * intros (before & x' & after & -> & Hx' & Hnone).
        exists (x :: before), x', after. split; [done|]. split; [done|].
        by constructor.
      * intros (before & x' & after & Hl & Hx' & Hnone).
        destruct before as [|u before]; simplify_eq/=; try congruence.
        apply Forall_cons in Hnone as [_ Hnone]. by exists before, x', after.
Qed.

Lemma head_omap_None {A B} (f : A → option B) (l : list A) :
  head (omap f l) = None ↔ ∀ x, x ∈ l → f x = None.
Proof.
  induction l as [|x l IH]; simpl.
  - split; [|done]. intros _ x Hx. by apply elem_of_nil in Hx.
  - destruct (f x) as [y|] eqn:Hx; simpl.
    + split; [done|]. intros Hall. specialize (Hall x). rewrite Hx in Hall.
      apply Hall. by left.
    + rewrite IH. split.
      * intros Hall x' Hx'. apply elem_of_cons in Hx' as [->|Hx']; auto.
      * intros Hall x' Hx'. apply Hall. by right.
Qed.

(** X8. [get_root_node_wnid] returns [None] exactly when no vertex of the
    tree carries an identifier; otherwise it returns the identifier of the
    first vertex, in document order from the root element on, that carries
    one. Whenever [get_nodes] returns at least one node, it returns an
    identifier. *)
Theorem Node_get_root_node_wnid_spec get_leaves tree wnids classes0 :
  (Node.get_root_node_wnid tree = None ↔
   ∀ v, v ∈ iter tree → get_wnid v = None) ∧
  (∀ w, Node.get_root_node_wnid tree = Some w ↔
        ∃ before v after,
          iter tree = before ++ v :: after ∧ get_wnid v = Some w ∧
          Forall (λ u, get_wnid u = None) before) ∧
  (∀ node nodes,
     Node.get_nodes get_leaves tree wnids classes0 = Ok (node :: nodes) →
     is_Some (Node.get_root_node_wnid tree)).
Proof.
  unfold Node.get_root_node_wnid. split; [apply head_omap_None|].
  split; [intros w; apply head_omap_Some|].
  intros node nodes Hnodes.
  destruct (head (omap get_wnid (iter tree))) as [w|] eqn:Hhead; [by eexists|].
  exfalso. rewrite head_omap_None in Hhead.
  unfold Node.get_nodes, Node.get_wnid_to_node in Hnodes. inv_bind Hnodes.
  apply comprehension_Ok in Hnodes.
  destruct (Forall2_lookup_r _ _ _ _ _ Hnodes (eq_refl : (node :: nodes) !! 0 = Some node))
    as (w & _ & Hw).
  assert (is_Some (a !! w)) as Hin.
  { destruct (a !! w); [by eexists|done]. }
  apply (collect_nodes_dom _ _ _ _ _ _ _ w Ha) in Hin.
  destruct Hin as [[? Hempty]|(v & Hv & Hid & _)].
  - by rewrite lookup_empty in Hempty.
  - rewrite (Hhead v Hv) in Hid. done.
Qed.

(** ** [NodeDataset] *)

(** X9. A [NodeDataset] has the length of the dataset it wraps. Reading it
    at [i] returns the sample of the dataset at [i] with its label replaced
    by the node's new label, which is below [num_classes], when the old label
    is a flat label of [0, K); it raises [IndexError] when [i] is out of the
    range of the dataset, and [KeyError] when the old label is not below
    [K]. *)
Theorem NodeDataset_getitem_spec {Sample} get_leaves wnid0 tree wnids
    (ds : Dataset.t Sample) self :
  NodeDataset.init get_leaves wnid0 tree wnids ds = Ok self →
  NodeDataset.len self = Dataset.len ds ∧
  NodeDataset.classes self = Node.classes (NodeDataset.node self) ∧
  (∀ i sample old_label,
     Dataset.items ds !! i = Some (sample, old_label) →
     old_label < length wnids →
     ∃ new_label,
       NodeDataset.getitem self i = Ok (sample, new_label) ∧
       Node.mapping (NodeDataset.node self) !! old_label = Some new_label ∧
       new_label < Node.num_classes (NodeDataset.node self)) ∧
  (∀ i, Dataset.len ds ≤ i → NodeDataset.getitem self i = Err IndexError) ∧
  (∀ i sample old_label,
     Dataset.items ds !! i = Some (sample, old_label) →
     length wnids ≤ old_label →
     NodeDataset.getitem self i = Err KeyError).
Proof.
  unfold NodeDataset.init. intros H. inv_bind H. injection H as <-.
  rename a into node. simpl.
  pose proof (init_well_formed _ _ _ _ _ _ Ha) as Hwf.
  destruct (init_inv _ _ _ _ _ _ Ha) as (_ & _ & _ & _ & _ & HK & _).
  split; [done|]. split; [done|]. split; [|split].
  - intros i sample old Hi Hold. rewrite <- HK in Hold.
    destruct (wf_total _ Hwf old Hold) as [new Hnew].
    exists new. split; [|split; [done|by apply (wf_range _ Hwf old new)]].
    unfold NodeDataset.getitem, Dataset.getitem, getitem. simpl.
    rewrite Hi. simpl. by rewrite Hnew.
  - intros i Hi. unfold NodeDataset.getitem, Dataset.getitem, getitem. simpl.
    by rewrite lookup_ge_None_2.
  - intros i sample old Hi Hold.
    unfold NodeDataset.getitem, Dataset.getitem, getitem. simpl.
    rewrite Hi. simpl.
    destruct (Node.mapping node !! old) as [new|] eqn:Hnew; [|done].
    apply (wf_range _ Hwf) in Hnew. lia.
Qed.

Lemma NodeDataset_getitem_spec_witness :
  ∃ self,
    NodeDataset.init xmlutils.get_leaves "b" Examples.tree Examples.wnids
      Examples.source = Ok self ∧
    NodeDataset.getitem self 3 = Ok (tt, 1) ∧
    NodeDataset.len self = Dataset.len Examples.source ∧
    NodeDataset.classes self = Node.classes (NodeDataset.node self) ∧
    (∀ i sample old_label,
       Dataset.items Examples.source !! i = Some (sample, old_label) →
       old_label < 3 →
       ∃ new_label,
         NodeDataset.getitem self i = Ok (sample, new_label) ∧
         Node.mapping (NodeDataset.node self) !! old_label = Some new_label ∧
         new_label < Node.num_classes (NodeDataset.node self)) ∧
    (∀ i, Dataset.len Examples.source ≤ i →
          NodeDataset.getitem self i = Err IndexError) ∧
    (∀ i sample old_label,
       Dataset.items Examples.source !! i = Some (sample, old_label) →
       3 ≤ old_label →
       NodeDataset.getitem self i = Err KeyError).
Proof.
  exists (NodeDataset.mk Examples.source Examples.node_b Examples.classes
            [ "dog"; "bird"; "cat" ]).
  split; [vm_compute; reflexivity|]. split; [vm_compute; reflexivity|].
  apply (NodeDataset_getitem_spec xmlutils.get_leaves "b" Examples.tree
           Examples.wnids Examples.source).
  vm_compute. reflexivity.
Defined.

(** ** The nodes of a view *)

Lemma get_nodes_well_formed get_leaves tree wnids classes0 nodes :
  Node.get_nodes get_leaves tree wnids classes0 = Ok nodes →
  Forall (λ node, well_formed node ∧
                  Node.num_original_classes node = length wnids ∧
                  Node.original_classes node = classes0) nodes.
Proof.
  intros Hnodes. eapply Forall_impl; [by eapply get_nodes_built|].
  intros node [w Hw]. split; [by eapply init_well_formed|].
  by destruct (init_inv _ _ _ _ _ _ Hw)
    as (_ & _ & _ & _ & _ & HK & _ & _ & _ & _ & Horig & _).
Qed.

Lemma dim_lengths_of {A} (nodes : list Node.t) (blocks : list (list A)) :
  Forall2 (λ node block, length block = Node.num_classes node) nodes blocks →
  length (concat blocks) = Node.dim nodes.
Proof.
  induction 1 as [|node block nodes blocks Hlen _ IH]; [done|].
  rewrite dim_cons. simpl. by rewrite length_app, Hlen, IH.
Qed.

(** ** [JointNodesDataset] *)


(** ** [PathSanityDataset.__getitem__] *)

Lemma one_hot_lookup (n new j : nat) :
  j < n →
  <[new := 1%Z]> (replicate n 0%Z) !! j
  = Some (if decide (new = j) then 1%Z else 0%Z).
Proof.
  intros Hj. case_decide as Hnew.
  - subst. apply list_lookup_insert_eq. by rewrite length_replicate.
  - rewrite list_lookup_insert_ne by done. by apply lookup_replicate_2.
Qed.

Lemma get_sample_Ok node old_label :
  well_formed node → old_label < Node.num_original_classes node →
  ∃ new_label,
    Node.mapping node !! old_label = Some new_label ∧
    new_label < Node.num_classes node ∧
    PathSanityDataset.get_sample node old_label
    = Ok (<[new_label := 1%Z]> (replicate (Node.num_classes node) 0%Z)).
Proof.
  intros Hwf Hold. destruct (wf_total _ Hwf old_label Hold) as [new Hnew].
  destruct (wf_range _ Hwf _ _ Hnew) as [_ Hlt].
  exists new. split; [done|]. split; [done|].
  unfold PathSanityDataset.get_sample. rewrite Hnew. simpl.
  unfold getitem. by rewrite lookup_replicate_2.
Qed.

(** X11. A path-sanity view that was constructed has the length of the
    dataset. Reading it at [i], for an old label below [K], returns the old
    label unchanged with a vector of [get_input_dim()] entries in which the
    segment of every node is one-hot: within the segment of a node, entry [j]
    is 1 when the node maps the old label to [j], and 0 otherwise. The read
    raises [IndexError] when [i] is out of range, and [KeyError] when the
    old label is not below [K] and the view has a node. *)
Theorem PathSanityDataset_getitem_one_hot {Sample} get_leaves tree wnids
    (ds : Dataset.t Sample) self :
  PathSanityDataset.init get_leaves tree wnids ds = Ok self →
  PathSanityDataset.len self = Dataset.len ds ∧
  (∀ i sample old_label,
     Dataset.items ds !! i = Some (sample, old_label) →
     old_label < length wnids →
     ∃ vec,
       PathSanityDataset.getitem self i = Ok (vec, old_label) ∧
       length vec = PathSanityDataset.get_input_dim self ∧
       ∀ k node j,
         PathSanityDataset.nodes self !! k = Some node →
         j < Node.num_classes node →
         vec !! (offset (PathSanityDataset.nodes self) k + j)
         = Some (if decide (Node.mapping node !! old_label = Some j)
                 then 1%Z else 0%Z)) ∧
  (∀ i, Dataset.len ds ≤ i →
        PathSanityDataset.getitem self i = Err IndexError) ∧
  (∀ i sample old_label,
     Dataset.items ds !! i = Some (sample, old_label) →
     length wnids ≤ old_label →
     PathSanityDataset.nodes self ≠ [] →
     PathSanityDataset.getitem self i = Err KeyError).
Proof.
  unfold PathSanityDataset.init. intros H. inv_bind H. injection H as <-.
  rename a into nodes. simpl.
  pose proof (get_nodes_well_formed _ _ _ _ _ Ha) as Hwf.
  split; [done|]. split; [|split].
  - intros i sample old Hi Hold.
    set (hot := λ node : Node.t,
           <[default 0 (Node.mapping node !! old) := 1%Z]>
             (replicate (Node.num_classes node) 0%Z)).
    assert (Forall2 (λ node vec, PathSanityDataset.get_sample node old = Ok vec)
                    nodes (hot <$> nodes)) as Hhot.
    { apply Forall2_fmap_r, Forall_Forall2_diag.
      eapply Forall_impl; [exact Hwf|]. intros node (Hnode & HK & _).
      destruct (get_sample_Ok node old Hnode) as (new & Hnew & _ & Hsample);
        [by rewrite HK|].
      unfold compose, hot. by rewrite Hnew. }
    exists (concat (hot <$> nodes)). split; [|split].
    + unfold PathSanityDataset.getitem, Dataset.getitem, getitem. simpl.
      rewrite Hi. simpl. apply comprehension_Ok in Hhot. by rewrite Hhot.
    + unfold PathSanityDataset.get_input_dim. simpl.
      apply dim_lengths_of. apply Forall2_fmap_r, Forall_Forall2_diag.
      apply Forall_forall. intros node _. unfold compose, hot.
      by rewrite length_insert, length_replicate.
    + intros k node j Hk Hj. unfold offset.
      rewrite <- (dim_lengths_of (take k nodes) (take k (hot <$> nodes))).
      2:{ rewrite <- fmap_take. apply Forall2_fmap_r, Forall_Forall2_diag.
          apply Forall_forall. intros node' _. unfold compose, hot.
          by rewrite length_insert, length_replicate. }
      rewrite (concat_lookup_block _ k j (hot node)).
      * unfold hot. rewrite one_hot_lookup by done.
        rewrite Forall_forall in Hwf.
        destruct (Hwf node) as (Hnode & HK & _);
          [by eapply list_elem_of_lookup_2|].
        destruct (wf_total _ Hnode old) as [new Hnew]; [by rewrite HK|].
        rewrite Hnew. simpl. f_equal.
        repeat case_decide; simplify_eq; done.
      * by rewrite list_lookup_fmap, Hk.
      * unfold hot. by rewrite length_insert, length_replicate.
  - intros i Hi.
    unfold PathSanityDataset.getitem, Dataset.getitem, getitem. simpl.
    by rewrite lookup_ge_None_2.
  - intros i sample old Hi Hold Hne.
    unfold PathSanityDataset.getitem, Dataset.getitem, getitem. simpl.
    rewrite Hi. simpl.
    destruct nodes as [|node nodes']; [done|]. simpl.
    apply Forall_cons in Hwf as [(Hnode & HK & _) _].
    unfold PathSanityDataset.get_sample.
    destruct (Node.mapping node !! old) as [new|] eqn:Hnew; [|done].
    apply (wf_range _ Hnode) in Hnew. lia.
Qed.

Lemma PathSanityDataset_getitem_one_hot_witness :
  PathSanityDataset.getitem Examples.view 1 = Ok ([1; 0; 0; 0; 1]%Z, 1) ∧
  PathSanityDataset.len Examples.view = Dataset.len Examples.source ∧
  (∀ i sample old_label,
     Dataset.items Examples.source !! i = Some (sample, old_label) →
     old_label < 3 →
     ∃ vec,
       PathSanityDataset.getitem Examples.view i = Ok (vec, old_label) ∧
       length vec = PathSanityDataset.get_input_dim Examples.view ∧
       ∀ k node j,
         PathSanityDataset.nodes Examples.view !! k = Some node →
         j < Node.num_classes node →
         vec !! (offset (PathSanityDataset.nodes Examples.view) k + j)
         = Some (if decide (Node.mapping node !! old_label = Some j)
                 then 1%Z else 0%Z)) ∧
  (∀ i, Dataset.len Examples.source ≤ i →
        PathSanityDataset.getitem Examples.view i = Err IndexError) ∧
  (∀ i sample old_label,
     Dataset.items Examples.source !! i = Some (sample, old_label) →
     3 ≤ old_label →
     PathSanityDataset.nodes Examples.view ≠ [] →
     PathSanityDataset.getitem Examples.view i = Err KeyError).
Proof.
  split; [vm_compute; reflexivity|].
  apply (PathSanityDataset_getitem_one_hot xmlutils.get_leaves Examples.tree
           Examples.wnids Examples.source Examples.view).
  vm_compute. reflexivity.
Defined.

(** ** [get_weights] without assumptions on the class names *)

Lemma weight_row_lookup (original_classes : list string) (cls : string) (r : nat) :
  r < length original_classes →
  default 0%Z (weight_row original_classes (length original_classes) cls !! r)
  = if decide (single_name cls = true ∧
               list_index original_classes (Some cls) = Ok r)
    then 1%Z else 0%Z.
Proof.
  intros Hr. unfold weight_row. destruct (single_name cls) eqn:Hs.
  - destruct (list_index original_classes (Some cls)) as [o|e] eqn:Hidx.
    + destruct (decide (o = r)) as [->|Hne].
      * rewrite decide_True by done.
        rewrite list_lookup_insert_eq; [done|]. by rewrite length_replicate.
      * rewrite decide_False by (intros [_ [= ->]]; done).
        rewrite list_lookup_insert_ne by done. by rewrite lookup_replicate_2.
    + rewrite decide_False by (intros [_ ?]; done).
      by rewrite lookup_replicate_2.
  - rewrite decide_False by (intros [? _]; done).
    by rewrite lookup_replicate_2.
Qed.

Section Stacked.

Context {Sample : Type}.
Variable get_leaves : Element → list Element.
Variables (tree : Element) (wnids : list string) (ds : Dataset.t Sample).
Variable self : PathSanityDataset.t Sample.
Hypothesis Hinit : PathSanityDataset.init get_leaves tree wnids ds = Ok self.

(** The blocks that [get_weights] stacks: one matrix per node, of
    [num_classes] rows, and the matrix returned is their concatenation
    transposed. *)
Lemma get_weights_stacked :
  PathSanityDataset.nodes self ≠ [] →
  ∃ blocks,
    Forall2 (λ node block,
               PathSanityDataset._get_node_weights self node = Ok block ∧
               length block = Node.num_classes node ∧
               well_formed node ∧
               Node.original_classes node = Dataset.classes ds)
            (PathSanityDataset.nodes self) blocks ∧
    PathSanityDataset.get_weights self
    = Ok (PathSanityDataset.transpose (length (Dataset.classes ds)) (concat blocks)).
Proof.
  intros Hne.
  destruct (PathSanityDataset_init_inv _ _ _ _ _ Hinit) as (Hds & _ & Hbuilt).
  assert (Forall (λ node, well_formed node ∧
                          Node.original_classes node = Dataset.classes ds)
                 (PathSanityDataset.nodes self)) as Hwf.
  { eapply Forall_impl; [exact Hbuilt|]. intros node [w Hw]. split.
    - by eapply init_well_formed.
    - by destruct (init_inv _ _ _ _ _ _ Hw)
        as (_ & _ & _ & _ & _ & _ & _ & _ & _ & _ & Horig & _). }
  destruct (comprehension_is_Ok (PathSanityDataset._get_node_weights self)
              (PathSanityDataset.nodes self)) as [blocks Hblocks].
  { eapply Forall_impl; [exact Hwf|]. intros node [Hnode Horig].
    apply node_weights_is_Ok; [done|]. by rewrite Hds. }
  exists blocks. split.
  - apply comprehension_Ok in Hblocks.
    apply Forall2_same_length_lookup. split; [by eapply Forall2_length|].
    intros i node block Hi Hb.
    pose proof (Forall2_lookup_lr _ _ _ _ _ _ Hblocks Hi Hb) as Hw.
    rewrite Forall_forall in Hwf.
    destruct (Hwf node) as [Hnode Horig]; [by eapply list_elem_of_lookup_2|].
    split; [done|]. split; [|done].
    by destruct (node_weights_length self node block Hnode Hw).
  - unfold PathSanityDataset.get_weights. rewrite Hblocks. simpl.
    destruct blocks as [|block blocks'].
    + apply comprehension_length in Hblocks.
      destruct (PathSanityDataset.nodes self); done.
    + simpl. by rewrite Hds.
Qed.

(** The entry of the stacked blocks for new class [j] of node number [i]. *)
Lemma stacked_lookup blocks i node j cls :
  Forall2 (λ node block,
             PathSanityDataset._get_node_weights self node = Ok block ∧
             length block = Node.num_classes node ∧
             well_formed node ∧
             Node.original_classes node = Dataset.classes ds)
          (PathSanityDataset.nodes self) blocks →
  PathSanityDataset.nodes self !! i = Some node →
  Node.classes node !! j = Some cls →
  concat blocks !! (offset (PathSanityDataset.nodes self) i + j)
  = Some (weight_row (Dataset.classes ds) (length (Dataset.classes ds)) cls).
Proof.
  intros Hall Hi Hcls.
  destruct (PathSanityDataset_init_inv _ _ _ _ _ Hinit) as (Hds & _ & _).
  destruct (Forall2_lookup_l _ _ _ _ _ Hall Hi)
    as (block & Hblock & Hw & Hlen & Hnode & Horig).
  pose proof (node_weights_Ok self node block Hnode Hw) as Hrows.
  rewrite Hds, Horig in Hrows.
  destruct (Dataset.classes ds) as [|c cs] eqn:Hcs.
  { pose proof (wf_names _ Hnode) as Hnames. rewrite Horig in Hnames.
    rewrite Hnames in Hcls. done. }
  assert (j < length block) as Hj.
  { subst block. rewrite length_fmap. by eapply lookup_lt_Some. }
  unfold offset.
  rewrite <- (dim_lengths_of (take i (PathSanityDataset.nodes self)) (take i blocks)).
  2:{ apply Forall2_take. eapply Forall2_impl; [exact Hall|].
      by intros ? ? (_ & ? & _). }
  rewrite (concat_lookup_block _ _ _ _ Hblock Hj).
  subst block. by rewrite list_lookup_fmap, Hcls.
Qed.

End Stacked.

(** X12. For a view built by the constructor: when it has no node,
    [get_weights] raises [ValueError] (there is nothing to concatenate);
    otherwise it returns a matrix of [K] rows and [get_input_dim()] columns
    in which the column of a named new class holds a 1 in the row of the
    first original class of that very name, when the name is non-empty and
    free of commas, and 0 everywhere else. So a column never holds two
    ones, whatever the class names are. *)
Theorem get_weights_columns {Sample} get_leaves tree wnids
    (ds : Dataset.t Sample) self :
  PathSanityDataset.init get_leaves tree wnids ds = Ok self →
  (PathSanityDataset.nodes self = [] →
   PathSanityDataset.get_weights self = Err ValueError) ∧
  (PathSanityDataset.nodes self ≠ [] →
   ∃ W,
     PathSanityDataset.get_weights self = Ok W ∧
     length W = length (Dataset.classes ds) ∧
     Forall (λ row, length row = PathSanityDataset.get_input_dim self) W ∧
     (∀ i node j cls r,
        PathSanityDataset.nodes self !! i = Some node →
        Node.classes node !! j = Some cls →
        r < length (Dataset.classes ds) →
        entry W r (offset (PathSanityDataset.nodes self) i + j)
        = if decide (negb (contains ","%char cls) && truthy cls = true ∧
                     list_index (Dataset.classes ds) (Some cls) = Ok r)
          then 1%Z else 0%Z) ∧
     (∀ i node j cls r1 r2,
        PathSanityDataset.nodes self !! i = Some node →
        Node.classes node !! j = Some cls →
        r1 < length (Dataset.classes ds) →
        r2 < length (Dataset.classes ds) →
        entry W r1 (offset (PathSanityDataset.nodes self) i + j) = 1%Z →
        entry W r2 (offset (PathSanityDataset.nodes self) i + j) = 1%Z →
        r1 = r2)).
Proof.
  intros Hinit. split.
  - intros Hnil. unfold PathSanityDataset.get_weights. by rewrite Hnil.
  - intros Hne.
    destruct (get_weights_stacked get_leaves tree wnids ds self Hinit Hne)
      as (blocks & Hall & HW).
    exists (PathSanityDataset.transpose (length (Dataset.classes ds)) (concat blocks)).
    destruct (transpose_shape (length (Dataset.classes ds)) (concat blocks))
      as [Hrows Hcols].
    assert (∀ i node j cls r,
        PathSanityDataset.nodes self !! i = Some node →
        Node.classes node !! j = Some cls →
        r < length (Dataset.classes ds) →
        entry (PathSanityDataset.transpose (length (Dataset.classes ds))
                 (concat blocks))
              r (offset (PathSanityDataset.nodes self) i + j)
        = if decide (negb (contains ","%char cls) && truthy cls = true ∧
                     list_index (Dataset.classes ds) (Some cls) = Ok r)
          then 1%Z else 0%Z) as Hentry.
    { intros i node j cls r Hi Hcls Hr.
      rewrite entry_transpose by done. unfold entry.
      rewrite (stacked_lookup get_leaves tree wnids ds self Hinit
                 blocks i node j cls Hall Hi Hcls). simpl.
      by rewrite weight_row_lookup. }
    split; [done|]. split; [done|]. split; [|split; [exact Hentry|]].
    + unfold PathSanityDataset.get_input_dim.
      rewrite <- (dim_lengths_of (PathSanityDataset.nodes self) blocks);
        [done|].
      eapply Forall2_impl; [exact Hall|]. by intros ? ? (_ & ? & _).
    + intros i node j cls r1 r2 Hi Hcls Hr1 Hr2.
      rewrite (Hentry i node j cls r1 Hi Hcls Hr1).
      rewrite (Hentry i node j cls r2 Hi Hcls Hr2).
      repeat case_decide; try done.
      destruct_and!. congruence.
Qed.

Lemma get_weights_columns_witness :
  PathSanityDataset.get_weights Examples.comma_view
  = Ok [ [ 0; 0; 0; 0; 0 ]; [ 1; 0; 0; 0; 0 ]; [ 0; 1; 0; 0; 0 ] ]%Z ∧
  (PathSanityDataset.nodes Examples.comma_view = [] →
   PathSanityDataset.get_weights Examples.comma_view = Err ValueError) ∧
  (PathSanityDataset.nodes Examples.comma_view ≠ [] →
   ∃ W,
     PathSanityDataset.get_weights Examples.comma_view = Ok W ∧
     length W = length (Dataset.classes Examples.comma_source) ∧
     Forall (λ row, length row
                    = PathSanityDataset.get_input_dim Examples.comma_view) W ∧
     (∀ i node j cls r,
        PathSanityDataset.nodes Examples.comma_view !! i = Some node →
        Node.classes node !! j = Some cls →
        r < length (Dataset.classes Examples.comma_source) →
        entry W r (offset (PathSanityDataset.nodes Examples.comma_view) i + j)
        = if decide (negb (contains ","%char cls) && truthy cls = true ∧
                     list_index (Dataset.classes Examples.comma_source)
                       (Some cls) = Ok r)
          then 1%Z else 0%Z) ∧
     (∀ i node j cls r1 r2,
        PathSanityDataset.nodes Examples.comma_view !! i = Some node →
        Node.classes node !! j = Some cls →
        r1 < length (Dataset.classes Examples.comma_source) →
        r2 < length (Dataset.classes Examples.comma_source) →
        entry W r1 (offset (PathSanityDataset.nodes Examples.comma_view) i + j)
        = 1%Z →
        entry W r2 (offset (PathSanityDataset.nodes Examples.comma_view) i + j)
        = 1%Z →
        r1 = r2)).
Proof.
  split; [vm_compute; reflexivity|].
  apply (get_weights_columns xmlutils.get_leaves Examples.tree Examples.wnids
           Examples.comma_source Examples.comma_view).
  vm_compute. reflexivity.
Defined.

(** ** The ideal layer applied to the ideal sample *)

Lemma dot_nil_l (v : list Z) : dot [] v = 0%Z.
Proof. done. Qed.

Lemma dot_app (u1 u2 v1 v2 : list Z) :
  length u1 = length v1 →
  dot (u1 ++ u2) (v1 ++ v2) = (dot u1 v1 + dot u2 v2)%Z.
Proof.
  unfold dot. revert v1. induction u1 as [|a u1 IH]; intros [|b v1] Hlen;
    simplify_eq/=; [done|].
  rewrite (IH v1) by done. lia.
Qed.

Lemma dot_zeros (u : list Z) (n : nat) : dot u (replicate n 0%Z) = 0%Z.
Proof.
  unfold dot. revert n. induction u as [|a u IH]; intros [|n]; simpl; try done.
  rewrite IH. lia.
Qed.

Lemma dot_one_hot (u : list Z) (n new : nat) :
  length u = n → new < n →
  dot u (<[new := 1%Z]> (replicate n 0%Z)) = default 0%Z (u !! new).
Proof.
  revert n new. induction u as [|a u IH]; intros [|n] new Hlen Hnew;
    simplify_eq/=; [lia|].
  destruct new as [|new]; simpl.
  - unfold dot. simpl. fold (dot u (replicate (length u) 0%Z)).
    rewrite dot_zeros. lia.
  - unfold dot. simpl.
    fold (dot u (<[new := 1%Z]> (replicate (length u) 0%Z))).
    rewrite (IH (length u) new) by (done || lia). lia.
Qed.

Lemma dot_concat (us vs : list (list Z)) :
  Forall2 (λ u v, length u = length v) us vs →
  dot (concat us) (concat vs) = foldr Z.add 0%Z (zip_with dot us vs).
Proof.
  induction 1 as [|u v us vs Hlen _ IH]; [done|].
  simpl. by rewrite dot_app, IH.
Qed.

Lemma transpose_row (k : nat) (blocks : list (list (list Z))) (r : nat) :
  r < k →
  PathSanityDataset.transpose k (concat blocks) !! r
  = Some (concat ((λ block : list (list Z),
                     (λ row : list Z, default 0%Z (row !! r)) <$> block)
                  <$> blocks)).
Proof.
  intros Hr. unfold PathSanityDataset.transpose.
  rewrite list_lookup_fmap, lookup_seq_lt by done. simpl. f_equal.
  induction blocks as [|block blocks IH]; [done|].
  simpl. by rewrite fmap_app, IH.
Qed.

Lemma vote_wrong_class node old_label r :
  well_formed node → r ≠ old_label → vote node old_label r = 0%Z.
Proof.
  intros Hwf Hne. unfold vote.
  destruct (Node.mapping node !! old_label) as [j|] eqn:Hj; [|done].
  case_decide as Hb; [|done]. exfalso.
  apply (well_formed_elem_of_bucket _ _ _ old_label Hwf Hb) in Hj.
  apply list_elem_of_singleton in Hj. done.
Qed.

(** X13. Take a view built by the constructor over at least one node, whose
    class names are distinct, non-empty and free of commas. For a sample of
    the flat class [old_label], the matrix of [get_weights] applied to the
    vector that [__getitem__] returns gives, for every flat class, the number
    of nodes in which that class is the only member of the new class of the
    sample. So every class other than [old_label] gets 0: the ideal layer
    never votes for a wrong class. *)
Theorem get_weights_of_one_hot {Sample} get_leaves tree wnids
    (ds : Dataset.t Sample) self i sample old_label :
  PathSanityDataset.init get_leaves tree wnids ds = Ok self →
  PathSanityDataset.nodes self ≠ [] →
  NoDup (Dataset.classes ds) →
  Forall (λ name, negb (contains ","%char name) && truthy name = true)
         (Dataset.classes ds) →
  Dataset.items ds !! i = Some (sample, old_label) →
  old_label < length wnids →
  ∃ W x,
    PathSanityDataset.get_weights self = Ok W ∧
    PathSanityDataset.getitem self i = Ok (x, old_label) ∧
    length (matvec W x) = length (Dataset.classes ds) ∧
    ∀ r, r < length (Dataset.classes ds) →
      matvec W x !! r
      = Some (foldr Z.add 0%Z
                ((λ node, vote node old_label r) <$> PathSanityDataset.nodes self)) ∧
      (r ≠ old_label → matvec W x !! r = Some 0%Z).
Proof.
  intros Hinit Hne Hnd Hnames Hi Hold.
  destruct (get_weights_stacked get_leaves tree wnids ds self Hinit Hne)
    as (blocks & Hall & HW).
  destruct (PathSanityDataset_init_inv _ _ _ _ _ Hinit) as (Hds & _ & Hbuilt).
  assert (Forall (λ node, Node.num_original_classes node = length wnids)
                 (PathSanityDataset.nodes self)) as HK.
  { eapply Forall_impl; [exact Hbuilt|]. intros node [w Hw].
    by destruct (init_inv _ _ _ _ _ _ Hw) as (_ & _ & _ & _ & _ & HK & _). }
  set (hot := λ node : Node.t,
         <[default 0 (Node.mapping node !! old_label) := 1%Z]>
           (replicate (Node.num_classes node) 0%Z)).
  assert (comprehension (λ node, PathSanityDataset.get_sample node old_label)
            (PathSanityDataset.nodes self)
          = Ok (hot <$> PathSanityDataset.nodes self)) as Hhot.
  { apply comprehension_Ok, Forall2_fmap_r, Forall_Forall2_diag.
    apply Forall_forall. intros node Hnode. unfold compose, hot.
    apply list_elem_of_lookup_1 in Hnode as [n Hn].
    destruct (Forall2_lookup_l _ _ _ _ _ Hall Hn) as (_ & _ & _ & _ & Hwf & _).
    rewrite Forall_forall in HK.
    destruct (get_sample_Ok node old_label Hwf) as (new & Hnew & _ & Hsample).
    { rewrite HK; [done|]. by eapply list_elem_of_lookup_2. }
    by rewrite Hnew. }
  eexists _, (concat (hot <$> PathSanityDataset.nodes self)).
  split; [exact HW|]. split; [|split].
  - unfold PathSanityDataset.getitem, Dataset.getitem, getitem.
    rewrite Hds, Hi. simpl. by rewrite Hhot.
  - unfold matvec. rewrite length_fmap. apply transpose_shape.
  - intros r Hr.
    assert (matvec
              (PathSanityDataset.transpose (length (Dataset.classes ds))
                 (concat blocks))
              (concat (hot <$> PathSanityDataset.nodes self)) !! r
            = Some (foldr Z.add 0%Z
                      ((λ node, vote node old_label r)
                         <$> PathSanityDataset.nodes self))) as Hsum.
    { unfold matvec. rewrite list_lookup_fmap, transpose_row by done. simpl.
      f_equal. rewrite dot_concat.
      - clear HW Hhot Hne Hbuilt.
        induction Hall as [|node block nodes' blocks' Hnb Hrest IH]; [done|].
        apply Forall_cons in HK as [HKnode HK].
        destruct Hnb as (Hw & Hlen & Hwf & Horig).
        cbn [fmap list_fmap zip_with foldr]. rewrite <- (IH HK). clear IH.
        f_equal.
        destruct (get_sample_Ok node old_label Hwf) as (new & Hnew & Hlt & _);
          [by rewrite HKnode|].
        unfold hot. rewrite Hnew. simpl.
        rewrite dot_one_hot; [|by rewrite length_fmap|done].
        rewrite list_lookup_fmap. unfold vote. rewrite Hnew.
        pose proof (node_weights_Ok self node block Hwf Hw) as Hrows.
        rewrite Hds, Horig in Hrows.
        destruct (Dataset.classes ds) as [|c cs] eqn:Hcs; [simpl in Hr; lia|].
        rewrite <- Hcs in *.
        rewrite <- (well_formed_length _ Hwf) in Hlt.
        destruct (lookup_lt_is_Some_2 _ _ Hlt) as [bucket Hb].
        destruct (well_formed_name_lookup node new bucket Hwf)
          as (cls & Hcls & Hname); [by rewrite Horig, Hcs|done|].
        rewrite Hrows, list_lookup_fmap, Hcls. simpl.
        rewrite Horig in Hname.
        rewrite (weight_row_entry _ bucket cls r Hnd) by done.
        rewrite Hb. repeat case_decide; simplify_eq; done.
      - apply Forall2_fmap_l, Forall2_fmap_r, Forall2_flip.
        eapply Forall2_impl; [exact Hall|].
        intros node block (_ & Hlen & _). unfold hot.
        by rewrite length_fmap, length_insert, length_replicate. }
    split; [exact Hsum|]. intros Hwrong. rewrite Hsum. f_equal.
    clear Hsum Hhot HW Hne Hbuilt HK.
    induction Hall as [|node block nodes' blocks' Hnb Hrest IH]; [done|].
    destruct Hnb as (_ & _ & Hwf & _).
    cbn [fmap list_fmap foldr].
    rewrite (vote_wrong_class node old_label r Hwf Hwrong).
    by rewrite IH.
Qed.

Lemma get_weights_of_one_hot_witness :
  PathSanityDataset.get_weights Examples.view = Ok Examples.weights ∧
  PathSanityDataset.getitem Examples.view 1 = Ok ([1; 0; 0; 0; 1]%Z, 1) ∧
  matvec Examples.weights [1; 0; 0; 0; 1]%Z = [0; 1; 0]%Z ∧
  ∃ W x,
    PathSanityDataset.get_weights Examples.view = Ok W ∧
    PathSanityDataset.getitem Examples.view 1 = Ok (x, 1) ∧
    length (matvec W x) = length (Dataset.classes Examples.source) ∧
    ∀ r, r < length (Dataset.classes Examples.source) →
      matvec W x !! r
      = Some (foldr Z.add 0%Z
                ((λ node, vote node 1 r)
                   <$> PathSanityDataset.nodes Examples.view)) ∧
      (r ≠ 1 → matvec W x !! r = Some 0%Z).
Proof.
  split; [vm_compute; reflexivity|]. split; [vm_compute; reflexivity|].
  split; [vm_compute; reflexivity|].
  apply (get_weights_of_one_hot xmlutils.get_leaves Examples.tree Examples.wnids
           Examples.source Examples.view 1 tt 1).
  - vm_compute. reflexivity.
  - discriminate.
  - apply (bool_decide_unpack _). vm_compute. exact I.
  - repeat constructor.
  - reflexivity.
  - simpl. lia.
Defined.

(** ** The kept indices of the label-subset views *)

Section KeptIndices.

Context {Sample : Type}.
Variable include_labels : gset nat.

(** The indices that the scan of [build_index_mapping] keeps, the items being
    numbered from [start] on. *)
Let kept (start : nat) (items : list (Sample * nat)) : list nat :=
  (filter (λ p, p.2.2 ∈ include_labels) (zip (seq start (length items)) items)).*1.

Lemma kept_cons start sample label rest :
  kept start ((sample, label) :: rest)
  = if decide (label ∈ include_labels) then start :: kept (S start) rest
    else kept (S start) rest.
Proof.
  unfold kept. cbn [length seq zip zip_with]. rewrite filter_cons. simpl.
  by case_decide.
Qed.

Lemma elem_of_kept start items old :
  old ∈ kept start items ↔
  start ≤ old ∧
  ∃ sample label, items !! (old - start) = Some (sample, label) ∧
                  label ∈ include_labels.
Proof.
  revert start. induction items as [|[sample label] rest IH]; intros start.
  - unfold kept. simpl. split; [by intros ?%elem_of_nil|].
    by intros (_ & ? & ? & ? & _).
  - rewrite kept_cons. case_decide as Hin.
    + rewrite elem_of_cons, IH. split.
      * intros [->|(Hle & s & l & Hl & Hl')].
        -- split; [lia|]. exists sample, label. by rewrite Nat.sub_diag.
        -- split; [lia|]. exists s, l.
           replace (old - start) with (S (old - S start)) by lia. done.
      * intros (Hle & s & l & Hl & Hl').
        destruct (decide (old = start)) as [->|Hne]; [by left|].
        right. split; [lia|]. exists s, l.
        replace (old - start) with (S (old - S start)) in Hl by lia. done.
    + rewrite IH. split.
      * intros (Hle & s & l & Hl & Hl'). split; [lia|]. exists s, l.
        replace (old - start) with (S (old - S start)) by lia. done.
      * intros (Hle & s & l & Hl & Hl').
        destruct (decide (old = start)) as [->|Hne].
        { rewrite Nat.sub_diag in Hl. simpl in Hl. by simplify_eq. }
        split; [lia|]. exists s, l.
        replace (old - start) with (S (old - S start)) in Hl by lia. done.
Qed.

Lemma kept_sorted start items : StronglySorted lt (kept start items).
Proof.
  revert start. induction items as [|[sample label] rest IH]; intros start.
  - constructor.
  - rewrite kept_cons. case_decide; [|apply IH].
    constructor; [apply IH|]. apply Forall_forall. intros old Hold.
    apply elem_of_kept in Hold as [Hle _]. lia.
Qed.

Lemma kept_length start items : length (kept start items) ≤ length items.
Proof.
  unfold kept. rewrite length_fmap.
  etrans; [apply length_filter|].
  rewrite length_zip_with, length_seq. lia.
Qed.

(** What [build_index_mapping] returns: the kept indices, or a prefix of
    them. *)
Lemma build_index_mapping_take (ds : Dataset.t Sample) (num_samples : Z) :
  IncludeLabelsDataset.build_index_mapping ds include_labels num_samples
  = if bool_decide (num_samples = 0%Z) then kept 0 (Dataset.items ds)
    else if bool_decide (0 < num_samples)%Z
         then take (Z.to_nat num_samples) (kept 0 (Dataset.items ds))
         else take (length (kept 0 (Dataset.items ds)) - Z.to_nat (- num_samples))
                   (kept 0 (Dataset.items ds)).
Proof.
  rewrite build_index_mapping_spec. cbv zeta. unfold Dataset.len.
  fold (kept 0 (Dataset.items ds)).
  case_bool_decide; [done|]. unfold slice_to.
  case_bool_decide.
  - by rewrite (proj2 (Z.leb_le 0 num_samples)) by lia.
  - by rewrite (proj2 (Z.leb_gt 0 num_samples)) by lia.
Qed.

Lemma build_index_mapping_prefix (ds : Dataset.t Sample) (num_samples : Z) :
  ∃ n, IncludeLabelsDataset.build_index_mapping ds include_labels num_samples
       = take n (kept 0 (Dataset.items ds)).
Proof.
  rewrite build_index_mapping_take. repeat case_bool_decide; eauto.
  exists (length (kept 0 (Dataset.items ds))). by rewrite firstn_all.
Qed.

(** X14. In an include-labels view that was constructed, the kept-index list
    is strictly increasing, every kept index is an index of the dataset whose
    label is included, and the view is no longer than the dataset. With
    [num_samples = 0] every index with an included label is kept; with a
    positive [num_samples] the list is the first [num_samples] of them (all
    of them when there are fewer); with a negative one it is all but the last
    [- num_samples] of them. *)
Theorem IncludeLabels_kept_indices (ds : Dataset.t Sample) (num_samples : Z) self :
  IncludeLabelsDataset.init ds include_labels num_samples = Ok self →
  StronglySorted lt (IncludeLabelsDataset.new_to_old self) ∧
  (∀ old, old ∈ IncludeLabelsDataset.new_to_old self →
     ∃ sample label, Dataset.items ds !! old = Some (sample, label) ∧
                     label ∈ include_labels) ∧
  IncludeLabelsDataset.len self ≤ Dataset.len ds ∧
  (num_samples = 0%Z →
   ∀ old sample label,
     Dataset.items ds !! old = Some (sample, label) → label ∈ include_labels →
     old ∈ IncludeLabelsDataset.new_to_old self) ∧
  ((0 < num_samples)%Z →
   IncludeLabelsDataset.new_to_old self
   = take (Z.to_nat num_samples)
       (IncludeLabelsDataset.build_index_mapping ds include_labels 0) ∧
   IncludeLabelsDataset.len self ≤ Z.to_nat num_samples) ∧
  ((num_samples < 0)%Z →
   IncludeLabelsDataset.new_to_old self
   = take (length (IncludeLabelsDataset.build_index_mapping ds include_labels 0)
           - Z.to_nat (- num_samples))
       (IncludeLabelsDataset.build_index_mapping ds include_labels 0)).
Proof.
  unfold IncludeLabelsDataset.init. intros H. inv_bind H. injection H as <-.
  unfold IncludeLabelsDataset.len. simpl.
  destruct (build_index_mapping_prefix ds num_samples) as [n Hn].
  pose proof (build_index_mapping_take ds 0) as Hfull.
  rewrite bool_decide_eq_true_2 in Hfull by done.
  split; [|split; [|split; [|split; [|split]]]].
  - rewrite Hn. apply StronglySorted_take, kept_sorted.
  - intros old Hold. rewrite Hn in Hold.
    apply elem_of_take in Hold as (i & Hi & _).
    apply list_elem_of_lookup_2, elem_of_kept in Hi
      as (_ & sample & label & Hl & Hin).
    rewrite Nat.sub_0_r in Hl. by exists sample, label.
  - rewrite Hn, length_take. unfold Dataset.len.
    pose proof (kept_length 0 (Dataset.items ds)). lia.
  - intros -> old sample label Hl Hin. rewrite Hfull.
    apply elem_of_kept. split; [lia|]. exists sample, label.
    by rewrite Nat.sub_0_r.
  - intros Hpos. rewrite build_index_mapping_take, Hfull.
    rewrite bool_decide_eq_false_2 by lia.
    rewrite bool_decide_eq_true_2 by done.
    split; [done|]. rewrite length_take. lia.
  - intros Hneg. rewrite build_index_mapping_take, Hfull.
    rewrite bool_decide_eq_false_2 by lia.
    by rewrite bool_decide_eq_false_2 by lia.
Qed.

End KeptIndices.

Lemma IncludeLabels_kept_indices_witness :
  ∃ self,
    IncludeLabelsDataset.init Examples.source {[ 0; 1 ]} 2 = Ok self ∧
    IncludeLabelsDataset.new_to_old self = [ 0; 1 ] ∧
    StronglySorted lt (IncludeLabelsDataset.new_to_old self) ∧
    (∀ old, old ∈ IncludeLabelsDataset.new_to_old self →
       ∃ sample label, Dataset.items Examples.source !! old = Some (sample, label) ∧
                       label ∈ ({[ 0; 1 ]} : gset nat)) ∧
    IncludeLabelsDataset.len self ≤ Dataset.len Examples.source ∧
    (2%Z = 0%Z →
     ∀ old sample label,
       Dataset.items Examples.source !! old = Some (sample, label) →
       label ∈ ({[ 0; 1 ]} : gset nat) →
       old ∈ IncludeLabelsDataset.new_to_old self) ∧
    ((0 < 2)%Z →
     IncludeLabelsDataset.new_to_old self
     = take (Z.to_nat 2)
         (IncludeLabelsDataset.build_index_mapping Examples.source {[ 0; 1 ]} 0) ∧
     IncludeLabelsDataset.len self ≤ Z.to_nat 2) ∧
    ((2 < 0)%Z →
     IncludeLabelsDataset.new_to_old self
     = take (length (IncludeLabelsDataset.build_index_mapping Examples.source
                       {[ 0; 1 ]} 0) - Z.to_nat (- 2))
         (IncludeLabelsDataset.build_index_mapping Examples.source {[ 0; 1 ]} 0)).
Proof.
  eexists. split; [vm_compute; reflexivity|]. split; [vm_compute; reflexivity|].
  apply (IncludeLabels_kept_indices {[ 0; 1 ]} Examples.source 2).
  vm_compute. reflexivity.
Defined.

Lemma IncludeLabels_init_inv {Sample} (ds : Dataset.t Sample)
    (include_labels : gset nat) (num_samples : Z) self :
  IncludeLabelsDataset.init ds include_labels num_samples = Ok self →
  include_labels ≠ ∅ ∧
  IncludeLabelsDataset.dataset self = ds ∧
  IncludeLabelsDataset.new_to_old self
  = IncludeLabelsDataset.build_index_mapping ds include_labels num_samples.
Proof.
  unfold IncludeLabelsDataset.init. intros H. inv_bind H. injection H as <-.
  apply assert_Ok, bool_decide_eq_true in Ha. done.
Qed.

Lemma IncludeLabels_init_is_Ok {Sample} (ds : Dataset.t Sample)
    (include_labels : gset nat) (num_samples : Z) :
  include_labels ≠ ∅ →
  is_Ok (IncludeLabelsDataset.init ds include_labels num_samples).
Proof.
  intros Hne. unfold IncludeLabelsDataset.init.
  rewrite bool_decide_eq_true_2 by done. by eexists.
Qed.

Lemma build_index_mapping_sound {Sample} (ds : Dataset.t Sample)
    (include_labels : gset nat) (num_samples : Z) (old : nat) :
  old ∈ IncludeLabelsDataset.build_index_mapping ds include_labels num_samples →
  ∃ sample label, Dataset.items ds !! old = Some (sample, label) ∧
                  label ∈ include_labels.
Proof.
  destruct (build_index_mapping_prefix include_labels ds num_samples) as [n ->].
  intros Hold. apply elem_of_take in Hold as (i & Hi & _).
  apply list_elem_of_lookup_2, elem_of_kept in Hi
    as (_ & sample & label & Hl & Hin).
  rewrite Nat.sub_0_r in Hl. by exists sample, label.
Qed.

Lemma build_index_mapping_complete {Sample} (ds : Dataset.t Sample)
    (include_labels : gset nat) (old : nat) (sample : Sample) (label : nat) :
  Dataset.items ds !! old = Some (sample, label) → label ∈ include_labels →
  old ∈ IncludeLabelsDataset.build_index_mapping ds include_labels 0.
Proof.
  intros Hl Hin. rewrite build_index_mapping_take.
  rewrite bool_decide_eq_true_2 by done.
  apply elem_of_kept. split; [lia|]. exists sample, label.
  by rewrite Nat.sub_0_r.
Qed.

(** ** [ExcludeLabelsDataset] *)

(** X15. Constructing an exclude-labels view fails with the assertion of
    line 347 exactly when every label of [range(k)] is excluded, [k] being
    the number of classes of the dataset (so always when the dataset has no
    class). In a view that was constructed, every kept index is an index of
    the dataset whose label is below [k] and not excluded, so a sample with a
    label of [k] or more is never kept; with [num_samples = 0], every index
    whose label is below [k] and not excluded is kept. *)
Theorem ExcludeLabels_kept_indices {Sample} (ds : Dataset.t Sample)
    (exclude_labels : gset nat) (num_samples : Z) :
  ((∀ label, label < length (Dataset.classes ds) → label ∈ exclude_labels) →
   ExcludeLabelsDataset.init ds exclude_labels num_samples
   = Err (AssertionError "No labels are included in `include_labels`")) ∧
  (∀ label, label < length (Dataset.classes ds) → label ∉ exclude_labels →
            is_Ok (ExcludeLabelsDataset.init ds exclude_labels num_samples)) ∧
  (∀ self,
     ExcludeLabelsDataset.init ds exclude_labels num_samples = Ok self →
     (∀ old, old ∈ IncludeLabelsDataset.new_to_old self →
        ∃ sample label,
          Dataset.items ds !! old = Some (sample, label) ∧
          label < length (Dataset.classes ds) ∧ label ∉ exclude_labels) ∧
     (num_samples = 0%Z →
      ∀ old sample label,
        Dataset.items ds !! old = Some (sample, label) →
        label < length (Dataset.classes ds) → label ∉ exclude_labels →
        old ∈ IncludeLabelsDataset.new_to_old self)).
Proof.
  assert (∀ label,
            label ∈ (list_to_set (seq 0 (length (Dataset.classes ds))) : gset nat)
                    ∖ exclude_labels ↔
            label < length (Dataset.classes ds) ∧ label ∉ exclude_labels) as Hset.
  { intros label.
    rewrite elem_of_difference, elem_of_list_to_set, elem_of_seq.
    intuition lia. }
  unfold ExcludeLabelsDataset.init. split; [|split].
  - intros Hall. unfold IncludeLabelsDataset.init.
    rewrite bool_decide_eq_false_2; [done|].
    intros Hne. apply Hne. apply set_eq. intros label.
    rewrite Hset. split; [|by intros ?%not_elem_of_empty].
    intros [Hlt Hnot]. destruct Hnot. by apply Hall.
  - intros label Hlt Hnot. apply IncludeLabels_init_is_Ok.
    intros Hempty. apply (not_elem_of_empty (C := gset nat) label).
    rewrite <- Hempty. by apply Hset.
  - intros self Hself.
    destruct (IncludeLabels_init_inv _ _ _ _ Hself) as (_ & _ & Hkept).
    split.
    + intros old Hold. rewrite Hkept in Hold.
      apply build_index_mapping_sound in Hold as (sample & label & Hl & Hin).
      apply Hset in Hin as [Hlt Hnot]. by exists sample, label.
    + intros -> old sample label Hl Hlt Hnot. rewrite Hkept.
      apply (build_index_mapping_complete _ _ _ sample label); [done|].
      by apply Hset.
Qed.

(** ** [IncludeClassesDataset] *)

Lemma resolve_names_outcome (classes : list string) (names : list string) :
  (∃ labels,
     comprehension (λ cls, list_index classes (Some cls)) names = Ok labels ∧
     Forall2 (λ name label, list_index classes (Some name) = Ok label)
             names labels) ∨
  (comprehension (λ cls, list_index classes (Some cls)) names = Err ValueError ∧
   ∃ name, name ∈ names ∧ name ∉ classes).
Proof.
  induction names as [|name names IH].
  - left. exists []. split; [done|constructor].
  - cbn [comprehension].
    destruct (list_index classes (Some name)) as [label|e] eqn:Hidx;
      cbn [mbind result_bind].
    + destruct IH as [(labels & -> & Hall)|(-> & name' & Hin & Hnot)].
      * left. exists (label :: labels). split; [done|]. by constructor.
      * right. split; [done|]. exists name'. split; [by right|done].
    + right. simpl in Hidx. destruct (index_from_Err _ _ _ _ Hidx) as [-> Hnot].
      split; [done|]. exists name. split; [by left|done].
Qed.

(** X16. Constructing an include-classes view raises [ValueError] when one of
    the names is not a class name of the dataset, and fails with the
    assertion of line 347 when no name is given. When every name is a class
    name and there is one at least, it returns the include-labels view of the
    positions of the first occurrences of the names among the class names:
    every kept index then has a label whose class shares its name with one of
    the names given. *)
Theorem IncludeClasses_spec {Sample} (ds : Dataset.t Sample)
    (include_classes : list string) (num_samples : Z) :
  ((∃ name, name ∈ include_classes ∧ name ∉ Dataset.classes ds) →
   IncludeClassesDataset.init ds include_classes num_samples = Err ValueError) ∧
  (include_classes = [] →
   IncludeClassesDataset.init ds include_classes num_samples
   = Err (AssertionError "No labels are included in `include_labels`")) ∧
  (include_classes ≠ [] →
   (∀ name, name ∈ include_classes → name ∈ Dataset.classes ds) →
   ∃ labels self,
     Forall2 (λ name label, list_index (Dataset.classes ds) (Some name) = Ok label)
             include_classes labels ∧
     IncludeLabelsDataset.init ds (list_to_set labels) num_samples = Ok self ∧
     IncludeClassesDataset.init ds include_classes num_samples = Ok self ∧
     ∀ old, old ∈ IncludeLabelsDataset.new_to_old self →
       ∃ sample label name,
         Dataset.items ds !! old = Some (sample, label) ∧
         name ∈ include_classes ∧
         Dataset.classes ds !! label = Some name).
Proof.
  unfold IncludeClassesDataset.init.
  destruct (resolve_names_outcome (Dataset.classes ds) include_classes)
    as [(labels & Hlabels & Hall)|(Herr & name & Hin & Hnot)].
  - split; [|split].
    + intros (name & Hin & Hnot). exfalso.
      apply list_elem_of_lookup_1 in Hin as [i Hi].
      destruct (Forall2_lookup_l _ _ _ _ _ Hall Hi) as (label & _ & Hidx).
      apply list_index_lookup in Hidx. apply Hnot.
      by eapply list_elem_of_lookup_2.
    + intros ->. by inversion Hall; subst.
    + intros Hne Hknown.
      destruct (IncludeLabels_init_is_Ok ds (list_to_set labels) num_samples)
        as [self Hself].
      { destruct Hall as [|name label names labels' Hidx Hrest]; [done|].
        intros Hempty. apply (not_elem_of_empty (C := gset nat) label).
        rewrite <- Hempty. apply elem_of_list_to_set. by left. }
      exists labels, self. split; [done|]. split; [done|].
      split; [by rewrite Hlabels|].
      intros old Hold.
      destruct (IncludeLabels_init_inv _ _ _ _ Hself) as (_ & _ & Hkept).
      rewrite Hkept in Hold.
      apply build_index_mapping_sound in Hold as (sample & label & Hl & Hlabel).
      apply elem_of_list_to_set, list_elem_of_lookup_1 in Hlabel as [i Hi].
      destruct (Forall2_lookup_r _ _ _ _ _ Hall Hi) as (name & Hname & Hidx).
      exists sample, label, name. split; [done|].
      split; [by eapply list_elem_of_lookup_2|].
      by apply list_index_lookup.
  - split; [|split].
    + intros _. by rewrite Herr.
    + intros ->. by apply elem_of_nil in Hin.
    + intros _ Hknown. destruct Hnot. by apply Hknown.
Qed.
